(** * react-error-sentinel: the capture-and-delivery pipeline

    A shallow embedding of the core of the SDK (event queue, transport,
    tracker, sanitizer, fingerprinting and deduplication, then the
    breadcrumb buffer, the capture path, storage, sessions, configuration
    and event ids), the properties its specification states about it, and
    further properties that the code shows.

    Conventions.
    - A JavaScript string is a [list ascii] (one code unit per element); the
      literals of the source are written [str "..."].
    - A JavaScript number that the code only uses as an integer (timestamps,
      status codes, counters, delays) is a [Z]; lengths and sizes are [nat].
    - An object used as a dictionary ([Map], [Set]) is a [gmap] or [gset].
    - An [async] method is cut at its [await]: the part that runs before the
      promise settles and the part that resumes afterwards are two functions,
      and whatever runs in between is explicit in the theorems. *)

From Stdlib Require Import ZArith QArith Qround Ascii String List Lia Lqa Bool DecimalString.
From stdpp Require Import base functions gmap list strings.

(** ** JavaScript strings *)

Abbreviation jsstring := (list ascii).

Definition str (s : string) : jsstring := list_ascii_of_string s.

(** [charCodeAt] *)
Definition code (c : ascii) : Z := Z.of_N (N_of_ascii c).

Definition in_range (lo hi : Z) (c : ascii) : bool :=
  ((lo <=? code c) && (code c <=? hi))%Z.

(** [\d] *)
Definition is_digit (c : ascii) : bool := in_range 48 57 c.

(** [\w]: letters, digits and the underscore *)
Definition is_word (c : ascii) : bool :=
  in_range 97 122 c || in_range 65 90 c || is_digit c || (code c =? 95)%Z.

(** [\s] within one byte: tab, line feed, vertical tab, form feed, carriage
    return, space and the no-break space. *)
Definition is_space (c : ascii) : bool :=
  in_range 9 13 c || (code c =? 32)%Z || (code c =? 160)%Z.

(** [[0-9a-f]] under the [i] flag *)
Definition is_hex (c : ascii) : bool :=
  is_digit c || in_range 97 102 c || in_range 65 70 c.

Definition digit_value (c : ascii) : Z := code c - 48.

(** [String(n)] for an integer [n] *)
Definition show_Z (n : Z) : jsstring :=
  list_ascii_of_string (NilZero.string_of_int (Z.to_int n)).

(** ** Events (src/types/index.ts)

    Of an [ErrorEvent] the pipeline itself reads [event_id] and [timestamp];
    the descriptor of the error is kept as its message and type name. *)

Record ErrorEvent := mkEvent {
  event_id : jsstring;
  timestamp : Z;
  error_message : jsstring;
  error_type : jsstring
}.

(** ** The persisted event queue (src/core/queue.ts) *)

Module Queue.

(** 7 * 24 * 60 * 60 * 1000 *)
Definition MAX_AGE_MS : Z := 7 * 24 * 60 * 60 * 1000.

(** An entry of the array that [JSON.parse] hands to [restore]: [null],
    whose [timestamp] cannot be read; a value whose [timestamp] is missing
    or does not convert to a number, so that its age is [NaN]; or an
    event. *)
Inductive entry :=
| Null
| Undated
| Event (event : ErrorEvent).

(** What [storage.getItem(QUEUE_STORAGE_KEY)] can hand back to [restore]:
    nothing (null or the empty string), text that [JSON.parse] rejects,
    JSON that is not an array, or a serialized array. *)
Inductive stored :=
| NoData
| Unparsable
| NotArray
| Saved (entries : list entry).

(** The private fields [queue] and [maxSize], together with [persisted]:
    what the queue last read from the storage key or handed to [storage] for
    it. Storage is taken to hand back what it was last given; [Storage]
    below tells when [SafeStorage] does. *)
Record ErrorQueue := mkQueue {
  queue : list ErrorEvent;
  maxSize : nat;
  persisted : stored
}.

(** [persist]: the queue is serialized and handed to [storage.setItem].
    That method catches every exception of [localStorage] itself, so the
    quota branch of [persist] is never entered; the queue in memory is left
    as it is. *)
Definition persist (q : ErrorQueue) : ErrorQueue :=
  {| queue := queue q; maxSize := maxSize q;
     persisted := Saved (map Event (queue q)) |}.

(** [Array.prototype.shift] *)
Definition shift {A} (l : list A) : list A := tail l.

(** [add]: push, drop the oldest entry when over the bound, persist. *)
Definition add (event : ErrorEvent) (q : ErrorQueue) : ErrorQueue :=
  let pushed := queue q ++ [event] in
  let kept := if decide (maxSize q < length pushed) then shift pushed else pushed in
  persist {| queue := kept; maxSize := maxSize q; persisted := persisted q |}.

Definition getAll (q : ErrorQueue) : list ErrorEvent := queue q.

Definition clear (q : ErrorQueue) : ErrorQueue :=
  persist {| queue := []; maxSize := maxSize q; persisted := persisted q |}.

Definition flush (q : ErrorQueue) : list ErrorEvent * ErrorQueue :=
  (getAll q, clear q).

Definition size (q : ErrorQueue) : nat := length (queue q).

(** [remove]: [new Set(eventIds)], then keep the entries whose id is not in
    the set. *)
Definition remove (eventIds : list jsstring) (q : ErrorQueue) : ErrorQueue :=
  let idsSet : gset jsstring := list_to_set eventIds in
  persist {| queue := filter (λ event, event_id event ∉ idsSet) (queue q);
             maxSize := maxSize q;
             persisted := persisted q |}.

(** [parsed.filter((event) => now - event.timestamp < MAX_AGE_MS)]: the
    entries kept, or [None] when the callback throws. *)
Fixpoint keep_recent (now : Z) (parsed : list entry) : option (list ErrorEvent) :=
  match parsed with
  | [] => Some []
  | Null :: _ => None
  | Undated :: parsed' => keep_recent now parsed'
  | Event event :: parsed' =>
      match keep_recent now parsed' with
      | Some kept =>
          Some (if decide (now - timestamp event < MAX_AGE_MS)%Z
                then event :: kept else kept)
      | None => None
      end
  end.

(** [restore], run by the constructor at time [now]. Whatever throws inside
    its [try] leaves the queue empty and the key removed. *)
Definition restore (now : Z) (q : ErrorQueue) : ErrorQueue :=
  match persisted q with
  | NoData => q
  | Unparsable | NotArray =>
      {| queue := []; maxSize := maxSize q; persisted := NoData |}
  | Saved parsed =>
      match keep_recent now parsed with
      | Some fresh =>
          let q' := {| queue := fresh; maxSize := maxSize q;
                       persisted := persisted q |} in
          if decide (length fresh ≠ length parsed) then persist q' else q'
      | None => {| queue := []; maxSize := maxSize q; persisted := NoData |}
      end
  end.

(** [new ErrorQueue(maxSize)] over the current content of the storage key. *)
Definition new (st : stored) (now : Z) (maxSize : nat) : ErrorQueue :=
  restore now {| queue := []; maxSize := maxSize; persisted := st |}.

(** A sequence of [add] calls, first element first. *)
Definition add_all (events : list ErrorEvent) (q : ErrorQueue) : ErrorQueue :=
  fold_left (λ q e, add e q) events q.

(** Sample events and a queue of bound 1 created over a persisted array of
    three recent events. *)
Definition sample_event (id : string) : ErrorEvent :=
  {| event_id := str id; timestamp := 0; error_message := str "boom";
     error_type := str "Error" |}.

Definition oversized_restore : ErrorQueue :=
  new (Saved [Event (sample_event "a"); Event (sample_event "b");
              Event (sample_event "c")]) 1000 1.

(** The events among the entries of a stored array, and whether an entry
    is [null]. *)
Definition event_of (e : entry) : option ErrorEvent :=
  match e with
  | Event event => Some event
  | _ => None
  end.

Definition is_null (e : entry) : bool :=
  match e with
  | Null => true
  | _ => false
  end.

End Queue.


(** ** Deduplication (src/core/fingerprint.ts, [DeduplicationManager]) *)

Module Dedup.

Record DeduplicationEntry := mkEntry {
  count : Z;
  firstSeen : Z;
  lastSeen : Z
}.

(** The [seen] map with the two constructor parameters. *)
Record DeduplicationManager := mkManager {
  seen : gmap jsstring DeduplicationEntry;
  windowMs : Z;
  maxCount : Z
}.

Definition new (windowMs maxCount : Z) : DeduplicationManager :=
  {| seen := ∅; windowMs := windowMs; maxCount := maxCount |}.

Definition set_seen (m : DeduplicationManager)
    (s : gmap jsstring DeduplicationEntry) : DeduplicationManager :=
  {| seen := s; windowMs := windowMs m; maxCount := maxCount m |}.

(** [shouldCapture] at the time [now] that [Date.now()] returns. The entry
    found in the map is updated in place ([existing.count++]), which is an
    insertion under the same key here. *)
Definition shouldCapture (now : Z) (fingerprint : jsstring)
    (m : DeduplicationManager) : bool * DeduplicationManager :=
  match seen m !! fingerprint with
  | None =>
      (true, set_seen m (<[fingerprint :=
                 {| count := 1; firstSeen := now; lastSeen := now |}]> (seen m)))
  | Some existing =>
      if decide (now - firstSeen existing > windowMs m)%Z then
        (true, set_seen m (<[fingerprint :=
                 {| count := 1; firstSeen := now; lastSeen := now |}]> (seen m)))
      else
        let existing' := {| count := count existing + 1;
                            firstSeen := firstSeen existing;
                            lastSeen := now |} in
        (bool_decide (count existing' ≤ maxCount m)%Z,
         set_seen m (<[fingerprint := existing']> (seen m)))
  end.

Definition getStats (fingerprint : jsstring) (m : DeduplicationManager)
    : option DeduplicationEntry :=
  seen m !! fingerprint.

(** [getSuppressedCount] *)
Definition getSuppressedCount (fingerprint : jsstring) (m : DeduplicationManager) : Z :=
  match getStats fingerprint m with
  | None => 0
  | Some stats => Z.max 0 (count stats - maxCount m)
  end.

(** [prune]: drop the entries last seen more than a window ago. *)
Definition prune (now : Z) (m : DeduplicationManager) : DeduplicationManager :=
  set_seen m (filter (λ kv, ¬ (now - lastSeen kv.2 > windowMs m)%Z) (seen m)).

(** Successive [shouldCapture] calls on one fingerprint at the given times;
    the answers in call order and the final state. *)
Fixpoint shouldCapture_at (times : list Z) (fingerprint : jsstring)
    (m : DeduplicationManager) : list bool * DeduplicationManager :=
  match times with
  | [] => ([], m)
  | now :: later =>
      let '(b, m') := shouldCapture now fingerprint m in
      let '(bs, m'') := shouldCapture_at later fingerprint m' in
      (b :: bs, m'')
  end.

End Dedup.

(** ** Transport (src/core/transport.ts) *)

Module Transport.

(** [DEFAULT_RETRY_CONFIG] *)
Definition DEFAULT_maxAttempts : nat := 3.
Definition DEFAULT_baseDelayMs : Z := 1000.
Definition DEFAULT_maxDelayMs : Z := 30000.

(** The fields the delivery loop reads; authentication and the payload key
    only shape the request. *)
Record Transport := mkTransport {
  endpoint : jsstring;
  maxAttempts : nat;
  baseDelayMs : Z;
  maxDelayMs : Z
}.

(** The constructor: the two delays always come from the defaults. *)
Definition new (endpoint : jsstring) (retryAttempts : nat) : Transport :=
  {| endpoint := endpoint; maxAttempts := retryAttempts;
     baseDelayMs := DEFAULT_baseDelayMs; maxDelayMs := DEFAULT_maxDelayMs |}.

Record TransportResponse := mkResponse {
  success : bool;
  eventIds : option (list jsstring);
  error : option jsstring
}.

(** What [response.json()] gives on a 2xx response: a rejection (the body is
    empty or not JSON, or it is [null] so that reading [event_ids] throws),
    or a value whose [event_ids] is an array of strings or is missing. *)
Inductive body :=
| BadJson (message : jsstring)
| Json (event_ids : option (list jsstring)).

Record Response := mkHttp {
  status : Z;
  json : body;
  text : jsstring;
  retryAfter : option jsstring   (* [headers.get('Retry-After')] *)
}.

(** [response.ok] *)
Definition ok (r : Response) : bool := ((200 <=? status r) && (status r <=? 299))%Z.

(** One call of [fetch]: a response, or a rejection with its message. *)
Inductive fetched :=
| Responded (r : Response)
| Rejected (message : jsstring).

Definition isRetryableError (status : Z) : bool :=
  if ((500 <=? status) && (status <? 600))%Z then true
  else if (status =? 429)%Z then true
  else if (status =? 408)%Z then true
  else false.

(** [calculateBackoffDelay]; [random] is the value [Math.random()] returned,
    and the arithmetic on doubles is taken exact, over the rationals. The
    doubles round [random * 0.3 * exponentialDelay], which can move the
    floor by one millisecond, and from [attempt = 1024] on [Math.pow] is
    infinite; below that the delay lies between the same bounds either
    way. *)
Definition calculateBackoffDelay (t : Transport) (attempt : nat) (random : Q) : Z :=
  let exponentialDelay := (baseDelayMs t * 2 ^ Z.of_nat attempt)%Z in
  let jitter := (random * (3 # 10) * inject_Z exponentialDelay)%Q in
  Z.min (Qfloor (inject_Z exponentialDelay + jitter)) (maxDelayMs t).

(** [parseInt(s, 10)]: leading white space, an optional sign, then the
    longest run of digits; [None] is NaN. *)
Fixpoint digits_prefix (acc : Z) (s : jsstring) : Z :=
  match s with
  | c :: s' => if is_digit c then digits_prefix (10 * acc + digit_value c) s' else acc
  | [] => acc
  end.

Fixpoint skip_spaces (s : jsstring) : jsstring :=
  match s with
  | c :: s' => if is_space c then skip_spaces s' else s
  | [] => []
  end.

Definition parse_unsigned (s : jsstring) : option Z :=
  match s with
  | c :: _ => if is_digit c then Some (digits_prefix 0 s) else None
  | [] => None
  end.

Definition parseInt10 (s : jsstring) : option Z :=
  match skip_spaces s with
  | c :: s' =>
      if (code c =? 45)%Z then Z.opp <$> parse_unsigned s'
      else if (code c =? 43)%Z then parse_unsigned s'
      else parse_unsigned (c :: s')
  | [] => None
  end.

(** The delay before the next attempt after a retryable response: the
    computed backoff, overridden by a [Retry-After] header that is not empty
    and parses to a number. *)
Definition retryDelay (t : Transport) (attempt : nat) (random : Q)
    (retryAfter : option jsstring) : Z :=
  let delay := calculateBackoffDelay t attempt random in
  match retryAfter with
  | Some (c :: h) =>
      match parseInt10 (c :: h) with
      | Some retryAfterSeconds => Z.min (retryAfterSeconds * 1000) (maxDelayMs t)
      | None => delay
      end
  | _ => delay
  end.

(** What one [send] did: its answer, how many times it called [fetch] and
    the delays it slept, in order. *)
Record Sent := mkSent {
  response : TransportResponse;
  fetches : nat;
  sleeps : list Z
}.

Definition later (delay : option Z) (s : Sent) : Sent :=
  {| response := response s;
     fetches := S (fetches s);
     sleeps := match delay with Some d => d :: sleeps s | None => sleeps s end |}.

Definition http_error (status : Z) (lastError : jsstring) : jsstring :=
  str "HTTP " ++ show_Z status ++ str ": " ++ lastError.

Section Send.

(** The network answers the [attempt]-th call of [fetch] with [net attempt];
    [random attempt] is what [Math.random()] returns in that iteration. *)
Variable t : Transport.
Variable events : list ErrorEvent.
Variable net : nat → fetched.
Variable random : nat → Q.

(** The [for] loop of [send], entered at [attempt] with
    [remaining = maxAttempts - attempt] iterations to go. *)
Fixpoint send_from (remaining attempt : nat) (lastError : jsstring)
    (lastStatus : option Z) : Sent :=
  match remaining with
  | 0 =>
      {| response := {| success := false; eventIds := None;
                        error := Some match lastStatus with
                                      | Some status => http_error status lastError
                                      | None => lastError
                                      end |};
         fetches := 0; sleeps := [] |}
  | S remaining' =>
      let pause (delay : Z) :=
        if decide (attempt < maxAttempts t - 1) then Some delay else None in
      let caught (message : jsstring) :=
        later (pause (calculateBackoffDelay t attempt (random attempt)))
              (send_from remaining' (S attempt) message None) in
      match net attempt with
      | Responded r =>
          if ok r then
            match json r with
            | Json event_ids =>
                {| response :=
                     {| success := true;
                        eventIds := Some match event_ids with
                                         | Some ids => ids
                                         | None => map event_id events
                                         end;
                        error := None |};
                   fetches := 1; sleeps := [] |}
            | BadJson message => caught message
            end
          else if negb (isRetryableError (status r)) then
            {| response := {| success := false; eventIds := None;
                              error := Some (http_error (status r) (text r)) |};
               fetches := 1; sleeps := [] |}
          else
            later (pause (retryDelay t attempt (random attempt) (retryAfter r)))
                  (send_from remaining' (S attempt) (text r) (Some (status r)))
      | Rejected message => caught message
      end
  end.

Definition send : Sent :=
  match endpoint t with
  | [] => {| response := {| success := false; eventIds := None;
                            error := Some (str "No endpoint configured") |};
             fetches := 0; sleeps := [] |}
  | _ :: _ =>
      match events with
      | [] => {| response := {| success := true; eventIds := Some []; error := None |};
                 fetches := 0; sleeps := [] |}
      | _ :: _ => send_from (maxAttempts t) 0 [] None
      end
  end.

(** An attempt after which the loop goes on: a rejected [fetch], a 2xx
    response whose body cannot be read, or a retryable status. *)
Definition retried (f : fetched) : bool :=
  match f with
  | Rejected _ => true
  | Responded r =>
      if ok r then match json r with BadJson _ => true | Json _ => false end
      else isRetryableError (status r)
  end.

End Send.

(** Sample data: a transport with the default budget, a collector that
    answers 503 with [Retry-After: 7] and then 404, one that accepts the
    batch with or without [event_ids], one that answers without a body, and
    a jitter source. *)
Definition sample_transport : Transport :=
  new (str "https://collector.example/errors") 3.

Definition net_503_then_404 (attempt : nat) : fetched :=
  match attempt with
  | 0 => Responded {| status := 503; json := BadJson (str "Unexpected token");
                      text := str "busy"; retryAfter := Some (str "7") |}
  | _ => Responded {| status := 404; json := BadJson (str "Unexpected token");
                      text := str "not here"; retryAfter := None |}
  end.

Definition net_accepts (event_ids : option (list jsstring)) (attempt : nat) : fetched :=
  Responded {| status := 200; json := Json event_ids; text := [];
               retryAfter := None |}.

(** A collector that answers every request with 204 and an empty body,
    which [response.json()] rejects. *)
Definition no_content : Response :=
  {| status := 204; json := BadJson (str "Unexpected end of JSON input");
     text := []; retryAfter := None |}.

Definition net_no_content (attempt : nat) : fetched := Responded no_content.

Definition half (attempt : nat) : Q := 1 # 2.

End Transport.


(** ** Tracker (src/core/tracker.ts)

    The orchestrator together with the part of the page it acts on: the
    timers it starts, the global handlers it installs, and the calls of its
    own [async] methods that are suspended at an [await]. *)

Module Tracker.

(** The fields of the merged configuration that [init], [shutdown] and the
    delivery path read. *)
Record Config := mkConfig {
  endpoint : jsstring;
  enabled : bool;
  maxQueueSize : nat;
  retryAttempts : nat;
  sendOnErrorOnly : bool;
  flushInterval : Z;
  debounceMs : Z;
  consoleEnabled : bool
}.

(** [defaultConfig] (src/core/config.ts) *)
Definition defaultConfig : Config :=
  {| endpoint := []; enabled := true; maxQueueSize := 50; retryAttempts := 3;
     sendOnErrorOnly := true; flushInterval := 10000; debounceMs := 100;
     consoleEnabled := true |}.

(** A call of [sendQueuedEvents] that has reached its [await]: either it
    returned at once because the queue was empty, or [send] is under way on
    the transport of that moment with the batch read by [getAll]. *)
Inductive Flush :=
| NothingToSend
| Sending (via : Transport.Transport) (batch : list ErrorEvent).

Record ErrorTracker := mkTracker {
  config : Config;
  queue : Queue.ErrorQueue;
  transport : Transport.Transport;
  isInitialized : bool;
  flushIntervalId : option nat;
  sendDebounceTimer : option nat;
  cleanupWindowHandlers : option nat;
  (* the page *)
  liveTimers : gset nat;        (* intervals and timeouts not cleared *)
  breadcrumbSweep : option nat; (* [pruneIntervalId] of the breadcrumb buffer *)
  windowListeners : gset nat;   (* handler sets installed and not removed *)
  consoleIntercepted : bool;
  nextHandle : nat;
  warnings : list jsstring;     (* what [logger.warn] was called with *)
  (* calls of [shutdown] suspended at [await this.sendQueuedEvents()] *)
  shutdownsAwaiting : list Flush
}.

(** The exported singleton before any [init], over the current content of
    the storage key. *)
Definition boot (st : Queue.stored) : ErrorTracker :=
  {| config := defaultConfig;
     queue := {| Queue.queue := []; Queue.maxSize := 0; Queue.persisted := st |};
     transport := Transport.new [] 0;
     isInitialized := false;
     flushIntervalId := None; sendDebounceTimer := None;
     cleanupWindowHandlers := None;
     liveTimers := ∅; breadcrumbSweep := None; windowListeners := ∅;
     consoleIntercepted := false; nextHandle := 0; warnings := [];
     shutdownsAwaiting := [] |}.

Definition set_queue (q : Queue.ErrorQueue) (t : ErrorTracker) : ErrorTracker :=
  {| config := config t; queue := q; transport := transport t;
     isInitialized := isInitialized t; flushIntervalId := flushIntervalId t;
     sendDebounceTimer := sendDebounceTimer t;
     cleanupWindowHandlers := cleanupWindowHandlers t;
     liveTimers := liveTimers t; breadcrumbSweep := breadcrumbSweep t;
     windowListeners := windowListeners t;
     consoleIntercepted := consoleIntercepted t; nextHandle := nextHandle t;
     warnings := warnings t; shutdownsAwaiting := shutdownsAwaiting t |}.

(** [this.queue.add(event)], the step by which [captureError] and
    [captureMessage] enqueue the event they built. *)
Definition enqueue (event : ErrorEvent) (t : ErrorTracker) : ErrorTracker :=
  set_queue (Queue.add event (queue t)) t.

(** [sendQueuedEvents] up to [await this.transport.send(events)]. *)
Definition sendQueuedEvents_start (t : ErrorTracker) : Flush :=
  match Queue.getAll (queue t) with
  | [] => NothingToSend
  | events => Sending (transport t) events
  end.

(** [sendQueuedEvents] from the moment [send] has answered; [this.queue] is
    the queue the tracker holds by then. *)
Definition sendQueuedEvents_finish (response : Transport.TransportResponse)
    (t : ErrorTracker) : ErrorTracker :=
  if Transport.success response then
    match Transport.eventIds response with
    | Some eventIds => set_queue (Queue.remove eventIds (queue t)) t
    | None => set_queue (Queue.clear (queue t)) t
    end
  else t.

(** [shutdown] up to its [await]: timers cleared, handlers detached, console
    restored, breadcrumb sweep stopped, final flush started. *)
Definition shutdown_start (t : ErrorTracker) : ErrorTracker :=
  if negb (isInitialized t) then t
  else
    let cleared (handle : option nat) (live : gset nat) : gset nat :=
      match handle with Some h => live ∖ {[h]} | None => live end in
    {| config := config t; queue := queue t; transport := transport t;
       isInitialized := isInitialized t;
       flushIntervalId := None;
       sendDebounceTimer := None;
       cleanupWindowHandlers := None;
       liveTimers := cleared (breadcrumbSweep t)
                       (cleared (sendDebounceTimer t)
                          (cleared (flushIntervalId t) (liveTimers t)));
       breadcrumbSweep := None;
       windowListeners := cleared (cleanupWindowHandlers t) (windowListeners t);
       consoleIntercepted := false;
       nextHandle := nextHandle t;
       warnings := warnings t;
       shutdownsAwaiting := shutdownsAwaiting t ++ [sendQueuedEvents_start t] |}.

(** The oldest suspended [shutdown] resumes once its flush has settled, the
    network having answered the attempts of [send] with [net]: the response
    is handled and the tracker becomes uninitialized. *)
Definition shutdown_resume (net : nat → Transport.fetched) (random : nat → Q)
    (t : ErrorTracker) : ErrorTracker :=
  match shutdownsAwaiting t with
  | [] => t
  | flush :: others =>
      let t1 :=
        match flush with
        | NothingToSend => t
        | Sending via batch =>
            sendQueuedEvents_finish
              (Transport.response (Transport.send via batch net random)) t
        end in
      {| config := config t1; queue := queue t1; transport := transport t1;
         isInitialized := false;
         flushIntervalId := flushIntervalId t1;
         sendDebounceTimer := sendDebounceTimer t1;
         cleanupWindowHandlers := cleanupWindowHandlers t1;
         liveTimers := liveTimers t1; breadcrumbSweep := breadcrumbSweep t1;
         windowListeners := windowListeners t1;
         consoleIntercepted := consoleIntercepted t1;
         nextHandle := nextHandle t1; warnings := warnings t1;
         shutdownsAwaiting := others |}
  end.

(** [init] at time [now], with the merged configuration [cfg]. The promise
    returned by [this.shutdown()] is not awaited: [init] runs on as soon as
    [shutdown] has reached its [await]. *)
Definition init (cfg : Config) (now : Z) (t : ErrorTracker) : ErrorTracker :=
  let t0 :=
    if isInitialized t then
      let warned :=
        {| config := config t; queue := queue t; transport := transport t;
           isInitialized := isInitialized t;
           flushIntervalId := flushIntervalId t;
           sendDebounceTimer := sendDebounceTimer t;
           cleanupWindowHandlers := cleanupWindowHandlers t;
           liveTimers := liveTimers t; breadcrumbSweep := breadcrumbSweep t;
           windowListeners := windowListeners t;
           consoleIntercepted := consoleIntercepted t;
           nextHandle := nextHandle t;
           warnings := warnings t
                       ++ [str "ErrorTracker already initialized, reinitializing..."];
           shutdownsAwaiting := shutdownsAwaiting t |} in
      shutdown_start warned
    else t in
  let sweep := nextHandle t0 in
  let listeners := S sweep in
  let interval := S listeners in
  {| config := cfg;
     queue := Queue.new (Queue.persisted (queue t0)) now (maxQueueSize cfg);
     transport := Transport.new (endpoint cfg) (retryAttempts cfg);
     isInitialized := true;
     flushIntervalId :=
       if sendOnErrorOnly cfg then flushIntervalId t0 else Some interval;
     sendDebounceTimer := sendDebounceTimer t0;
     cleanupWindowHandlers := Some listeners;
     liveTimers :=
       (if sendOnErrorOnly cfg then ∅ else {[interval]})
       ∪ {[sweep]} ∪ liveTimers t0;
     breadcrumbSweep := Some sweep;
     windowListeners := {[listeners]} ∪ windowListeners t0;
     consoleIntercepted := consoleEnabled cfg || consoleIntercepted t0;
     nextHandle := S interval;
     warnings := warnings t0;
     shutdownsAwaiting := shutdownsAwaiting t0 |}.

(** Sample data: one configuration, and a tracker holding one event whose
    delivery has started. *)
Definition sample_config : Config :=
  {| endpoint := str "https://collector.example/errors"; enabled := true;
     maxQueueSize := 50; retryAttempts := 3; sendOnErrorOnly := true;
     flushInterval := 10000; debounceMs := 100; consoleEnabled := true |}.

Definition sample_tracker : ErrorTracker :=
  enqueue (Queue.sample_event "a") (init sample_config 1000 (boot Queue.NoData)).

(** [init] on a tracker that [init] has just initialized. *)
Definition reinit (first second : Config) (now1 now2 : Z) (st : Queue.stored)
    : ErrorTracker :=
  init second now2 (init first now1 (boot st)).

End Tracker.


(** ** Sanitizer (src/core/sanitizer.ts, [safeClone] of src/utils/helpers.ts) *)

Module Sanitizer.

(** JavaScript values as the sanitizer tells them apart. Values whose
    [typeof] is not ['object'] are handed back as they are: the primitives
    and functions. Of a function the walk never looks inside; what matters
    of it is [readonly], the names that cannot be assigned on an object
    inheriting from it ([name] and [length] among them).

    An object is held in place when nothing else refers to it (every object
    the sanitizer builds is of this kind); [VRef a] is a reference to the
    object at address [a] of a store, which is how shared and cyclic
    structures are written.

    Objects other than [Error]s, [Date]s and arrays are given by their own
    enumerable properties, in the order in which [for ... in] visits them;
    the keys of one object are distinct. [OInherits proto props] is such an
    object whose prototype was set to [proto] by an assignment to
    [__proto__]; the prototype of an [ORecord] is [Object.prototype] when
    the sanitizer built it, and of no concern when the sanitizer reads it. *)
Inductive jsval :=
| VUndefined
| VNull
| VBool (b : bool)
| VNumber (n : Z)
| VString (s : jsstring)
| VBigInt (n : Z)
| VSymbol (id : nat)
| VFunction (id : nat) (readonly : list jsstring)
| VObject (o : jsobject)
| VRef (a : nat)
with jsobject :=
| OError (name message : jsstring) (stack : option jsstring)
| ODate (iso : option jsstring)  (* [None]: an invalid date, [toISOString] throws *)
| OArray (items : list jsval)
| ORecord (props : list (jsstring * jsval))
| OInherits (proto : jsval) (props : list (jsstring * jsval)).

(** The objects that references point to. *)
Definition store := nat → jsobject.

(** The exceptions that can arise during a walk. *)
Inductive exception :=
| StackExhausted   (* RangeError: Maximum call stack size exceeded *)
| InvalidTime      (* RangeError: Invalid time value *)
| NotWritable.     (* TypeError: Cannot assign to read only property *)

(** How a call ends: with a value or with an exception. *)
Inductive outcome (A : Type) :=
| Returns (a : A)
| Throws (e : exception).
Arguments Returns {A} a.
Arguments Throws {A} e.

(** [Array.prototype.map]: in order, stopping at the first call that
    throws. *)
Fixpoint map_outcome {A B} (f : A → outcome B) (l : list A) : outcome (list B) :=
  match l with
  | [] => Returns []
  | x :: l' =>
      match f x with
      | Returns y =>
          match map_outcome f l' with
          | Returns ys => Returns (y :: ys)
          | Throws e => Throws e
          end
      | Throws e => Throws e
      end
  end.

(** *** Patterns *)

(** The regular expressions of [DEFAULT_REDACT_PATTERNS]: letters compared
    without case, and an optional character out of a set. *)
Inductive atom :=
| Ch (c : ascii)
| OptOf (cs : list ascii).

Definition lower (c : ascii) : ascii :=
  if in_range 65 90 c then ascii_of_N (N_of_ascii c + 32) else c.

Fixpoint matches_here (p : list atom) (s : jsstring) : bool :=
  match p with
  | [] => true
  | Ch c :: p' =>
      match s with
      | x :: s' => bool_decide (lower x = lower c) && matches_here p' s'
      | [] => false
      end
  | OptOf cs :: p' =>
      match s with
      | x :: s' => bool_decide (x ∈ cs) && matches_here p' s'
      | [] => false
      end
      || matches_here p' s
  end.

(** [pattern.test(key)] for a pattern with the flag [i] alone *)
Fixpoint test (p : list atom) (s : jsstring) : bool :=
  matches_here p s
  || match s with
     | [] => false
     | _ :: s' => test p s'
     end.

Definition word (w : string) : list atom := map Ch (str w).

(** The built-in patterns carry neither [g] nor [y]: their [test] keeps no
    state and is the predicate it computes. *)
Definition DEFAULT_REDACT_PATTERNS : list (jsstring → bool) :=
  map test
    [ word "password";
      word "token";
      word "access" ++ [OptOf (str "_-")] ++ word "token";
      word "refresh" ++ [OptOf (str "_-")] ++ word "token";
      word "api" ++ [OptOf (str "_-")] ++ word "key";
      word "secret";
      word "auth";
      word "bearer";
      word "authorization" ].

(** A [RegExp] object handed in by the caller. [exec i s] is the end of the
    match that the pattern finds in [s] when it starts looking at index [i]
    (for a sticky pattern: the match at [i] itself); [advances] tells
    whether the pattern carries the flag [g] or [y], in which case [test]
    starts at [lastIndex] and moves it. *)
Record RegExp := mkRegExp {
  exec : nat → jsstring → option nat;
  advances : bool;
  lastIndex : nat
}.

Definition set_lastIndex (i : nat) (p : RegExp) : RegExp :=
  {| exec := exec p; advances := advances p; lastIndex := i |}.

(** [RegExp.prototype.test]: the answer and the object afterwards. *)
Definition RegExp_test (p : RegExp) (s : jsstring) : bool * RegExp :=
  if advances p then
    if decide (length s < lastIndex p) then (false, set_lastIndex 0 p)
    else
      match exec p (lastIndex p) s with
      | Some e => (true, set_lastIndex e p)
      | None => (false, set_lastIndex 0 p)
      end
  else (bool_decide (is_Some (exec p 0 s)), p).

(** The [RegExp] objects of the program, by address: the same object may
    stand in the pattern list more than once, and it keeps its [lastIndex]
    from one call of [sanitize] to the next. *)
Abbreviation regexps := (nat → RegExp).

(** The fields of a [DataSanitizer]; [customPatterns] lists the addresses
    of its [RegExp] objects. *)
Record DataSanitizer := mkSanitizer {
  autoRedact : bool;
  customPatterns : list nat;
  redactedValue : jsstring
}.

(** [new DataSanitizer()] *)
Definition default_sanitizer : DataSanitizer :=
  {| autoRedact := true; customPatterns := []; redactedValue := str "[REDACTED]" |}.

(** *** Code that reads and writes the [RegExp] objects and may throw *)

Definition action (A : Type) : Type := regexps → outcome A * regexps.

Definition ret {A} (a : A) : action A := λ σ, (Returns a, σ).

Definition throw {A} (e : exception) : action A := λ σ, (Throws e, σ).

Definition lift {A} (r : outcome A) : action A := λ σ, (r, σ).

Definition bind {A B} (m : action A) (f : A → action B) : action B :=
  λ σ, match m σ with
       | (Returns a, σ') => f a σ'
       | (Throws e, σ') => (Throws e, σ')
       end.

(** [try { m } catch { handler }]: what [m] did to the patterns before it
    threw stays done. *)
Definition catch {A} (m : action A) (handler : action A) : action A :=
  λ σ, match m σ with
       | (Returns a, σ') => (Returns a, σ')
       | (Throws _, σ') => handler σ'
       end.

Notation "'let*' x := m 'in' f" := (bind m (λ x, f))
  (at level 10, x name, m at level 100, f at level 200).

(** [items.map(f)] *)
Fixpoint traverse {A B} (f : A → action B) (l : list A) : action (list B) :=
  match l with
  | [] => ret []
  | x :: l' =>
      let* y := f x in
      let* ys := traverse f l' in
      ret (y :: ys)
  end.

(** An entry of the array that [shouldRedact] builds. *)
Inductive pattern :=
| BuiltIn (test : jsstring → bool)
| Custom (a : nat).

(** [pattern.test(key)]; a pattern without [g] and [y] is not written to. *)
Definition pattern_test (p : pattern) (key : jsstring) : action bool :=
  match p with
  | BuiltIn test => ret (test key)
  | Custom a =>
      λ σ, let '(found, p') := RegExp_test (σ a) key in
           (Returns found, if advances (σ a) then <[a := p']> σ else σ)
  end.

(** [patterns.some((pattern) => pattern.test(key))]: the patterns after the
    first one that matches are not tried. *)
Fixpoint some (patterns : list pattern) (key : jsstring) : action bool :=
  match patterns with
  | [] => ret false
  | p :: patterns' =>
      let* found := pattern_test p key in
      if found then ret true else some patterns' key
  end.

Definition shouldRedact (s : DataSanitizer) (key : jsstring) : action bool :=
  let patterns :=
    if autoRedact s
    then map BuiltIn DEFAULT_REDACT_PATTERNS ++ map Custom (customPatterns s)
    else map Custom (customPatterns s) in
  some patterns key.

(** *** Building the result *)

Definition MaxDepthReached : jsval := VString (str "[Max Depth Reached]").
Definition CircularReference : jsval := VString (str "[Circular Reference]").

(** [{ name: value.name, message: value.message, stack: value.stack }] *)
Definition error_fields (name message : jsstring) (stack : option jsstring) : jsval :=
  VObject (ORecord
    [ (str "name", VString name);
      (str "message", VString message);
      (str "stack", match stack with Some s => VString s | None => VUndefined end) ]).

(** The object literal [{}] while the loop fills it: the prototype once an
    assignment has set one, and the own properties so far. *)
Record building := mkBuilding {
  proto : option jsval;
  own : list (jsstring * jsval)
}.

Definition empty_literal : building := {| proto := None; own := [] |}.

Definition PROTO : jsstring := str "__proto__".

(** The values that the setter of [__proto__] takes as a prototype: objects,
    functions among them, and [null]. *)
Definition sets_prototype (v : jsval) : bool :=
  match v with
  | VNull | VFunction _ _ | VObject _ | VRef _ => true
  | _ => false
  end.

Definition readonly_under (proto : option jsval) (key : jsstring) : bool :=
  match proto with
  | Some (VFunction _ readonly) => bool_decide (key ∈ readonly)
  | _ => false
  end.

(** [sanitized[key] = v] in strict code. The key [__proto__] reaches the
    setter inherited from [Object.prototype], which makes no own property:
    it changes the prototype, or does nothing when [v] is not an object or
    [null]. Any other key becomes a new own property, unless the prototype
    set earlier forbids the assignment. *)
Definition assign (key : jsstring) (v : jsval) (o : building) : outcome building :=
  if decide (key = PROTO) then
    Returns (if sets_prototype v then {| proto := Some v; own := own o |} else o)
  else if readonly_under (proto o) key then Throws NotWritable
  else Returns {| proto := proto o; own := own o ++ [(key, v)] |}.

Definition built (o : building) : jsval :=
  VObject match proto o with
          | Some p => OInherits p (own o)
          | None => ORecord (own o)
          end.

Section Walk.

Variable s : DataSanitizer.
Variable h : store.

(** The body of [for (const key in value)] over the own properties still
    to visit, [sanitized] being the literal so far; [recur] is the recursive
    call at [currentDepth + 1]. *)
Fixpoint sanitize_properties (recur : jsval → action jsval)
    (props : list (jsstring * jsval)) (sanitized : building) : action jsval :=
  match props with
  | [] => ret (built sanitized)
  | (key, v) :: props' =>
      let* redact := shouldRedact s key in
      let* v' := (if redact then ret (VString (redactedValue s)) else recur v) in
      let* sanitized' := lift (assign key v' sanitized) in
      sanitize_properties recur props' sanitized'
  end.

(** The branches of [sanitizeRecursive] for a value of type object, in the
    order of the source: [Error], [Date], array, and the loop over the own
    properties inside [try]. *)
Definition sanitize_object (recur : jsval → action jsval) (o : jsobject)
    : action jsval :=
  match o with
  | OError name message stack => ret (error_fields name message stack)
  | ODate (Some iso) => ret (VString iso)
  | ODate None => throw InvalidTime
  | OArray items =>
      let* items' := traverse recur items in
      ret (VObject (OArray items'))
  | ORecord props | OInherits _ props =>
      catch (sanitize_properties recur props empty_literal) (ret CircularReference)
  end.

(** [sanitizeRecursive]. [stack] is the number of nested calls of the
    function that the call stack has room for: the call that does not fit
    throws, like any exception, up to the nearest [try]. The calls made
    inside one level ([shouldRedact], the callbacks) are taken to fit
    whenever the level itself does. *)
Fixpoint sanitizeRecursive (stack : nat) (value : jsval)
    (maxDepth currentDepth : nat) : action jsval :=
  match stack with
  | 0 => throw StackExhausted
  | S stack' =>
      if decide (maxDepth ≤ currentDepth) then ret MaxDepthReached
      else
        let recur := λ v, sanitizeRecursive stack' v maxDepth (S currentDepth) in
        match value with
        | VObject o => sanitize_object recur o
        | VRef a => sanitize_object recur (h a)
        | _ => ret value
        end
  end.

(** The same in [safeClone] (src/utils/helpers.ts), which copies every
    property and touches no pattern. *)
Fixpoint clone_properties (recur : jsval → outcome jsval)
    (props : list (jsstring * jsval)) (cloned : building) : outcome jsval :=
  match props with
  | [] => Returns (built cloned)
  | (key, v) :: props' =>
      match recur v with
      | Returns v' =>
          match assign key v' cloned with
          | Returns cloned' => clone_properties recur props' cloned'
          | Throws e => Throws e
          end
      | Throws e => Throws e
      end
  end.

Definition clone_object (recur : jsval → outcome jsval) (o : jsobject)
    : outcome jsval :=
  match o with
  | OError name message stack => Returns (error_fields name message stack)
  | ODate (Some iso) => Returns (VString iso)
  | ODate None => Throws InvalidTime
  | OArray items =>
      match map_outcome recur items with
      | Returns items' => Returns (VObject (OArray items'))
      | Throws e => Throws e
      end
  | ORecord props | OInherits _ props =>
      match clone_properties recur props empty_literal with
      | Returns cloned => Returns cloned
      | Throws _ => Returns CircularReference
      end
  end.

Fixpoint safeClone (stack : nat) (obj : jsval)
    (maxDepth currentDepth : nat) : outcome jsval :=
  match stack with
  | 0 => Throws StackExhausted
  | S stack' =>
      if decide (maxDepth ≤ currentDepth) then Returns MaxDepthReached
      else
        let recur := λ v, safeClone stack' v maxDepth (S currentDepth) in
        match obj with
        | VObject o => clone_object recur o
        | VRef a => clone_object recur (h a)
        | _ => Returns obj
        end
  end.

(** [sanitize(data, maxDepth)] with room for [stack] nested calls of the
    function it hands the data to. *)
Definition sanitize (stack : nat) (data : jsval) (maxDepth : nat) : action jsval :=
  if negb (autoRedact s) && bool_decide (length (customPatterns s) = 0)
  then lift (safeClone stack data maxDepth 0)
  else sanitizeRecursive stack data maxDepth 0.

End Walk.

(** *** Notions used to state the properties *)

(** No custom pattern carries the flag [g] or [y]. *)
Definition stateless (s : DataSanitizer) (σ : regexps) : Prop :=
  Forall (λ a, advances (σ a) = false) (customPatterns s).

(** An action that leaves the patterns as they are. *)
Definition quiet {A} (m : action A) (σ : regexps) : Prop := (m σ).2 = σ.

(** What [shouldRedact] answers when no pattern keeps a state. *)
Definition redacts (s : DataSanitizer) (σ : regexps) (key : jsstring) : bool :=
  autoRedact s && existsb (λ test, test key) DEFAULT_REDACT_PATTERNS
  || existsb (λ a, bool_decide (is_Some (exec (σ a) 0 key))) (customPatterns s).

(** With [rem] levels left above the depth cap, every [Error] instance that
    the walk reaches has at least two of them left, so that its three fields
    lie above the cap as well, and no own property named [__proto__] that
    the walk copies holds an object, a function or [null]. *)
Fixpoint settled (s : DataSanitizer) (σ : regexps) (h : store) (rem : nat)
    (value : jsval) : bool :=
  match rem with
  | 0 => true
  | S rem' =>
      let properties (props : list (jsstring * jsval)) : bool :=
        forallb (λ '(key, v),
                   redacts s σ key
                   || settled s σ h rem' v
                      && negb (bool_decide (key = PROTO) && sets_prototype v))
                props in
      let object (o : jsobject) : bool :=
        match o with
        | OError _ _ _ => bool_decide (1 ≤ rem')
        | ODate _ => true
        | OArray items => forallb (settled s σ h rem') items
        | ORecord props | OInherits _ props => properties props
        end in
      match value with
      | VObject o => object o
      | VRef a => object (h a)
      | _ => true
      end
  end.

(** The default depth of [sanitize]. *)
Definition DEFAULT_maxDepth : nat := 10.

(** [depth] objects nested under [key] around [value]. *)
Fixpoint nested (key : jsstring) (depth : nat) (value : jsval) : jsval :=
  match depth with
  | 0 => value
  | S d => VObject (ORecord [(key, nested key d value)])
  end.

(** [depth] arrays nested around [value]. *)
Fixpoint wrapped (depth : nat) (value : jsval) : jsval :=
  match depth with
  | 0 => value
  | S d => VObject (OArray [wrapped d value])
  end.

(** A value that is not an object. *)
Definition leaf (v : jsval) : Prop :=
  match v with
  | VObject _ | VRef _ => False
  | _ => True
  end.

(** *** Sample data *)

(** A store whose object 0 is [a] after [a.self = a], and an [Error] inside
    nine arrays. *)
Definition self_store : store :=
  λ _, ORecord [(str "self", VRef 0)].

Definition deep_error : jsval :=
  wrapped 9 (VObject (OError (str "Error") (str "boom") None)).

Definition empty_store : store := λ _, ORecord [].

(** A state snapshot with a secret, a date, a shallow [Error], a reference
    into a cyclic store, a callback and an array. *)
Definition sample_state : jsval :=
  VObject (ORecord
    [ (str "user", VObject (ORecord
         [ (str "id", VNumber 7);
           (str "password", VString (str "hunter2"));
           (str "since", VObject (ODate (Some (str "2024-01-01T00:00:00.000Z")))) ]));
      (str "lastError", VObject (OError (str "TypeError") (str "x is undefined") None));
      (str "loop", VRef 0);
      (str "onChange", VFunction 0 [str "length"; str "name"]);
      (str "items", VObject (OArray [VNumber 1; VNull; VBool true])) ]).

(** [s.indexOf(w, from)], counted from [k] on the rest [s] of the string. *)
Fixpoint index_from (w s : jsstring) (k : nat) : option nat :=
  if bool_decide (take (length w) s = w) then Some k
  else match s with
       | [] => None
       | _ :: s' => index_from w s' (S k)
       end.

(** The pattern that looks for the text [w], with or without the flag
    [g]. *)
Definition literal (w : string) (g : bool) : RegExp :=
  {| exec := λ i s, (λ k, k + length (str w)) <$> index_from (str w) (drop i s) i;
     advances := g;
     lastIndex := 0 |}.

(** No custom pattern at all, and [/secret/g] or [/name/] as the only
    one. *)
Definition no_patterns : regexps := λ _, literal "" false.

Definition secret_g : regexps := λ _, literal "secret" true.

Definition name_pattern : regexps := λ _, literal "name" false.

Definition custom_sanitizer : DataSanitizer :=
  {| autoRedact := false; customPatterns := [0]; redactedValue := str "[REDACTED]" |}.

Definition three_secrets : jsval :=
  VObject (ORecord
    [ (str "secret", VNumber 1); (str "secretX", VNumber 5); (str "secretY", VNumber 2) ]).

(** What [JSON.parse] makes of a text with the key [__proto__]: an own
    property of that name. *)
Definition own_proto : jsval :=
  VObject (ORecord [ (PROTO, VObject (ORecord [(str "a", VNumber 1)])) ]).

End Sanitizer.


(** ** Fingerprints (src/core/fingerprint.ts) *)

Module Fingerprint.

(** *** Regular expressions

    The regular expressions of the source are written as syntax trees and
    run by a backtracking matcher: [matches r st] lists, in the order in
    which backtracking tries them, the states in which a match of [r] begun
    in state [st] can end. The first element is the match the engine
    reports. *)

Record mstate := mkState {
  prev : option ascii;            (* the character before the position *)
  rest : jsstring;                (* the input from the position on *)
  pos : nat;                      (* characters consumed since the match began *)
  caps : list (nat * jsstring)    (* capture groups closed so far *)
}.

Inductive regex :=
| Eps
| Chr (P : ascii → bool)             (* a character class *)
| Cat (a b : regex)
| Alt (a b : regex)
| Star (greedy : bool) (a : regex)   (* [a*] and [a*?] *)
| Cap (i : nat) (a : regex)          (* the [i]-th capture group *)
| Bol                                (* [^] *)
| Eol                                (* [$] *)
| WordB.                             (* [\b] *)

Definition is_word_opt (c : option ascii) : bool :=
  match c with
  | Some c => is_word c
  | None => false
  end.

Definition step (P : ascii → bool) (st : mstate) : list mstate :=
  match rest st with
  | c :: r =>
      if P c
      then [{| prev := Some c; rest := r; pos := S (pos st); caps := caps st |}]
      else []
  | [] => []
  end.

(** Iteration of [body]; an iteration that consumes nothing is not repeated,
    so [S (length (rest st))] rounds are enough. *)
Fixpoint star (body : mstate → list mstate) (greedy : bool) (fuel : nat)
    (st : mstate) : list mstate :=
  match fuel with
  | 0 => [st]
  | S fuel' =>
      let more :=
        flat_map
          (λ st', if decide (length (rest st') < length (rest st))
                  then star body greedy fuel' st' else [])
          (body st) in
      if greedy then more ++ [st] else st :: more
  end.

Fixpoint matches (r : regex) (st : mstate) : list mstate :=
  match r with
  | Eps => [st]
  | Chr P => step P st
  | Cat a b => flat_map (matches b) (matches a st)
  | Alt a b => matches a st ++ matches b st
  | Star greedy a => star (matches a) greedy (S (length (rest st))) st
  | Cap i a =>
      map (λ st', {| prev := prev st'; rest := rest st'; pos := pos st';
                     caps := (i, take (pos st' - pos st) (rest st)) :: caps st' |})
          (matches a st)
  | Bol => match prev st with None => [st] | Some _ => [] end
  | Eol => match rest st with [] => [st] | _ :: _ => [] end
  | WordB =>
      if xorb (is_word_opt (prev st)) (is_word_opt (head (rest st)))
      then [st] else []
  end.

(** The match that begins exactly at the start of [s], the character before
    it being [before]. *)
Definition match_here (r : regex) (before : option ascii) (s : jsstring)
    : option mstate :=
  head (matches r {| prev := before; rest := s; pos := 0; caps := [] |}).

Definition match_length (r : regex) (before : option ascii) (s : jsstring)
    : option nat :=
  pos <$> match_here r before s.

(** The leftmost match: how many characters come before it, and its final
    state. *)
Fixpoint search (r : regex) (before : option ascii) (s : jsstring) (skipped : nat)
    : option (nat * mstate) :=
  match match_here r before s with
  | Some st => Some (skipped, st)
  | None =>
      match s with
      | c :: s' => search r (Some c) s' (S skipped)
      | [] => None
      end
  end.

Definition group (i : nat) (st : mstate) : jsstring :=
  match find (λ c, bool_decide (c.1 = i)) (caps st) with
  | Some c => c.2
  | None => []
  end.

(** [s.replace(r, ...)] for [r] without the [g] flag. *)
Definition replace_first (r : regex) (replacement : mstate → jsstring)
    (s : jsstring) : jsstring :=
  match search r None s 0 with
  | Some (skipped, st) => take skipped s ++ replacement st ++ rest st
  | None => s
  end.

(** [s.replace(r, replacement)] for [r] with the [g] flag; every pattern of
    the source matches at least one character. [skip] characters of an
    earlier match are still to be passed over. *)
Fixpoint replace_from (r : regex) (replacement : jsstring)
    (before : option ascii) (skip : nat) (s : jsstring) : jsstring :=
  match s with
  | [] => []
  | c :: s' =>
      match skip with
      | S k => replace_from r replacement (Some c) k s'
      | 0 =>
          match match_length r before s with
          | Some (S k) => replacement ++ replace_from r replacement (Some c) k s'
          | _ => c :: replace_from r replacement (Some c) 0 s'
          end
      end
  end.

Definition replace_all (r : regex) (replacement : jsstring) (s : jsstring) : jsstring :=
  replace_from r replacement None 0 s.

(** Building blocks. *)
Definition chr (c : string) : regex :=
  Chr (λ x, bool_decide (x ∈ str c)).

Fixpoint seq (rs : list regex) : regex :=
  match rs with
  | [] => Eps
  | [r] => r
  | r :: rs' => Cat r (seq rs')
  end.

Definition lit (w : string) : regex :=
  seq (map (λ c, Chr (λ x, bool_decide (x = c))) (str w)).

Fixpoint times (n : nat) (a : regex) : regex :=
  match n with
  | 0 => Eps
  | S n' => Cat a (times n' a)
  end.

Definition plus (greedy : bool) (a : regex) : regex := Cat a (Star greedy a).
Definition opt (a : regex) : regex := Alt a Eps.

Fixpoint alts (rs : list regex) : regex :=
  match rs with
  | [] => Chr (λ _, false)
  | [r] => r
  | r :: rs' => Alt r (alts rs')
  end.

(** [.]: any character but a line terminator *)
Definition any : regex :=
  Chr (λ c, negb ((code c =? 10)%Z || (code c =? 13)%Z)).

(** *** [normalizeMessage] *)

(** [/[0-9a-f]{8}-[0-9a-f]{4}-[0-9a-f]{4}-[0-9a-f]{4}-[0-9a-f]{12}/gi] *)
Definition UUID_RE : regex :=
  seq [ times 8 (Chr is_hex); chr "-"; times 4 (Chr is_hex); chr "-";
        times 4 (Chr is_hex); chr "-"; times 4 (Chr is_hex); chr "-";
        times 12 (Chr is_hex) ].

(** [/\b\d+\b/g] *)
Definition NUM_RE : regex :=
  seq [ WordB; plus true (Chr is_digit); WordB ].

(** [https?://] followed by one or more characters other than white space
    and the two quote characters (codes 34 and 39), with the [g] flag *)
Definition URL_RE : regex :=
  seq [ lit "http"; opt (chr "s"); lit "://";
        plus true (Chr (λ c, negb (is_space c || (code c =? 34)%Z || (code c =? 39)%Z))) ].

(** [/\/[\w\-./@]+\.(js|ts|jsx|tsx|mjs|cjs)/g] *)
Definition FILE_RE : regex :=
  seq [ chr "/";
        plus true (Chr (λ c, is_word c || bool_decide (c ∈ str "-./@")));
        chr ".";
        alts [ lit "js"; lit "ts"; lit "jsx"; lit "tsx"; lit "mjs"; lit "cjs" ] ].

(** [/\d{4}-\d{2}-\d{2}T\d{2}:\d{2}:\d{2}/g] *)
Definition TIMESTAMP_RE : regex :=
  seq [ times 4 (Chr is_digit); chr "-"; times 2 (Chr is_digit); chr "-";
        times 2 (Chr is_digit); chr "T"; times 2 (Chr is_digit); chr ":";
        times 2 (Chr is_digit); chr ":"; times 2 (Chr is_digit) ].

(** [/0x[0-9a-f]+/gi] *)
Definition ADDR_RE : regex :=
  seq [ chr "0"; chr "xX"; plus true (Chr is_hex) ].

(** [/\s+/g] *)
Definition SPACES_RE : regex := plus true (Chr is_space).

(** [String.prototype.trim] *)
Fixpoint trim_start (s : jsstring) : jsstring :=
  match s with
  | c :: s' => if is_space c then trim_start s' else s
  | [] => []
  end.

Definition trim (s : jsstring) : jsstring :=
  rev (trim_start (rev (trim_start s))).

Definition normalizeMessage (message : jsstring) : jsstring :=
  trim
    (replace_all SPACES_RE (str " ")
    (replace_all ADDR_RE (str "<ADDR>")
    (replace_all TIMESTAMP_RE (str "<TIMESTAMP>")
    (replace_all FILE_RE (str "<FILE>")
    (replace_all URL_RE (str "<URL>")
    (replace_all NUM_RE (str "<NUM>")
    (replace_all UUID_RE (str "<UUID>") message))))))).

(** *** [extractFirstMeaningfulFrame] *)

(** [s.includes(sub)] *)
Fixpoint includes (sub s : jsstring) : bool :=
  bool_decide (take (length sub) s = sub)
  || match s with
     | [] => false
     | _ :: s' => includes sub s'
     end.

(** [stack.split('\n')] *)
Fixpoint split_lines (line : jsstring) (s : jsstring) : list jsstring :=
  match s with
  | [] => [rev line]
  | c :: s' =>
      if (code c =? 10)%Z then rev line :: split_lines [] s'
      else split_lines (c :: line) s'
  end.

(** [/at\s+(?:.*?\s+)?\(?(.+?):(\d+):(\d+)\)?$/] *)
Definition FRAME_RE : regex :=
  seq [ lit "at"; plus true (Chr is_space);
        opt (Cat (Star false any) (plus true (Chr is_space)));
        opt (chr "(");
        Cap 1 (plus false any); chr ":";
        Cap 2 (plus true (Chr is_digit)); chr ":";
        Cap 3 (plus true (Chr is_digit));
        opt (chr ")"); Eol ].

(** [/^.*\/(src|app|pages|components)\//] and [/^.*\//] *)
Definition SOURCE_DIR_RE : regex :=
  seq [ Bol; Star true any; chr "/";
        Cap 1 (alts [ lit "src"; lit "app"; lit "pages"; lit "components" ]);
        chr "/" ].

Definition DIR_RE : regex :=
  seq [ Bol; Star true any; chr "/" ].

Fixpoint first_frame (lines : list jsstring) : option jsstring :=
  match lines with
  | [] => None
  | line :: lines' =>
      if negb (includes (str "at ") line) then first_frame lines'
      else if includes (str "node_modules") line
              || includes (str "<anonymous>") line
              || includes (str "webpack") line
              || includes (str "turbopack") line
      then first_frame lines'
      else
        match search FRAME_RE None line 0 with
        | Some (_, st) =>
            let normalizedFile :=
              replace_first DIR_RE (λ _, [])
                (replace_first SOURCE_DIR_RE (λ m, group 1 m ++ str "/")
                   (group 1 st)) in
            Some (normalizedFile ++ str ":" ++ group 2 st ++ str ":" ++ group 3 st)
        | None => first_frame lines'
        end
  end.

Definition extractFirstMeaningfulFrame (stack : jsstring) : option jsstring :=
  first_frame (split_lines [] stack).

(** *** [hashString] *)

(** [ToInt32] *)
Definition toInt32 (z : Z) : Z := (z + 2 ^ 31) mod 2 ^ 32 - 2 ^ 31.

Definition hex_digit (d : Z) : ascii :=
  ascii_of_N (Z.to_N (if (d <? 10)%Z then 48 + d else 87 + d)).

(** [n.toString(16).padStart(8, '0')] for [0 <= n < 2^32] *)
Definition hex8 (n : Z) : jsstring :=
  map (λ i, hex_digit ((n / 16 ^ i) mod 16)) [7; 6; 5; 4; 3; 2; 1; 0]%Z.

(** djb2 with xor; [hash * 33] is exact in a double since [hash] is an
    int32, and [^] brings the product back to an int32. *)
Definition hashString (s : jsstring) : jsstring :=
  let hash := fold_left (λ hash c, Z.lxor (toInt32 (hash * 33)) (code c)) s 5381%Z in
  hex8 (hash mod 2 ^ 32).

(** *** [generateFingerprint] *)

Record JsError := mkError {
  name : jsstring;
  message : jsstring;
  stack : option jsstring
}.

Record FingerprintConfig := mkFingerprintConfig {
  useMessage : option bool;
  useType : option bool;
  useStackFrame : option bool;
  customFingerprint : option (JsError → ErrorEvent → jsstring)
}.

(** [config?.flag !== false] *)
Definition enabled (config : option FingerprintConfig)
    (flag : FingerprintConfig → option bool) : bool :=
  match config ≫= flag with
  | Some false => false
  | _ => true
  end.

(** [parts.join('|')] *)
Fixpoint join (sep : jsstring) (parts : list jsstring) : jsstring :=
  match parts with
  | [] => []
  | [p] => p
  | p :: parts' => p ++ sep ++ join sep parts'
  end.

Definition fingerprint_parts (error : JsError) (config : option FingerprintConfig)
    : list jsstring :=
  (if enabled config useType
   then [match name error with [] => str "Error" | n => n end] else [])
  ++ (if enabled config useMessage then [normalizeMessage (message error)] else [])
  ++ (if enabled config useStackFrame
      then match stack error with
           | Some (c :: st) =>
               match extractFirstMeaningfulFrame (c :: st) with
               | Some (f :: frame) => [f :: frame]
               | _ => []
               end
           | _ => []
           end
      else []).

Definition generateFingerprint (error : JsError) (event : ErrorEvent)
    (config : option FingerprintConfig) : jsstring :=
  match config ≫= customFingerprint with
  | Some custom => custom error event
  | None => hashString (join (str "|") (fingerprint_parts error config))
  end.

(** *** Notions used to state and prove the properties of the matcher *)



(** The length of the longest prefix of [s] within the class [P]. *)
Fixpoint run (P : ascii → bool) (s : jsstring) : nat :=
  match s with
  | c :: s' => if P c then S (run P s') else 0
  | [] => 0
  end.














(** A line of a stack that [extractFirstMeaningfulFrame] passes over
    without trying to read a frame from it, and a stack made of such lines
    only. *)
Definition passed_over (line : jsstring) : bool :=
  negb (includes (str "at ") line)
  || includes (str "node_modules") line
  || includes (str "<anonymous>") line
  || includes (str "webpack") line
  || includes (str "turbopack") line.

Definition no_own_frame (stack : option jsstring) : bool :=
  match stack with
  | Some st => forallb passed_over (split_lines [] st)
  | None => true
  end.

(** An error thrown inside a library: a stack of two lines, the second one
    a frame under [node_modules]. *)
Definition library_stack : jsstring :=
  str "TypeError: x is undefined" ++ [ascii_of_N 10]
  ++ str "    at render (/app/node_modules/react-dom/index.js:10:5)".

(** djb2 with xor on unsigned 32-bit numbers, and the number that a string
    of hexadecimal digits spells. *)
Definition djb2 (s : jsstring) : Z :=
  fold_left (λ hash c, Z.lxor ((hash * 33) mod 2 ^ 32) (code c)) s 5381%Z.

Definition is_lower_hex (c : ascii) : bool := is_digit c || in_range 97 102 c.

Definition hex_value (s : jsstring) : Z :=
  fold_left (λ n c, (16 * n + (if is_digit c then code c - 48 else code c - 87))%Z) s 0%Z.

End Fingerprint.


(** ** The breadcrumb buffer (src/core/breadcrumbs.ts) *)

Module Breadcrumbs.

Inductive BreadcrumbType := navigation | click | api | state | console | manual.
Inductive BreadcrumbLevel := debug | info | warning | error.

(** A breadcrumb without its optional [data]. *)
Record Breadcrumb := mkBreadcrumb {
  timestamp : Z;
  type : BreadcrumbType;
  category : jsstring;
  message : jsstring;
  level : BreadcrumbLevel
}.

Record BreadcrumbManager := mkManager {
  breadcrumbs : list Breadcrumb;
  maxBreadcrumbs : nat;
  retentionMs : Z;
  pruneIntervalId : option nat
}.

(** The constructor; [interval] is the handle [setInterval] returns. *)
Definition new (maxBreadcrumbs : nat) (retentionMs : Z) (interval : nat)
    : BreadcrumbManager :=
  {| breadcrumbs := []; maxBreadcrumbs := maxBreadcrumbs;
     retentionMs := retentionMs; pruneIntervalId := Some interval |}.

Definition set_breadcrumbs (l : list Breadcrumb) (m : BreadcrumbManager)
    : BreadcrumbManager :=
  {| breadcrumbs := l; maxBreadcrumbs := maxBreadcrumbs m;
     retentionMs := retentionMs m; pruneIntervalId := pruneIntervalId m |}.

(** [pruneOldBreadcrumbs] at the time [now] that [Date.now()] returns. *)
Definition pruneOldBreadcrumbs (now : Z) (m : BreadcrumbManager) : BreadcrumbManager :=
  set_breadcrumbs
    (filter (λ breadcrumb, (now - timestamp breadcrumb < retentionMs m)%Z)
            (breadcrumbs m))
    m.

(** [add]: push, prune by age, then drop the oldest entry if still over the
    bound. *)
Definition add (now : Z) (breadcrumb : Breadcrumb) (m : BreadcrumbManager)
    : BreadcrumbManager :=
  let pruned := pruneOldBreadcrumbs now
                  (set_breadcrumbs (breadcrumbs m ++ [breadcrumb]) m) in
  if decide (maxBreadcrumbs pruned < length (breadcrumbs pruned))
  then set_breadcrumbs (Queue.shift (breadcrumbs pruned)) pruned
  else pruned.

Definition getAll (m : BreadcrumbManager) : list Breadcrumb := breadcrumbs m.

Definition clear (m : BreadcrumbManager) : BreadcrumbManager := set_breadcrumbs [] m.

Definition count (m : BreadcrumbManager) : nat := length (breadcrumbs m).

Definition destroy (m : BreadcrumbManager) : BreadcrumbManager :=
  {| breadcrumbs := breadcrumbs m; maxBreadcrumbs := maxBreadcrumbs m;
     retentionMs := retentionMs m; pruneIntervalId := None |}.

(** What can happen to a buffer: a breadcrumb is added, the periodic sweep
    runs, the buffer is cleared. *)
Inductive call :=
| Add (now : Z) (breadcrumb : Breadcrumb)
| Sweep (now : Z)
| Clear.

Definition run_call (m : BreadcrumbManager) (c : call) : BreadcrumbManager :=
  match c with
  | Add now breadcrumb => add now breadcrumb m
  | Sweep now => pruneOldBreadcrumbs now m
  | Clear => clear m
  end.

Definition run (calls : list call) (m : BreadcrumbManager) : BreadcrumbManager :=
  fold_left run_call calls m.

Definition sample_crumb (at_ : Z) (text : string) : Breadcrumb :=
  {| timestamp := at_; type := manual; category := str "test";
     message := str text; level := info |}.

End Breadcrumbs.

(** ** The capture path of the tracker (src/core/tracker.ts) *)

Module Capture.
Import Tracker.

(** The two fields of the merged configuration that decide whether an error
    is kept. A pattern of [ignoreErrors] is known by what its [test] answers
    on a message, [None] when the call throws. *)
Record Selection := mkSelection {
  sampleRate : Q;
  ignoreErrors : option (list (jsstring → option bool))
}.

(** ['debug' | 'info' | 'warning' | 'error' | 'fatal'] *)
Inductive SeverityLevel :=
  LevelDebug | LevelInfo | LevelWarning | LevelError | LevelFatal.

(** [shouldSample]; [random] is what [Math.random()] returns when asked. *)
Definition shouldSample (c : Selection) (random : Q) : bool :=
  if Qle_bool 1 (sampleRate c) then true
  else if Qle_bool (sampleRate c) 0 then false
  else negb (Qle_bool (sampleRate c) random).

(** [shouldIgnoreError]: a pattern whose [test] throws counts as no match. *)
Definition shouldIgnoreError (c : Selection) (message : jsstring) : bool :=
  match ignoreErrors c with
  | None | Some [] => false
  | Some patterns =>
      existsb (λ pattern, match pattern message with
                          | Some matched => matched
                          | None => false
                          end) patterns
  end.

(** [debouncedSend]: the pending timer, if any, is cleared and a new one is
    started. *)
Definition debouncedSend (t : ErrorTracker) : ErrorTracker :=
  let live := match sendDebounceTimer t with
              | Some h => liveTimers t ∖ {[h]}
              | None => liveTimers t
              end in
  {| config := config t; queue := queue t; transport := transport t;
     isInitialized := isInitialized t;
     flushIntervalId := flushIntervalId t;
     sendDebounceTimer := Some (nextHandle t);
     cleanupWindowHandlers := cleanupWindowHandlers t;
     liveTimers := {[nextHandle t]} ∪ live;
     breadcrumbSweep := breadcrumbSweep t;
     windowListeners := windowListeners t;
     consoleIntercepted := consoleIntercepted t;
     nextHandle := S (nextHandle t);
     warnings := warnings t;
     shutdownsAwaiting := shutdownsAwaiting t |}.

(** [captureError]: [eventId] is what [generateUUID()] returns and [now] what
    [Date.now()] returns in [buildErrorEvent]; the result is the returned id
    and the tracker afterwards. *)
Definition captureError (c : Selection) (eventId : jsstring) (now : Z) (random : Q)
    (error : Fingerprint.JsError) (t : ErrorTracker) : jsstring * ErrorTracker :=
  if negb (isInitialized t) || negb (enabled (config t)) then ([], t)
  else if shouldIgnoreError c (Fingerprint.message error) then ([], t)
  else if negb (shouldSample c random) then ([], t)
  else
    let event := {| event_id := eventId; timestamp := now;
                    error_message := Fingerprint.message error;
                    error_type := Fingerprint.name error |} in
    let t1 := enqueue event t in
    (eventId, if sendOnErrorOnly (config t) then debouncedSend t1 else t1).

(** [captureException]: anything that is not an [Error] is wrapped in
    [new Error(String(exception))], given here by that string. *)
Definition captureException (c : Selection) (eventId : jsstring) (now : Z)
    (random : Q) (exception : Fingerprint.JsError + jsstring) (t : ErrorTracker)
    : jsstring * ErrorTracker :=
  if negb (isInitialized t) || negb (enabled (config t)) then ([], t)
  else
    let error := match exception with
                 | inl e => e
                 | inr text =>
                     {| Fingerprint.name := str "Error"; Fingerprint.message := text;
                        Fingerprint.stack := None |}
                 end in
    captureError c eventId now random error t.

(** [captureMessage] *)
Definition captureMessage (c : Selection) (eventId : jsstring) (now : Z)
    (random : Q) (message : jsstring) (level : SeverityLevel) (t : ErrorTracker)
    : jsstring * ErrorTracker :=
  if negb (isInitialized t) || negb (enabled (config t)) then ([], t)
  else if shouldIgnoreError c message then ([], t)
  else if negb (shouldSample c random) then ([], t)
  else
    let event := {| event_id := eventId; timestamp := now;
                    error_message := message; error_type := str "Error" |} in
    let t1 := enqueue event t in
    (eventId,
     if sendOnErrorOnly (config t)
        && match level with LevelError | LevelFatal => true | _ => false end
     then debouncedSend t1 else t1).

(** The capture calls made on a tracker, with what the environment returned
    to each. *)
Inductive call :=
| CaptureError (eventId : jsstring) (now : Z) (random : Q) (error : Fingerprint.JsError)
| CaptureException (eventId : jsstring) (now : Z) (random : Q)
    (exception : Fingerprint.JsError + jsstring)
| CaptureMessage (eventId : jsstring) (now : Z) (random : Q) (message : jsstring)
    (level : SeverityLevel).

(** One call: the id it returns and the tracker afterwards. *)
Definition perform (c : Selection) (t : ErrorTracker) (k : call)
    : jsstring * ErrorTracker :=
  match k with
  | CaptureError eventId now random error =>
      captureError c eventId now random error t
  | CaptureException eventId now random exception =>
      captureException c eventId now random exception t
  | CaptureMessage eventId now random message level =>
      captureMessage c eventId now random message level t
  end.

Definition run_call (c : Selection) (t : ErrorTracker) (k : call) : ErrorTracker :=
  (perform c t k).2.

Definition run (c : Selection) (calls : list call) (t : ErrorTracker) : ErrorTracker :=
  fold_left (run_call c) calls t.

(** The event a capture call builds. *)
Definition event_of (k : call) : ErrorEvent :=
  match k with
  | CaptureError eventId now _ error =>
      {| event_id := eventId; timestamp := now;
         error_message := Fingerprint.message error;
         error_type := Fingerprint.name error |}
  | CaptureException eventId now _ (inl error) =>
      {| event_id := eventId; timestamp := now;
         error_message := Fingerprint.message error;
         error_type := Fingerprint.name error |}
  | CaptureException eventId now _ (inr text) =>
      {| event_id := eventId; timestamp := now;
         error_message := text; error_type := str "Error" |}
  | CaptureMessage eventId now _ message _ =>
      {| event_id := eventId; timestamp := now;
         error_message := message; error_type := str "Error" |}
  end.

(** The timers a tracker still holds a handle of. *)
Definition handle (h : option nat) : gset nat :=
  match h with Some h => {[h]} | None => ∅ end.

Definition heldTimers (t : ErrorTracker) : gset nat :=
  handle (flushIntervalId t) ∪ handle (sendDebounceTimer t) ∪ handle (breadcrumbSweep t).

(** What the timers of a tracker satisfy between [init] and [shutdown]: the
    live ones are those it holds a handle of, every handle handed out is
    below the next one, and the debounce timer is no other timer. *)
Definition timers_held (t : ErrorTracker) : Prop :=
  liveTimers t = heldTimers t
  ∧ (∀ h, flushIntervalId t = Some h → h < nextHandle t)
  ∧ (∀ h, breadcrumbSweep t = Some h → h < nextHandle t)
  ∧ (∀ h, sendDebounceTimer t = Some h →
          flushIntervalId t ≠ Some h ∧ breadcrumbSweep t ≠ Some h).

Definition sample_selection : Selection :=
  {| sampleRate := 1; ignoreErrors := None |}.

Definition sample_error (text : string) : Fingerprint.JsError :=
  {| Fingerprint.name := str "TypeError"; Fingerprint.message := str text;
     Fingerprint.stack := None |}.

End Capture.

(** ** The storage wrapper (src/utils/storage.ts) *)

Module Storage.

(** The wrapper with the [localStorage] of the page it runs in. *)
Record SafeStorage := mkStorage {
  isAvailable : bool;
  memoryStore : gmap jsstring jsstring;
  localStorage : gmap jsstring jsstring
}.

Definition testKey : jsstring := str "__sentinel_test__".

(** [String.prototype.startsWith] *)
Definition startsWith (s prefix : jsstring) : bool := bool_decide (prefix `prefix_of` s).

(** The constructor, over the page's [localStorage]. In every operation
    [throws] tells whether the call it makes on [localStorage] throws. *)
Definition new (throws : bool) (local : gmap jsstring jsstring) : SafeStorage :=
  {| isAvailable := negb throws;
     memoryStore := ∅;
     localStorage := if throws then local else delete testKey local |}.

(** [getItem]; [None] is [null]. An empty string in the memory store reads
    as [null] ([|| null]). *)
Definition getItem (throws : bool) (key : jsstring) (s : SafeStorage) : option jsstring :=
  if isAvailable s && negb throws then localStorage s !! key
  else match memoryStore s !! key with
       | Some (c :: value) => Some (c :: value)
       | _ => None
       end.

Definition setItem (throws : bool) (key value : jsstring) (s : SafeStorage) : SafeStorage :=
  if isAvailable s && negb throws then
    {| isAvailable := isAvailable s; memoryStore := memoryStore s;
       localStorage := <[key := value]> (localStorage s) |}
  else
    {| isAvailable := isAvailable s; memoryStore := <[key := value]> (memoryStore s);
       localStorage := localStorage s |}.

Definition removeItem (throws : bool) (key : jsstring) (s : SafeStorage) : SafeStorage :=
  if isAvailable s && negb throws then
    {| isAvailable := isAvailable s; memoryStore := memoryStore s;
       localStorage := delete key (localStorage s) |}
  else
    {| isAvailable := isAvailable s; memoryStore := delete key (memoryStore s);
       localStorage := localStorage s |}.

(** [clear]: only the keys that start with [sentinel_] leave [localStorage]. *)
Definition clear (throws : bool) (s : SafeStorage) : SafeStorage :=
  if isAvailable s && negb throws then
    {| isAvailable := isAvailable s; memoryStore := memoryStore s;
       localStorage :=
         filter (λ kv, startsWith kv.1 (str "sentinel_") = false) (localStorage s) |}
  else
    {| isAvailable := isAvailable s; memoryStore := ∅;
       localStorage := localStorage s |}.

Definition sample_storage : SafeStorage :=
  setItem false (str "sentinel_session") (str "{}")
    (new false {[ str "theme" := str "dark" ]}).

End Storage.


(** ** Sessions (src/core/session.ts) *)

Module Session.

Definition SESSION_TIMEOUT_MS : Z := 30 * 60 * 1000.

(** [Omit<SessionData, 'isNew'>], the part of a session that is saved. *)
Record Persistent := mkPersistent {
  sessionId : jsstring;
  startedAt : Z;
  lastActiveAt : Z;
  pageViews : Z;
  errorCount : Z
}.

Record SessionData := mkSession {
  fields : Persistent;
  isNew : bool
}.

(** What [loadSession] finds under the session key: nothing, text that does
    not parse or does not pass the validation, or a session as [saveSession]
    writes it. *)
Inductive stored :=
| NoData
| Unusable
| Saved (session : Persistent).

(** The manager together with [persisted]: what it last read from the
    session key or handed to [storage] for it. Storage is taken to hand back
    what it was last given; [Storage] above tells when [SafeStorage] does.
    [savePending] tells whether the timeout of [saveDebounceId] has still to
    fire. *)
Record SessionManager := mkManager {
  session : option SessionData;
  activityThrottleMs : Z;
  lastActivityUpdate : Z;
  saveDebounceId : option nat;
  savePending : bool;
  persisted : stored
}.

Definition set_session (s : option SessionData) (m : SessionManager) : SessionManager :=
  {| session := s; activityThrottleMs := activityThrottleMs m;
     lastActivityUpdate := lastActivityUpdate m;
     saveDebounceId := saveDebounceId m; savePending := savePending m;
     persisted := persisted m |}.

Definition loadSession (m : SessionManager) : option Persistent :=
  match persisted m with
  | Saved parsed => Some parsed
  | _ => None
  end.

(** [saveSession]: the session without [isNew] is serialized and handed to
    [storage.setItem], which does not throw. *)
Definition saveSession (m : SessionManager) : SessionManager :=
  match session m with
  | None => m
  | Some s =>
      {| session := session m; activityThrottleMs := activityThrottleMs m;
         lastActivityUpdate := lastActivityUpdate m;
         saveDebounceId := saveDebounceId m; savePending := savePending m;
         persisted := Saved (fields s) |}
  end.

(** The session [initSession] decides on at time [now]; [uuid] is what
    [generateUUID()] returns when a session is started. *)
Definition resumed_or_started (uuid : jsstring) (now : Z) (m : SessionManager)
    : SessionData :=
  let started :=
    {| fields := {| sessionId := uuid; startedAt := now; lastActiveAt := now;
                    pageViews := 1; errorCount := 0 |};
       isNew := true |} in
  match loadSession m with
  | Some stored =>
      if decide (now - lastActiveAt stored < SESSION_TIMEOUT_MS)%Z then
        {| fields := {| sessionId := sessionId stored; startedAt := startedAt stored;
                        lastActiveAt := now; pageViews := pageViews stored;
                        errorCount := errorCount stored |};
           isNew := false |}
      else started
  | None => started
  end.

Definition initSession (uuid : jsstring) (now : Z) (m : SessionManager) : SessionManager :=
  saveSession (set_session (Some (resumed_or_started uuid now m)) m).

(** [new SessionManager()] over the current value of the session key. *)
Definition new (uuid : jsstring) (now : Z) (st : stored) : SessionManager :=
  initSession uuid now
    {| session := None; activityThrottleMs := 60000; lastActivityUpdate := 0;
       saveDebounceId := None; savePending := false; persisted := st |}.

Definition getSession (uuid : jsstring) (now : Z) (m : SessionManager)
    : SessionData * SessionManager :=
  match session m with
  | Some s => (s, m)
  | None => (resumed_or_started uuid now m, initSession uuid now m)
  end.

(** [debouncedSave]; [handle] is what [setTimeout] returns. *)
Definition debouncedSave (handle : nat) (m : SessionManager) : SessionManager :=
  {| session := session m; activityThrottleMs := activityThrottleMs m;
     lastActivityUpdate := lastActivityUpdate m;
     saveDebounceId := Some handle; savePending := true;
     persisted := persisted m |}.

Definition updateActivity (handle : nat) (now : Z) (m : SessionManager) : SessionManager :=
  match session m with
  | None => m
  | Some s =>
      let touched :=
        {| fields := {| sessionId := sessionId (fields s);
                        startedAt := startedAt (fields s);
                        lastActiveAt := now;
                        pageViews := pageViews (fields s);
                        errorCount := errorCount (fields s) |};
           isNew := isNew s |} in
      let m1 := set_session (Some touched) m in
      if decide (now - lastActivityUpdate m > activityThrottleMs m)%Z then
        saveSession
          {| session := session m1; activityThrottleMs := activityThrottleMs m1;
             lastActivityUpdate := now;
             saveDebounceId := saveDebounceId m1; savePending := savePending m1;
             persisted := persisted m1 |}
      else debouncedSave handle m1
  end.

Definition recordPageView (handle : nat) (now : Z) (m : SessionManager) : SessionManager :=
  match session m with
  | None => m
  | Some s =>
      updateActivity handle now
        (set_session
           (Some {| fields := {| sessionId := sessionId (fields s);
                                 startedAt := startedAt (fields s);
                                 lastActiveAt := lastActiveAt (fields s);
                                 pageViews := pageViews (fields s) + 1;
                                 errorCount := errorCount (fields s) |};
                    isNew := isNew s |}) m)
  end.

Definition recordError (handle : nat) (now : Z) (m : SessionManager) : SessionManager :=
  match session m with
  | None => m
  | Some s =>
      updateActivity handle now
        (set_session
           (Some {| fields := {| sessionId := sessionId (fields s);
                                 startedAt := startedAt (fields s);
                                 lastActiveAt := lastActiveAt (fields s);
                                 pageViews := pageViews (fields s);
                                 errorCount := errorCount (fields s) + 1 |};
                    isNew := isNew s |}) m)
  end.

Definition touch (handle : nat) (now : Z) (m : SessionManager) : SessionManager :=
  updateActivity handle now m.

Definition getDuration (now : Z) (m : SessionManager) : Z :=
  match session m with
  | None => 0
  | Some s => now - startedAt (fields s)
  end.

(** The timeout started by [debouncedSave] fires. *)
Definition saveTimerFires (m : SessionManager) : SessionManager :=
  if savePending m then
    saveSession
      {| session := session m; activityThrottleMs := activityThrottleMs m;
         lastActivityUpdate := lastActivityUpdate m;
         saveDebounceId := saveDebounceId m; savePending := false;
         persisted := persisted m |}
  else m.

(** [endSession]: save, forget the session, remove the key. *)
Definition endSession (m : SessionManager) : SessionManager :=
  let m1 := saveSession m in
  {| session := None; activityThrottleMs := activityThrottleMs m1;
     lastActivityUpdate := lastActivityUpdate m1;
     saveDebounceId := saveDebounceId m1; savePending := savePending m1;
     persisted := NoData |}.

(** [destroy]: the pending timeout is cleared, then the session is saved. *)
Definition destroy (m : SessionManager) : SessionManager :=
  saveSession
    {| session := session m; activityThrottleMs := activityThrottleMs m;
       lastActivityUpdate := lastActivityUpdate m;
       saveDebounceId := saveDebounceId m; savePending := false;
       persisted := persisted m |}.

(** What happens to a manager between its construction and its end. *)
Inductive call :=
| RecordPageView (handle : nat) (now : Z)
| RecordError (handle : nat) (now : Z)
| Touch (handle : nat) (now : Z)
| SaveTimerFires.

Definition run_call (m : SessionManager) (c : call) : SessionManager :=
  match c with
  | RecordPageView handle now => recordPageView handle now m
  | RecordError handle now => recordError handle now m
  | Touch handle now => touch handle now m
  | SaveTimerFires => saveTimerFires m
  end.

Definition run (calls : list call) (m : SessionManager) : SessionManager :=
  fold_left run_call calls m.

(** How many calls of a run satisfy a test. *)
Definition tally (test : call → bool) (calls : list call) : Z :=
  Z.of_nat (length (filter (λ c, test c = true) calls)).

Definition is_pageView (c : call) : bool :=
  match c with RecordPageView _ _ => true | _ => false end.

Definition is_error (c : call) : bool :=
  match c with RecordError _ _ => true | _ => false end.

(** What holds of a manager between its construction and its end: the key
    holds the current session, with counters that are not ahead of those in
    memory, and holds it exactly unless a save is pending. *)
Definition saved_or_pending (m : SessionManager) : Prop :=
  ∃ s p, session m = Some s
         ∧ persisted m = Saved p
         ∧ sessionId p = sessionId (fields s)
         ∧ startedAt p = startedAt (fields s)
         ∧ (pageViews p ≤ pageViews (fields s))%Z
         ∧ (errorCount p ≤ errorCount (fields s))%Z
         ∧ (savePending m = false → p = fields s).

End Session.

(** ** What the sanitizer hands back *)

Module Redaction.
Import Sanitizer.

(** The words that the built-in patterns look for, case ignored. *)
Definition SENSITIVE_WORDS : list jsstring :=
  [ str "password"; str "token"; str "secret"; str "auth"; str "bearer";
    str "apikey"; str "api_key"; str "api-key" ].

Definition mentions_sensitive_word (key : jsstring) : bool :=
  existsb (λ w, Fingerprint.includes w (map lower key)) SENSITIVE_WORDS.

(** Data as the sanitizer hands it back: no reference, no [Error], no
    [Date] and no own property named [__proto__] at any level, functions
    being left as they are; and, when [autoRedact] is on, every key that
    mentions a sensitive word holds the redacted value. *)
Inductive redacted (s : DataSanitizer) : jsval → Prop :=
| redacted_undefined : redacted s VUndefined
| redacted_null : redacted s VNull
| redacted_bool b : redacted s (VBool b)
| redacted_number n : redacted s (VNumber n)
| redacted_string text : redacted s (VString text)
| redacted_bigint n : redacted s (VBigInt n)
| redacted_symbol id : redacted s (VSymbol id)
| redacted_function id readonly : redacted s (VFunction id readonly)
| redacted_array items :
    redacted_items s items → redacted s (VObject (OArray items))
| redacted_record props :
    redacted_props s props → redacted s (VObject (ORecord props))
| redacted_inherits proto props :
    redacted s proto → redacted_props s props →
    redacted s (VObject (OInherits proto props))
with redacted_items (s : DataSanitizer) : list jsval → Prop :=
| redacted_no_item : redacted_items s []
| redacted_item v items :
    redacted s v → redacted_items s items → redacted_items s (v :: items)
with redacted_props (s : DataSanitizer) : list (jsstring * jsval) → Prop :=
| redacted_no_prop : redacted_props s []
| redacted_prop key v props :
    key ≠ PROTO →
    (autoRedact s = true → mentions_sensitive_word key = true →
     v = VString (redactedValue s)) →
    redacted s v → redacted_props s props →
    redacted_props s ((key, v) :: props).

(** What a walk can end with: the exceptions that get out of a level are
    the one of an invalid date and the exhaustion of the stack, the latter
    only when the stack, with room for [room] calls, is too short for the
    [rem] levels left above the depth cap. *)
Definition ends_well (s : DataSanitizer) (room rem : nat) (r : outcome jsval) : Prop :=
  match r with
  | Returns out => redacted s out
  | Throws StackExhausted => room ≤ rem
  | Throws InvalidTime => True
  | Throws NotWritable => False
  end.

End Redaction.

(** ** Configuration (src/core/config.ts) *)

Module Config.

Inductive Environment := development | production | staging.
Inductive AuthStrategy := bearer | apiKey | none.
Inductive PresetName :=
  preset_development | preset_production | preset_minimal | preset_full.

(** A key of an object literal: absent, or present with a value that may be
    [undefined] ([None]). *)
Inductive property (A : Type) :=
| Absent
| Present (value : option A).
Arguments Absent {A}.
Arguments Present {A} value.

(** [{ ...base, ...over }] on one key. *)
Definition spread {A} (base over : property A) : property A :=
  match over with
  | Absent => base
  | Present value => Present value
  end.

(** Reading a key: an absent key reads as [undefined]. *)
Definition read {A} (p : property A) : option A :=
  match p with
  | Absent => None
  | Present value => value
  end.

(** [SimpleConfig]; an optional field that was not given reads as
    [undefined]. *)
Record SimpleConfig := mkSimple {
  url : jsstring;
  token : option jsstring;
  simple_environment : option Environment;
  simple_debug : option bool;
  simple_enabled : option bool;
  simple_sampleRate : option Q;
  preset : option PresetName
}.

(** The scalar keys of a configuration object that [fromSimpleConfig] and
    the presets set; the nested objects ([breadcrumbs], [console],
    [sanitize]) and the other keys are merged key by key in the same way. *)
Record PartialErrorTrackerConfig := mkPartial {
  endpoint : property jsstring;
  authToken : property jsstring;
  authStrategy : property AuthStrategy;
  environment : property Environment;
  debug : property bool;
  enabled : property bool;
  sampleRate : property Q;
  captureState : property bool
}.

Definition empty_object : PartialErrorTrackerConfig :=
  {| endpoint := Absent; authToken := Absent; authStrategy := Absent;
     environment := Absent; debug := Absent; enabled := Absent;
     sampleRate := Absent; captureState := Absent |}.

(** [{ ...base, ...over }] *)
Definition spread_config (base over : PartialErrorTrackerConfig)
    : PartialErrorTrackerConfig :=
  {| endpoint := spread (endpoint base) (endpoint over);
     authToken := spread (authToken base) (authToken over);
     authStrategy := spread (authStrategy base) (authStrategy over);
     environment := spread (environment base) (environment over);
     debug := spread (debug base) (debug over);
     enabled := spread (enabled base) (enabled over);
     sampleRate := spread (sampleRate base) (sampleRate over);
     captureState := spread (captureState base) (captureState over) |}.

Definition presets (name : PresetName) : PartialErrorTrackerConfig :=
  match name with
  | preset_development =>
      {| endpoint := Absent; authToken := Absent; authStrategy := Absent;
         environment := Present (Some development); debug := Present (Some true);
         enabled := Absent; sampleRate := Present (Some 1%Q);
         captureState := Absent |}
  | preset_production =>
      {| endpoint := Absent; authToken := Absent; authStrategy := Absent;
         environment := Present (Some production); debug := Present (Some false);
         enabled := Absent; sampleRate := Present (Some 1%Q);
         captureState := Absent |}
  | preset_minimal =>
      {| endpoint := Absent; authToken := Absent; authStrategy := Absent;
         environment := Absent; debug := Absent;
         enabled := Absent; sampleRate := Absent;
         captureState := Present (Some false) |}
  | preset_full =>
      {| endpoint := Absent; authToken := Absent; authStrategy := Absent;
         environment := Absent; debug := Present (Some true);
         enabled := Absent; sampleRate := Present (Some 1%Q);
         captureState := Present (Some true) |}
  end.

Definition fromSimpleConfig (simple : SimpleConfig) : PartialErrorTrackerConfig :=
  let presetConfig :=
    match preset simple with
    | Some name => presets name
    | None => empty_object
    end in
  spread_config
    {| endpoint := Present (Some (url simple));
       authToken := Present (token simple);
       authStrategy := Present (Some match token simple with
                                     | Some (_ :: _) => apiKey
                                     | _ => none
                                     end);
       environment := Present (simple_environment simple);
       debug := Present (simple_debug simple);
       enabled := Present (simple_enabled simple);
       sampleRate := Present (simple_sampleRate simple);
       captureState := Absent |}
    presetConfig.

Definition defaultConfig : PartialErrorTrackerConfig :=
  {| endpoint := Present (Some []); authToken := Absent;
     authStrategy := Present (Some none);
     environment := Present (Some development); debug := Present (Some false);
     enabled := Present (Some true); sampleRate := Present (Some 1%Q);
     captureState := Present (Some true) |}.

(** [mergeConfig], on the scalar keys. *)
Definition mergeConfig (userConfig : PartialErrorTrackerConfig)
    : PartialErrorTrackerConfig :=
  spread_config defaultConfig userConfig.

(** [!config.enabled] is false. *)
Definition is_enabled (config : PartialErrorTrackerConfig) : bool :=
  match read (enabled config) with
  | Some true => true
  | _ => false
  end.

(** [shouldSample] of the tracker on a rate that may be [undefined]: every
    comparison with [undefined] is false. *)
Definition shouldSample (config : PartialErrorTrackerConfig) (random : Q) : bool :=
  match read (sampleRate config) with
  | Some rate =>
      Capture.shouldSample {| Capture.sampleRate := rate; Capture.ignoreErrors := None |}
        random
  | None => false
  end.

End Config.

(** ** Event ids (src/utils/helpers.ts, [generateUUID]) *)

Module Helpers.





End Helpers.

(** * Properties *)

(** ** Event queue *)

Section QueueFacts.
Import Queue.

Lemma persist_queue q : queue (persist q) = queue q.
Proof. reflexivity. Qed.

Lemma add_maxSize e q : maxSize (add e q) = maxSize q.
Proof. reflexivity. Qed.

Lemma add_all_maxSize es q : maxSize (add_all es q) = maxSize q.
Proof.
  revert q. induction es as [|e es IH]; intros q; [reflexivity|].
  cbn. unfold add_all in IH. now rewrite IH.
Qed.

(** One [add] on a queue within its bound: the oldest entry goes exactly
    when the bound would be passed. *)
Lemma add_within_bound e q :
  size q ≤ maxSize q →
  queue (add e q)
  = drop (length (queue q ++ [e]) - maxSize q) (queue q ++ [e])
  ∧ size (add e q) ≤ maxSize q.
Proof.
  unfold size, add. intros Hq. rewrite persist_queue. cbn [queue maxSize].
  rewrite length_app. cbn [length].
  case_decide as Hover.
  - cbn [length] in Hover.
    replace (length (queue q) + 1 - maxSize q) with 1 by lia.
    split; [reflexivity|].
    unfold shift. destruct (queue q) as [|x l]; cbn in *; [lia|].
    rewrite length_app. cbn. lia.
  - cbn [length] in Hover.
    replace (length (queue q) + 1 - maxSize q) with 0 by lia.
    split; [reflexivity|]. rewrite length_app. cbn. lia.
Qed.

Lemma add_all_within_bound es : ∀ q,
  size q ≤ maxSize q →
  queue (add_all es q)
  = drop (length (queue q ++ es) - maxSize q) (queue q ++ es)
  ∧ size (add_all es q) ≤ maxSize q.
Proof.
  induction es as [|e es IH]; intros q Hq.
  - cbn. rewrite app_nil_r. unfold size in *.
    replace (length (queue q) - maxSize q) with 0 by lia. now split.
  - destruct (add_within_bound e q Hq) as [Hadd Hsz].
    specialize (IH (add e q) Hsz). rewrite add_maxSize in IH.
    destruct IH as [IHq IHs]. change (add_all (e :: es) q) with (add_all es (add e q)).
    split; [|exact IHs].
    rewrite IHq. unfold size in Hsz, Hq. rewrite Hadd in Hsz |- *.
    rewrite length_drop in Hsz.
    set (k := length (queue q ++ [e]) - maxSize q) in *.
    assert (Hk : k ≤ length (queue q ++ [e])) by (unfold k; lia).
    rewrite <- (drop_app_le (queue q ++ [e]) es k Hk).
    rewrite drop_drop. rewrite <- app_assoc. cbn [app].
    f_equal. subst k. rewrite length_drop, !length_app in *. cbn [length] in *. lia.
Qed.

(** One [add] on a queue that is at or above its bound: the oldest entry
    goes and the size stays. *)
Lemma add_at_bound e q :
  maxSize q ≤ size q →
  queue (add e q) = drop 1 (queue q ++ [e]).
Proof.
  unfold size, add. intros Hq. rewrite persist_queue. cbn [queue maxSize].
  rewrite decide_True by (rewrite length_app; cbn; lia).
  unfold shift. now destruct (queue q ++ [e]).
Qed.

Lemma add_all_at_bound es : ∀ q,
  maxSize q ≤ size q →
  queue (add_all es q) = drop (length es) (queue q ++ es).
Proof.
  induction es as [|e es IH]; intros q Hq.
  - cbn. now rewrite app_nil_r.
  - change (add_all (e :: es) q) with (add_all es (add e q)).
    pose proof (add_at_bound e q Hq) as Hadd.
    rewrite IH.
    + rewrite Hadd. cbn [length].
      rewrite <- (drop_app_le (queue q ++ [e]) es 1)
        by (rewrite length_app; cbn; lia).
      rewrite drop_drop, <- app_assoc. reflexivity.
    + rewrite add_maxSize. unfold size in *. rewrite Hadd, length_drop, length_app.
      cbn. lia.
Qed.

Lemma keep_recent_all (now : Z) (events : list ErrorEvent) :
  Forall (λ e, (now - timestamp e < MAX_AGE_MS)%Z) events →
  keep_recent now (map Event events) = Some events.
Proof.
  induction 1 as [|e events He _ IH]; [reflexivity|].
  cbn [map keep_recent]. rewrite IH. now rewrite decide_True.
Qed.

(** C9, on the code. [restore] does not cut what it reads to [maxSize]: a
    queue constructed over more than [maxSize] recent stored events holds
    them all, and since [add] evicts one entry per call, every later [add]
    leaves the queue at that size, above its bound, with stored events still
    in it. *)
Theorem restore_keeps_oversized_queue (parsed events : list ErrorEvent)
    (now : Z) (M : nat) :
  Forall (λ e, (now - timestamp e < MAX_AGE_MS)%Z) parsed →
  M < length parsed →
  queue (new (Saved (map Event parsed)) now M) = parsed
  ∧ queue (add_all events (new (Saved (map Event parsed)) now M))
    = drop (length events) (parsed ++ events)
  ∧ size (add_all events (new (Saved (map Event parsed)) now M)) = length parsed.
Proof.
  intros Hrecent Hover.
  assert (Hnew : queue (new (Saved (map Event parsed)) now M) = parsed
                 ∧ maxSize (new (Saved (map Event parsed)) now M) = M).
  { unfold new, restore. cbn [persisted maxSize].
    rewrite (keep_recent_all now parsed Hrecent), length_map.
    now rewrite decide_False by (intros Hne; now apply Hne). }
  destruct Hnew as [Hq Hm]. split; [exact Hq|].
  assert (Hall : queue (add_all events (new (Saved (map Event parsed)) now M))
                 = drop (length events) (parsed ++ events)).
  { rewrite add_all_at_bound; [now rewrite Hq|]. unfold size. rewrite Hq, Hm. lia. }
  split; [exact Hall|]. unfold size. rewrite Hall, length_drop, length_app. lia.
Qed.

Lemma restore_keeps_oversized_queue_witness :
  queue (add_all [sample_event "d"; sample_event "e"] oversized_restore)
  = [sample_event "c"; sample_event "d"; sample_event "e"]
  ∧ size (add_all [sample_event "d"; sample_event "e"] oversized_restore) = 3
  ∧ maxSize oversized_restore = 1.
Proof.
  destruct (restore_keeps_oversized_queue
              [sample_event "a"; sample_event "b"; sample_event "c"]
              [sample_event "d"; sample_event "e"] 1000 1) as (_ & Hq & Hs).
  - repeat constructor.
  - cbn. lia.
  - split; [exact Hq|]. split; [exact Hs|reflexivity].
Defined.

Lemma remove_filter (eventIds : list jsstring) (q : ErrorQueue) :
  queue (remove eventIds q) = filter (λ e, event_id e ∉ eventIds) (queue q).
Proof.
  unfold remove. rewrite persist_queue. cbn [queue].
  apply list_filter_iff. intros e. now rewrite elem_of_list_to_set.
Qed.

(** C10. [remove] deletes exactly the entries whose [event_id] occurs in the
    list: what is left is the queue filtered by "id not in the list", so
    every other entry stays, as it was, in the same relative order. *)
Theorem remove_exact (eventIds : list jsstring) (q : ErrorQueue) :
  queue (remove eventIds q) = filter (λ e, event_id e ∉ eventIds) (queue q)
  ∧ (∀ e, e ∈ queue (remove eventIds q) ↔ e ∈ queue q ∧ event_id e ∉ eventIds)
  ∧ queue (remove eventIds q) `sublist_of` queue q
  ∧ maxSize (remove eventIds q) = maxSize q.
Proof.
  rewrite remove_filter. split; [reflexivity|]. split; [|split].
  - intros e. rewrite list_elem_of_filter. tauto.
  - apply sublist_filter.
  - reflexivity.
Qed.

End QueueFacts.

(** ** Deduplication *)

Section DedupFacts.
Import Dedup.

Lemma shouldCapture_first now fp m :
  seen m !! fp = None →
  shouldCapture now fp m
  = (true, set_seen m (<[fp := {| count := 1; firstSeen := now; lastSeen := now |}]> (seen m))).
Proof. intros H. unfold shouldCapture. now rewrite H. Qed.

Lemma shouldCapture_inside now fp m e :
  seen m !! fp = Some e →
  (now - firstSeen e ≤ windowMs m)%Z →
  shouldCapture now fp m
  = (bool_decide (count e + 1 ≤ maxCount m)%Z,
     set_seen m (<[fp := {| count := count e + 1; firstSeen := firstSeen e;
                            lastSeen := now |}]> (seen m))).
Proof.
  intros H Hin. unfold shouldCapture. rewrite H.
  case_decide; [lia|reflexivity].
Qed.

Lemma shouldCapture_outside now fp m e :
  seen m !! fp = Some e →
  (now - firstSeen e > windowMs m)%Z →
  shouldCapture now fp m
  = (true, set_seen m (<[fp := {| count := 1; firstSeen := now; lastSeen := now |}]> (seen m))).
Proof.
  intros H Hin. unfold shouldCapture. rewrite H.
  case_decide; [reflexivity|lia].
Qed.

Lemma seen_set_seen m s fp e : seen (set_seen m (<[fp := e]> s)) !! fp = Some e.
Proof. cbn. apply lookup_insert_eq. Qed.

(** C8. With [maxCount = 3] and a window of 5000 ms, four calls on one
    fingerprint not yet in the map, all within 5000 ms of the first, answer
    true, true, true, false; a further call once more than the window has
    passed since [firstSeen] answers true and leaves the counter at 1. *)
Theorem shouldCapture_window (m : DeduplicationManager) (fp : jsstring)
    (t0 t1 t2 t3 t4 : Z) :
  windowMs m = 5000%Z → maxCount m = 3%Z →
  seen m !! fp = None →
  (t1 - t0 ≤ 5000)%Z → (t2 - t0 ≤ 5000)%Z → (t3 - t0 ≤ 5000)%Z →
  (t4 - t0 > 5000)%Z →
  ∃ m', shouldCapture_at [t0; t1; t2; t3; t4] fp m
        = ([true; true; true; false; true], m')
        ∧ getStats fp m' = Some {| count := 1; firstSeen := t4; lastSeen := t4 |}.
Proof.
  intros Hw Hc Hfresh H1 H2 H3 H4.
  cbn [shouldCapture_at].
  rewrite (shouldCapture_first t0 fp m Hfresh).
  rewrite (shouldCapture_inside t1 fp _ _ (seen_set_seen _ _ _ _)) by (cbn; lia).
  rewrite (shouldCapture_inside t2 fp _ _ (seen_set_seen _ _ _ _)) by (cbn; lia).
  rewrite (shouldCapture_inside t3 fp _ _ (seen_set_seen _ _ _ _)) by (cbn; lia).
  rewrite (shouldCapture_outside t4 fp _ _ (seen_set_seen _ _ _ _)) by (cbn; lia).
  cbn [count firstSeen lastSeen maxCount set_seen]. rewrite Hc.
  eexists. split; [reflexivity|]. apply seen_set_seen.
Qed.

Lemma shouldCapture_window_witness :
  ∃ m', shouldCapture_at [0; 1000; 2000; 5000; 5001]%Z (str "deadbeef") (new 5000 3)
        = ([true; true; true; false; true], m')
        ∧ getStats (str "deadbeef") m'
          = Some {| count := 1; firstSeen := 5001; lastSeen := 5001 |}.
Proof.
  apply (shouldCapture_window (new 5000 3) (str "deadbeef") 0 1000 2000 5000 5001);
    cbn; try reflexivity; lia.
Defined.
End DedupFacts.

(** ** Transport *)

Section TransportFacts.
Import Transport.

Lemma isRetryableError_spec (status : Z) :
  isRetryableError status = true
  ↔ (500 ≤ status < 600 ∨ status = 429 ∨ status = 408)%Z.
Proof.
  unfold isRetryableError.
  destruct (500 <=? status)%Z eqn:H1, (status <? 600)%Z eqn:H2,
    (status =? 429)%Z eqn:H3, (status =? 408)%Z eqn:H4; cbn; split; intros H;
    try reflexivity; try discriminate; lia.
Qed.

(** The jitter keeps the uncapped delay between the exponential delay and
    its double. *)
Lemma jitter_bounds (E : Z) (r : Q) :
  (0 ≤ E)%Z → (0 <= r)%Q → (r < 1)%Q →
  (E ≤ Qfloor (inject_Z E + r * (3 # 10) * inject_Z E) ≤ 2 * E)%Z.
Proof.
  intros HE Hr0 Hr1.
  assert (HEq : (0 <= inject_Z E)%Q).
  { change 0%Q with (inject_Z 0). now rewrite <- Zle_Qle. }
  split.
  - rewrite <- (Qfloor_Z E) at 1. apply Qfloor_resp_le. nra.
  - rewrite <- (Qfloor_Z (2 * E)). apply Qfloor_resp_le.
    rewrite inject_Z_mult. change (inject_Z 2) with 2%Q. nra.
Qed.

Lemma calculateBackoffDelay_bounds (t : Transport) (attempt : nat) (r : Q) :
  (0 ≤ baseDelayMs t)%Z → (0 <= r)%Q → (r < 1)%Q →
  (Z.min (baseDelayMs t * 2 ^ Z.of_nat attempt) (maxDelayMs t)
   ≤ calculateBackoffDelay t attempt r
   ≤ Z.min (2 * (baseDelayMs t * 2 ^ Z.of_nat attempt)) (maxDelayMs t))%Z.
Proof.
  intros Hb Hr0 Hr1. unfold calculateBackoffDelay.
  assert (HE : (0 ≤ baseDelayMs t * 2 ^ Z.of_nat attempt)%Z).
  { apply Z.mul_nonneg_nonneg; [exact Hb|]. apply Z.pow_nonneg. lia. }
  pose proof (jitter_bounds _ r HE Hr0 Hr1). lia.
Qed.

Lemma calculateBackoffDelay_mono (t : Transport) (a b : nat) (ra rb : Q) :
  (0 ≤ baseDelayMs t)%Z → (0 <= ra)%Q → (ra < 1)%Q → (0 <= rb)%Q → (rb < 1)%Q →
  a < b →
  (calculateBackoffDelay t a ra ≤ calculateBackoffDelay t b rb)%Z.
Proof.
  intros Hb Ha0 Ha1 Hb0 Hb1 Hlt.
  pose proof (calculateBackoffDelay_bounds t a ra Hb Ha0 Ha1) as [_ Hup].
  pose proof (calculateBackoffDelay_bounds t b rb Hb Hb0 Hb1) as [Hlo _].
  assert (Hpow : (2 * 2 ^ Z.of_nat a ≤ 2 ^ Z.of_nat b)%Z).
  { rewrite <- Z.pow_succ_r by lia. apply Z.pow_le_mono_r; lia. }
  assert (2 * (baseDelayMs t * 2 ^ Z.of_nat a) ≤ baseDelayMs t * 2 ^ Z.of_nat b)%Z by nia.
  lia.
Qed.


Section Loop.
Variable t : Transport.
Variable events : list ErrorEvent.
Variable net : nat → fetched.
Variable random : nat → Q.

Abbreviation send_from := (send_from t events net random).

Lemma fetches_le_remaining remaining : ∀ attempt lastError lastStatus,
  fetches (send_from remaining attempt lastError lastStatus) ≤ remaining.
Proof.
  induction remaining as [|n IH]; intros attempt le ls; cbn; [lia|].
  destruct (net attempt) as [r|msg]; [destruct (ok r); [destruct (json r)|
    destruct (isRetryableError (status r))]|]; cbn;
    try specialize (IH (S attempt)); try (rewrite IH; lia); try lia.
  all: match goal with |- S (fetches (Transport.send_from _ _ _ _ ?n ?a ?l ?s)) ≤ _ =>
         specialize (IH l s); lia end.
Qed.

(** After a retried attempt the loop goes on to the next one, and sleeps
    first unless it was the last attempt of the budget. *)
Lemma send_from_retried remaining attempt lastError lastStatus :
  retried (net attempt) = true →
  ∃ delay lastError' lastStatus',
    send_from (S remaining) attempt lastError lastStatus
    = later (if decide (attempt < maxAttempts t - 1) then Some delay else None)
            (send_from remaining (S attempt) lastError' lastStatus')
    ∧ ∀ r, net attempt = Responded r → ok r = false →
           delay = retryDelay t attempt (random attempt) (retryAfter r).
Proof.
  intros Hret. cbn [Transport.send_from]. unfold retried in Hret.
  destruct (net attempt) as [r|msg].
  - destruct (ok r) eqn:Hok.
    + destruct (json r) as [m|ids]; [|discriminate].
      eexists _, _, _. split; [reflexivity|]. intros r' [= <-] Hok'. congruence.
    + rewrite Hret. cbn [negb].
      eexists _, _, _. split; [reflexivity|]. now intros r' [= <-] _.
  - eexists _, _, _. split; [reflexivity|]. intros r' [=].
Qed.

(** A run of [k] retried attempts that does not use up the budget: [k]
    calls of [fetch] and [k] sleeps, then the loop stands at attempt
    [attempt + k]. *)
Lemma send_from_skip k : ∀ remaining attempt lastError lastStatus,
  attempt + remaining = maxAttempts t →
  k < remaining →
  (∀ j, attempt ≤ j < attempt + k → retried (net j) = true) →
  ∃ lastError' lastStatus' slept,
    length slept = k
    ∧ response (send_from remaining attempt lastError lastStatus)
      = response (send_from (remaining - k) (attempt + k) lastError' lastStatus')
    ∧ fetches (send_from remaining attempt lastError lastStatus)
      = k + fetches (send_from (remaining - k) (attempt + k) lastError' lastStatus')
    ∧ sleeps (send_from remaining attempt lastError lastStatus)
      = slept ++ sleeps (send_from (remaining - k) (attempt + k) lastError' lastStatus').
Proof.
  induction k as [|k IH]; intros remaining attempt le ls Hsum Hk Hret.
  - exists le, ls, []. rewrite Nat.sub_0_r, Nat.add_0_r. now repeat split.
  - destruct remaining as [|remaining]; [lia|].
    destruct (send_from_retried remaining attempt le ls) as (d & le1 & ls1 & Hstep & _).
    { apply Hret. lia. }
    rewrite Hstep. rewrite decide_True by lia.
    destruct (IH remaining (S attempt) le1 ls1) as (le2 & ls2 & slept & Hlen & Hr & Hf & Hs).
    { lia. } { lia. } { intros j Hj. apply Hret. lia. }
    exists le2, ls2, (d :: slept).
    replace (S remaining - S k) with (remaining - k) by lia.
    replace (attempt + S k) with (S attempt + k) by lia.
    cbn [later response fetches sleeps length app]. rewrite Hr, Hf, Hs, Hlen.
    repeat split; lia.
Qed.


Lemma fetches_pos remaining attempt lastError lastStatus :
  1 ≤ fetches (send_from (S remaining) attempt lastError lastStatus).
Proof.
  cbn [Transport.send_from].
  destruct (net attempt) as [r|msg]; [destruct (ok r); [destruct (json r)|
    destruct (isRetryableError (status r))]|]; cbn; lia.
Qed.

Lemma send_unfold :
  endpoint t ≠ [] → events ≠ [] →
  send t events net random = send_from (maxAttempts t) 0 [] None.
Proof.
  unfold send. destruct (endpoint t); [congruence|].
  destruct events; [congruence|reflexivity].
Qed.

End Loop.

(** C6. Let attempt [k] be within the budget and every earlier attempt have
    been retried. If attempt [k] is answered with a status outside 2xx, that
    status counts as retryable exactly when it is 5xx, 429 or 408; when it is
    not, [send] returns the failure at once, having called [fetch] [k + 1]
    times; when it is, or when [fetch] itself was rejected, a further call of
    [fetch] follows as long as the budget allows. [send] never calls [fetch]
    more often than [maxAttempts]. *)
Theorem send_retry_partition (t : Transport) (events : list ErrorEvent)
    (net : nat → fetched) (random : nat → Q) (k : nat) :
  endpoint t ≠ [] → events ≠ [] →
  k < maxAttempts t →
  (∀ j, j < k → retried (net j) = true) →
  (∀ r, net k = Responded r → ok r = false →
     (isRetryableError (status r) = true
      ↔ (500 ≤ status r < 600 ∨ status r = 429 ∨ status r = 408)%Z)
     ∧ (isRetryableError (status r) = false →
        fetches (send t events net random) = S k
        ∧ response (send t events net random)
          = {| success := false; eventIds := None;
               error := Some (http_error (status r) (text r)) |})
     ∧ (isRetryableError (status r) = true → S k < maxAttempts t →
        S (S k) ≤ fetches (send t events net random)))
  ∧ (∀ message, net k = Rejected message → S k < maxAttempts t →
       S (S k) ≤ fetches (send t events net random))
  ∧ fetches (send t events net random) ≤ maxAttempts t.
Proof.
  intros Hend Hev Hk Hpre. rewrite (send_unfold t events net random Hend Hev).
  destruct (send_from_skip t events net random k (maxAttempts t) 0 [] None)
    as (le & ls & slept & Hlen & Hr & Hf & Hs); [lia|lia|intros j Hj; apply Hpre; lia|].
  cbn [Nat.add] in *. rewrite Hf, Hr. clear Hf Hr Hs.
  destruct (maxAttempts t - k) as [|m] eqn:Hm; [lia|].
  assert (Hgo : retried (net k) = true → S k < maxAttempts t →
                S (S k) ≤ k + fetches (Transport.send_from t events net random (S m) k le ls)).
  { intros Hret Hlt.
    destruct (send_from_retried t events net random m k le ls Hret)
      as (d & le1 & ls1 & -> & _).
    destruct m as [|m]; [lia|]. cbn [later fetches].
    pose proof (fetches_pos t events net random m (S k) le1 ls1). lia. }
  split; [|split].
  - intros r Hnet Hok. split; [apply isRetryableError_spec|]. split.
    + intros Hterm. cbn [Transport.send_from]. rewrite Hnet, Hok, Hterm. cbn.
      split; [lia|reflexivity].
    + intros Hretry. apply Hgo. unfold retried. now rewrite Hnet, Hok.
  - intros msg Hnet. apply Hgo. unfold retried. now rewrite Hnet.
  - pose proof (fetches_le_remaining t events net random (S m) k le ls). lia.
Qed.


Lemma send_retry_partition_witness :
  fetches (send sample_transport [Queue.sample_event "a"] net_503_then_404 half) = 2
  ∧ response (send sample_transport [Queue.sample_event "a"] net_503_then_404 half)
    = {| success := false; eventIds := None;
         error := Some (http_error 404 (str "not here")) |}.
Proof.
  destruct (send_retry_partition sample_transport [Queue.sample_event "a"]
              net_503_then_404 half 1) as [H _].
  - discriminate.
  - discriminate.
  - cbn. lia.
  - intros j Hj. assert (j = 0) as -> by lia. reflexivity.
  - destruct (H _ eq_refl eq_refl) as (_ & Hterm & _). now apply Hterm.
Defined.

Lemma retryDelay_header (t : Transport) (attempt : nat) (rnd : Q)
    (header : jsstring) (R : Z) :
  header ≠ [] → parseInt10 header = Some R →
  retryDelay t attempt rnd (Some header) = Z.min (R * 1000) (maxDelayMs t).
Proof.
  intros Hne Hparse. unfold retryDelay.
  destruct header as [|c h]; [congruence|]. now rewrite Hparse.
Qed.

(** C7. With jitter values in [0,1), the backoff delay computed by a
    transport does not decrease from one attempt to a later one and is at
    most 30000 ms. After a retryable response whose [Retry-After] header
    parses to [R], the delay is [min (R * 1000) 30000] whatever the attempt,
    and this is the delay [send] sleeps before its next attempt. *)
Theorem backoff_monotone_capped (endpoint : jsstring) (retryAttempts : nat)
    (random : nat → Q) :
  (∀ n, (0 <= random n)%Q ∧ (random n < 1)%Q) →
  (∀ a b, a ≤ b →
     (calculateBackoffDelay (new endpoint retryAttempts) a (random a)
      ≤ calculateBackoffDelay (new endpoint retryAttempts) b (random b)
      ≤ 30000)%Z)
  ∧ (∀ attempt header R,
       header ≠ [] → parseInt10 header = Some R →
       retryDelay (new endpoint retryAttempts) attempt (random attempt) (Some header)
       = Z.min (R * 1000) 30000)
  ∧ (∀ events net k r header R,
       endpoint ≠ [] → events ≠ [] →
       S k < retryAttempts →
       (∀ j, j < k → retried (net j) = true) →
       net k = Responded r → ok r = false →
       isRetryableError (status r) = true →
       retryAfter r = Some header →
       header ≠ [] → parseInt10 header = Some R →
       sleeps (send (new endpoint retryAttempts) events net random) !! k
       = Some (Z.min (R * 1000) 30000)).
Proof.
  intros Hrnd. set (t := new endpoint retryAttempts).
  assert (Hbase : (0 ≤ baseDelayMs t)%Z) by (cbn; unfold DEFAULT_baseDelayMs; lia).
  split; [|split].
  - intros a b Hab. split.
    + destruct (decide (a = b)) as [->|Hne]; [lia|].
      destruct (Hrnd a), (Hrnd b).
      apply calculateBackoffDelay_mono; auto. lia.
    + destruct (Hrnd b) as [Hb0 Hb1].
      pose proof (calculateBackoffDelay_bounds t b (random b) Hbase Hb0 Hb1) as Hb.
      change (maxDelayMs t) with 30000%Z in Hb. lia.
  - intros attempt header R Hne Hparse.
    now rewrite (retryDelay_header t attempt _ header R Hne Hparse).
  - intros events net k r header R Hend Hev Hk Hpre Hnet Hok Hretry Hhdr Hne Hparse.
    rewrite (send_unfold t events net random) by assumption.
    destruct (send_from_skip t events net random k (maxAttempts t) 0 [] None)
      as (le & ls & slept & Hlen & _ & _ & Hs);
      [cbn; lia|cbn; lia|intros j Hj; apply Hpre; lia|].
    rewrite Hs. cbn [Nat.add]. rewrite lookup_app_r by lia.
    replace (k - length slept) with 0 by lia.
    change (maxAttempts t) with retryAttempts.
    destruct (retryAttempts - k) as [|m] eqn:Hm; [lia|].
    destruct (send_from_retried t events net random m k le ls)
      as (d & le1 & ls1 & -> & Hd).
    { unfold retried. now rewrite Hnet, Hok. }
    rewrite decide_True by (cbn; lia). cbn [later sleeps lookup list_lookup].
    rewrite (Hd r Hnet Hok), Hhdr.
    now rewrite (retryDelay_header t k _ header R Hne Hparse).
Qed.

Lemma backoff_monotone_capped_witness :
  (calculateBackoffDelay sample_transport 0 (half 0)
   ≤ calculateBackoffDelay sample_transport 1 (half 1) ≤ 30000)%Z
  ∧ retryDelay sample_transport 2 (half 2) (Some (str "7")) = 7000%Z
  ∧ sleeps (send sample_transport [Queue.sample_event "a"] net_503_then_404 half)
    !! 0 = Some 7000%Z.
Proof.
  destruct (backoff_monotone_capped (str "https://collector.example/errors") 3 half)
    as (Hmono & Hhdr & Hsend).
  - intros n. split; reflexivity || discriminate.
  - split; [apply Hmono; lia|]. split.
    + apply (Hhdr 2 (str "7") 7%Z); [discriminate|reflexivity].
    + apply (Hsend [Queue.sample_event "a"] net_503_then_404 0
               {| status := 503; json := BadJson (str "Unexpected token");
                  text := str "busy"; retryAfter := Some (str "7") |}
               (str "7") 7%Z);
        try discriminate; try reflexivity; try lia.
Defined.

End TransportFacts.

(** ** Tracker *)

Section TrackerFacts.
Import Tracker.

Lemma queue_set_queue q t : queue (set_queue q t) = q.
Proof. reflexivity. Qed.

(** What is left of the queue once a successful answer has been handled. *)
Lemma sendQueuedEvents_finish_success (ids : list jsstring) (t : ErrorTracker) :
  Queue.queue (queue (sendQueuedEvents_finish
     {| Transport.success := true; Transport.eventIds := Some ids;
        Transport.error := None |} t))
  = filter (λ e, event_id e ∉ ids) (Queue.queue (queue t)).
Proof.
  unfold sendQueuedEvents_finish. cbn [Transport.success Transport.eventIds].
  rewrite queue_set_queue. apply remove_filter.
Qed.

Lemma filter_own_ids (events : list ErrorEvent) :
  filter (λ e, event_id e ∉ map event_id events) events = [].
Proof.
  enough (H : ∀ (ids : list jsstring) (l : list ErrorEvent),
            (∀ e, e ∈ l → event_id e ∈ ids) →
            filter (λ e, event_id e ∉ ids) l = []).
  { apply H. intros e He. apply list_elem_of_fmap. now exists e. }
  intros ids l. induction l as [|x l IH]; intros Hin; [reflexivity|].
  rewrite filter_cons. rewrite decide_False.
  - apply IH. intros e He. apply Hin. now right.
  - intros Hout. apply Hout, Hin. now left.
Qed.

(** C1 (as amended). When [send] ends with a 2xx response whose body is
    read as JSON, the entries removed from the queue are exactly those whose
    id is listed in [event_ids], and, when [event_ids] is missing, those
    whose id belongs to the batch that was sent: the queue ends up empty if
    nothing was enqueued since the batch was read, and whatever was enqueued
    meanwhile under another id stays. *)
Theorem sendQueuedEvents_removes_acknowledged (t : ErrorTracker)
    (net : nat → Transport.fetched) (random : nat → Q) (k : nat)
    (r : Transport.Response) (event_ids : option (list jsstring)) :
  Transport.endpoint (transport t) ≠ [] →
  Queue.getAll (queue t) ≠ [] →
  k < Transport.maxAttempts (transport t) →
  (∀ j, j < k → Transport.retried (net j) = true) →
  net k = Transport.Responded r →
  Transport.ok r = true →
  Transport.json r = Transport.Json event_ids →
  sendQueuedEvents_start t = Sending (transport t) (Queue.getAll (queue t))
  ∧ Transport.success
      (Transport.response
         (Transport.send (transport t) (Queue.getAll (queue t)) net random))
    = true
  ∧ (∀ t' : ErrorTracker,
       Queue.queue (queue (sendQueuedEvents_finish
          (Transport.response
             (Transport.send (transport t) (Queue.getAll (queue t)) net random))
          t'))
       = filter (λ e, event_id e
                      ∉ default (map event_id (Queue.getAll (queue t))) event_ids)
           (Queue.queue (queue t')))
  ∧ (event_ids = None →
     Queue.queue (queue (sendQueuedEvents_finish
        (Transport.response
           (Transport.send (transport t) (Queue.getAll (queue t)) net random))
        t))
     = []).
Proof.
  intros Hend Hbatch Hk Hpre Hnet Hok Hjson.
  set (batch := Queue.getAll (queue t)) in *.
  assert (Hresp : Transport.response (Transport.send (transport t) batch net random)
                  = {| Transport.success := true;
                       Transport.eventIds :=
                         Some (default (map event_id batch) event_ids);
                       Transport.error := None |}).
  { rewrite send_unfold by assumption.
    destruct (send_from_skip (transport t) batch net random k
                (Transport.maxAttempts (transport t)) 0 [] None)
      as (le & ls & slept & _ & -> & _ & _);
      [lia|lia|intros j Hj; apply Hpre; lia|].
    cbn [Nat.add].
    destruct (Transport.maxAttempts (transport t) - k) as [|m] eqn:Hm; [lia|].
    cbn [Transport.send_from]. rewrite Hnet, Hok, Hjson. cbn.
    now destruct event_ids. }
  rewrite Hresp. split; [|split; [reflexivity|split]].
  - unfold sendQueuedEvents_start. fold batch. now destruct batch.
  - intros t'. apply sendQueuedEvents_finish_success.
  - intros ->. rewrite sendQueuedEvents_finish_success. cbn [default].
    apply filter_own_ids.
Qed.

Lemma sendQueuedEvents_removes_acknowledged_witness :
  Queue.queue (queue (sendQueuedEvents_finish
     (Transport.response
        (Transport.send (transport sample_tracker)
           (Queue.getAll (queue sample_tracker))
           (Transport.net_accepts (Some [str "a"])) Transport.half))
     (enqueue (Queue.sample_event "b") sample_tracker)))
  = filter (λ e, event_id e ∉ [str "a"])
      (Queue.queue (queue (enqueue (Queue.sample_event "b") sample_tracker))).
Proof.
  destruct (sendQueuedEvents_removes_acknowledged sample_tracker
              (Transport.net_accepts (Some [str "a"])) Transport.half 0
              {| Transport.status := 200;
                 Transport.json := Transport.Json (Some [str "a"]);
                 Transport.text := []; Transport.retryAfter := None |}
              (Some [str "a"])) as (_ & _ & H & _).
  - discriminate.
  - discriminate.
  - cbn. lia.
  - intros j Hj. lia.
  - reflexivity.
  - reflexivity.
  - reflexivity.
  - apply H.
Defined.

(** C1 as stated fails on two counts. An event enqueued while the batch was
    being sent is still in the queue after a 2xx answer without
    [event_ids]; and a 2xx answer whose body cannot be read as JSON, such as
    a 204 without a body, counts as a failed attempt: when every attempt is
    answered that way nothing is removed. *)
Lemma sendQueuedEvents_keeps_later_event :
  sendQueuedEvents_start sample_tracker
  = Sending (transport sample_tracker) [Queue.sample_event "a"]
  ∧ Queue.queue (queue (sendQueuedEvents_finish
       (Transport.response
          (Transport.send (transport sample_tracker) [Queue.sample_event "a"]
             (Transport.net_accepts None) Transport.half))
       (enqueue (Queue.sample_event "b") sample_tracker)))
    = [Queue.sample_event "b"]
  ∧ [Queue.sample_event "b"] ≠ []
  ∧ Transport.ok Transport.no_content = true
  ∧ Transport.success
      (Transport.response
         (Transport.send (transport sample_tracker) [Queue.sample_event "a"]
            Transport.net_no_content Transport.half))
    = false
  ∧ Queue.queue (queue (sendQueuedEvents_finish
       (Transport.response
          (Transport.send (transport sample_tracker) [Queue.sample_event "a"]
             Transport.net_no_content Transport.half))
       sample_tracker))
    = [Queue.sample_event "a"].
Proof.
  split; [reflexivity|]. split; [vm_compute; reflexivity|].
  split; [discriminate|]. repeat split; vm_compute; reflexivity.
Qed.

(** C3, on the code: [init] on an initialized tracker returns with the
    tracker marked initialized while the implicit [shutdown] is still
    waiting for its final flush; when that [shutdown] resumes it marks the
    tracker uninitialized, although the timers, handlers and console
    interception installed by the second [init] remain. *)
Theorem reinit_ends_uninitialized (first second : Config) (now1 now2 : Z)
    (st : Queue.stored) (net : nat → Transport.fetched) (random : nat → Q) :
  isInitialized (reinit first second now1 now2 st) = true
  ∧ length (shutdownsAwaiting (reinit first second now1 now2 st)) = 1
  ∧ isInitialized (shutdown_resume net random (reinit first second now1 now2 st))
    = false
  ∧ shutdownsAwaiting (shutdown_resume net random (reinit first second now1 now2 st))
    = []
  ∧ is_Some (cleanupWindowHandlers
               (shutdown_resume net random (reinit first second now1 now2 st)))
  ∧ is_Some (breadcrumbSweep
               (shutdown_resume net random (reinit first second now1 now2 st))).
Proof.
  assert (Hinit : ∀ cfg now t, isInitialized (init cfg now t) = true)
    by reflexivity.
  assert (Hwait : shutdownsAwaiting (reinit first second now1 now2 st)
                  = [sendQueuedEvents_start (init first now1 (boot st))]).
  { unfold reinit. unfold init at 1. rewrite Hinit. reflexivity. }
  split; [apply Hinit|]. split; [now rewrite Hwait|].
  unfold shutdown_resume. rewrite Hwait.
  destruct (sendQueuedEvents_start _) as [|via batch].
  - cbn. repeat split; eauto.
  - unfold sendQueuedEvents_finish.
    destruct (Transport.success _); [destruct (Transport.eventIds _)|];
      cbn; repeat split; eauto.
Qed.

End TrackerFacts.

(** ** Sanitizer *)

Section SanitizerFacts.
Import Sanitizer.

(** *** Running an action *)

Lemma bind_run {A B} (m : action A) (f : A → action B) σ :
  bind m f σ
  = match m σ with
    | (Returns a, σ') => f a σ'
    | (Throws e, σ') => (Throws e, σ')
    end.
Proof. reflexivity. Qed.

Lemma bind_returns {A B} (m : action A) (f : A → action B) σ y σ' :
  bind m f σ = (Returns y, σ') →
  ∃ a σ1, m σ = (Returns a, σ1) ∧ f a σ1 = (Returns y, σ').
Proof.
  rewrite bind_run. destruct (m σ) as [[a|e] σ1]; [eauto|discriminate].
Qed.

Lemma bind_step {A B} (m : action A) (f : A → action B) σ a σ1 :
  m σ = (Returns a, σ1) → bind m f σ = f a σ1.
Proof. intros H. now rewrite bind_run, H. Qed.

Lemma quiet_bind {A B} (m : action A) (f : A → action B) σ :
  quiet m σ → (∀ a, quiet (f a) σ) → quiet (bind m f) σ.
Proof.
  unfold quiet. intros Hm Hf. rewrite bind_run.
  destruct (m σ) as [[a|e] σ1]; cbn in Hm; subst σ1; [apply Hf|reflexivity].
Qed.

Lemma quiet_catch {A} (m handler : action A) σ :
  quiet m σ → quiet handler σ → quiet (catch m handler) σ.
Proof.
  unfold quiet, catch. intros Hm Hh.
  destruct (m σ) as [[a|e] σ1]; cbn in Hm; subst σ1; [reflexivity|exact Hh].
Qed.

Lemma quiet_traverse {A B} (f : A → action B) (l : list A) σ :
  (∀ x, quiet (f x) σ) → quiet (traverse f l) σ.
Proof.
  intros Hf. induction l as [|x l IH]; [reflexivity|].
  cbn [traverse]. apply quiet_bind; [apply Hf|]. intros y.
  apply quiet_bind; [exact IH|]. intros ys. reflexivity.
Qed.

(** *** [shouldRedact] *)

Lemma some_builtin (tests : list (jsstring → bool)) (others : list pattern)
    (key : jsstring) σ :
  some (map BuiltIn tests ++ others) key σ
  = if existsb (λ test, test key) tests then (Returns true, σ)
    else some others key σ.
Proof.
  induction tests as [|t tests IH]; [reflexivity|].
  cbn [map app some existsb]. rewrite bind_run. cbn [pattern_test ret].
  destruct (t key); [reflexivity|exact IH].
Qed.

Lemma some_custom_stateless (addresses : list nat) (key : jsstring) σ :
  Forall (λ a, advances (σ a) = false) addresses →
  some (map Custom addresses) key σ
  = (Returns (existsb (λ a, bool_decide (is_Some (exec (σ a) 0 key))) addresses), σ).
Proof.
  induction 1 as [|a addresses Ha _ IH]; [reflexivity|].
  cbn [map some existsb]. rewrite bind_run. cbn [pattern_test].
  unfold RegExp_test. rewrite Ha.
  destruct (bool_decide (is_Some (exec (σ a) 0 key))); [reflexivity|exact IH].
Qed.

(** Without [g] and [y] among the custom patterns, [shouldRedact] is the
    predicate [redacts] and writes nothing. *)
Lemma shouldRedact_stateless (s : DataSanitizer) (key : jsstring) σ :
  stateless s σ →
  shouldRedact s key σ = (Returns (redacts s σ key), σ).
Proof.
  intros Hs. unfold shouldRedact, redacts.
  destruct (autoRedact s); cbn [andb].
  - rewrite some_builtin.
    destruct (existsb (λ test, test key) DEFAULT_REDACT_PATTERNS); [reflexivity|].
    now apply some_custom_stateless.
  - now apply some_custom_stateless.
Qed.

(** A key that a built-in pattern matches is redacted before any custom
    pattern is tried. *)
Lemma shouldRedact_builtin (s : DataSanitizer) (key : jsstring) σ :
  autoRedact s = true →
  existsb (λ test, test key) DEFAULT_REDACT_PATTERNS = true →
  shouldRedact s key σ = (Returns true, σ).
Proof.
  intros Hauto Hmatch. unfold shouldRedact. rewrite Hauto, some_builtin.
  now rewrite Hmatch.
Qed.

Lemma shouldRedact_none (s : DataSanitizer) (key : jsstring) σ :
  autoRedact s = false → customPatterns s = [] →
  shouldRedact s key σ = (Returns false, σ).
Proof. intros Hauto Hnone. unfold shouldRedact. now rewrite Hauto, Hnone. Qed.

Section Walk.
Variable s : DataSanitizer.
Variable h : store.

(** *** [safeClone] and [sanitizeRecursive] *)

Lemma traverse_pure (recur : jsval → action jsval) (pure : jsval → outcome jsval)
    (items : list jsval) σ :
  (∀ v, recur v σ = (pure v, σ)) →
  traverse recur items σ = (map_outcome pure items, σ).
Proof.
  intros Hrec. induction items as [|v items IH]; [reflexivity|].
  cbn [traverse map_outcome]. rewrite bind_run, Hrec.
  destruct (pure v) as [v'|e]; [|reflexivity].
  rewrite bind_run, IH. now destruct (map_outcome pure items).
Qed.

Lemma sanitize_properties_pure (recur : jsval → action jsval)
    (pure : jsval → outcome jsval) σ :
  autoRedact s = false → customPatterns s = [] →
  (∀ v, recur v σ = (pure v, σ)) →
  ∀ props b,
    sanitize_properties s recur props b σ = (clone_properties pure props b, σ).
Proof.
  intros Hauto Hnone Hrec. induction props as [|[key v] props IH]; intros b;
    [reflexivity|].
  cbn [sanitize_properties clone_properties].
  rewrite (bind_step _ _ _ _ _ (shouldRedact_none s key σ Hauto Hnone)).
  rewrite bind_run, Hrec. destruct (pure v) as [v'|e]; [|reflexivity].
  rewrite bind_run. unfold lift.
  destruct (assign key v' b) as [b'|e]; [apply IH|reflexivity].
Qed.

(** [safeClone] is [sanitizeRecursive] for a sanitizer without patterns. *)
Lemma safeClone_sanitizeRecursive (maxDepth : nat) σ :
  autoRedact s = false → customPatterns s = [] →
  ∀ stack value currentDepth,
    sanitizeRecursive s h stack value maxDepth currentDepth σ
    = (safeClone h stack value maxDepth currentDepth, σ).
Proof.
  intros Hauto Hnone. induction stack as [|stack IH]; intros value cd; [reflexivity|].
  cbn [sanitizeRecursive safeClone]. case_decide; [reflexivity|].
  assert (Hobj : ∀ o,
    sanitize_object s (λ v, sanitizeRecursive s h stack v maxDepth (S cd)) o σ
    = (clone_object (λ v, safeClone h stack v maxDepth (S cd)) o, σ)).
  { intros [name message stk|[iso|]|items|props|p props]; cbn [sanitize_object clone_object];
      try reflexivity.
    - rewrite bind_run, (traverse_pure _ (λ v, safeClone h stack v maxDepth (S cd)))
        by (intros v; apply IH).
      now destruct (map_outcome _ items).
    - unfold catch.
      rewrite (sanitize_properties_pure _ (λ v, safeClone h stack v maxDepth (S cd)))
        by (assumption || intros v; apply IH).
      now destruct (clone_properties _ props empty_literal).
    - unfold catch.
      rewrite (sanitize_properties_pure _ (λ v, safeClone h stack v maxDepth (S cd)))
        by (assumption || intros v; apply IH).
      now destruct (clone_properties _ props empty_literal). }
  destruct value; try reflexivity; apply Hobj.
Qed.

Lemma sanitize_sanitizeRecursive (stack : nat) (data : jsval) (maxDepth : nat) σ :
  sanitize s h stack data maxDepth σ
  = sanitizeRecursive s h stack data maxDepth 0 σ.
Proof.
  unfold sanitize.
  destruct (autoRedact s) eqn:Hauto; cbn [negb andb]; [reflexivity|].
  case_bool_decide as Hcustom; [|reflexivity].
  unfold lift. symmetry. apply safeClone_sanitizeRecursive; [assumption|].
  destruct (customPatterns s); [reflexivity|discriminate].
Qed.

Lemma sanitizeRecursive_leaf stack v maxDepth currentDepth σ :
  leaf v → currentDepth < maxDepth →
  sanitizeRecursive s h (S stack) v maxDepth currentDepth σ = (Returns v, σ).
Proof.
  intros Hleaf Hdepth. cbn [sanitizeRecursive]. rewrite decide_False by lia.
  now destruct v.
Qed.

(** What the walk makes of a value that is not an object is not an object
    either, and sets no prototype if the value would not. *)
Lemma sanitizeRecursive_primitive stack v maxDepth currentDepth σ y σ' :
  sets_prototype v = false →
  sanitizeRecursive s h stack v maxDepth currentDepth σ = (Returns y, σ') →
  sets_prototype y = false ∧ σ' = σ
  ∧ sanitizeRecursive s h stack y maxDepth currentDepth σ = (Returns y, σ).
Proof.
  intros Hv. destruct stack as [|stack]; [discriminate|].
  cbn [sanitizeRecursive]. case_decide as Hcap.
  - intros [= <- <-]. auto.
  - destruct v; try discriminate; intros [= <- <-]; auto.
Qed.

(** *** Patterns without state *)

Section Stateless.
Variable σ : regexps.
Hypothesis no_state : stateless s σ.

Lemma quiet_sanitize_properties (recur : jsval → action jsval) :
  (∀ v, quiet (recur v) σ) →
  ∀ props b, quiet (sanitize_properties s recur props b) σ.
Proof.
  intros Hrec. induction props as [|[key v] props IH]; intros b; [reflexivity|].
  cbn [sanitize_properties]. apply quiet_bind.
  { unfold quiet. now rewrite shouldRedact_stateless. }
  intros redact. apply quiet_bind.
  { destruct redact; [reflexivity|apply Hrec]. }
  intros v'. apply quiet_bind; [reflexivity|]. intros b'. apply IH.
Qed.

Lemma quiet_sanitize_object (recur : jsval → action jsval) (o : jsobject) :
  (∀ v, quiet (recur v) σ) → quiet (sanitize_object s recur o) σ.
Proof.
  intros Hrec. destruct o as [name message stk|[iso|]|items|props|p props];
    cbn [sanitize_object]; try reflexivity.
  - apply quiet_bind; [now apply quiet_traverse|]. intros items'. reflexivity.
  - apply quiet_catch; [now apply quiet_sanitize_properties|reflexivity].
  - apply quiet_catch; [now apply quiet_sanitize_properties|reflexivity].
Qed.

(** A walk with such patterns leaves them as they are. *)
Lemma quiet_sanitizeRecursive (maxDepth : nat) :
  ∀ stack value currentDepth,
    quiet (sanitizeRecursive s h stack value maxDepth currentDepth) σ.
Proof.
  induction stack as [|stack IH]; intros value cd; [reflexivity|].
  cbn [sanitizeRecursive]. case_decide; [reflexivity|].
  destruct value; try reflexivity; apply quiet_sanitize_object; intros v; apply IH.
Qed.

Lemma traverse_fixed (recur : jsval → action jsval) (items items' : list jsval) :
  (∀ v, quiet (recur v) σ) →
  traverse recur items σ = (Returns items', σ) →
  (∀ v y, v ∈ items → recur v σ = (Returns y, σ) → recur y σ = (Returns y, σ)) →
  traverse recur items' σ = (Returns items', σ).
Proof.
  intros Hquiet. revert items'.
  induction items as [|v items IH]; intros items' Hrun Hfix.
  - now injection Hrun as <-.
  - cbn [traverse] in Hrun. apply bind_returns in Hrun as (y & σ1 & Hv & Hrun).
    assert (σ1 = σ) as -> by (specialize (Hquiet v); unfold quiet in Hquiet;
                              now rewrite Hv in Hquiet).
    apply bind_returns in Hrun as (ys & σ2 & Hrest & Hrun).
    assert (σ2 = σ) as ->.
    { pose proof (quiet_traverse recur items σ Hquiet) as Hq.
      unfold quiet in Hq. now rewrite Hrest in Hq. }
    injection Hrun as <-. cbn [traverse].
    rewrite (bind_step _ _ _ _ _ (Hfix v y (list_elem_of_here _ _) Hv)).
    rewrite (bind_step _ _ _ ys σ); [reflexivity|].
    apply IH; [exact Hrest|]. intros v' y' Hin. apply Hfix. now right.
Qed.

Section Idempotence.
Hypothesis name_kept : redacts s σ (str "name") = false.
Hypothesis message_kept : redacts s σ (str "message") = false.
Hypothesis stack_kept : redacts s σ (str "stack") = false.
Variable maxDepth : nat.

(** The loop over properties: what the first walk appended to the literal
    is appended again, unchanged, by a walk over the result. *)
Lemma sanitize_properties_fixed (recur : jsval → action jsval) (rem : nat) :
  (∀ v, quiet (recur v) σ) →
  (∀ v y σ', sets_prototype v = false → recur v σ = (Returns y, σ') →
             sets_prototype y = false) →
  (∀ v y, settled s σ h rem v = true →
          recur v σ = (Returns y, σ) → recur y σ = (Returns y, σ)) →
  ∀ props b y,
    proto b = None →
    forallb (λ '(key, v),
               redacts s σ key
               || settled s σ h rem v
                  && negb (bool_decide (key = PROTO) && sets_prototype v)) props
    = true →
    sanitize_properties s recur props b σ = (Returns y, σ) →
    ∃ out,
      y = VObject (ORecord (own b ++ out))
      ∧ ∀ b', proto b' = None →
          sanitize_properties s recur out b' σ
          = (Returns (VObject (ORecord (own b' ++ out))), σ).
Proof.
  intros Hquiet Hprim Hfix.
  induction props as [|[key v] props IH]; intros b y Hproto Hok Hrun.
  - injection Hrun as <-. exists []. unfold built. rewrite Hproto, app_nil_r.
    split; [reflexivity|]. intros b' Hb'. cbn [sanitize_properties ret].
    unfold built. now rewrite Hb', app_nil_r.
  - cbn [forallb] in Hok. apply andb_true_iff in Hok as [Hkey Hok].
    cbn [sanitize_properties] in Hrun.
    rewrite (bind_step _ _ _ _ _ (shouldRedact_stateless s key σ no_state)) in Hrun.
    apply bind_returns in Hrun as (v' & σ1 & Hv & Hrun).
    assert (σ1 = σ) as ->.
    { destruct (redacts s σ key); [now injection Hv|].
      specialize (Hquiet v). unfold quiet in Hquiet. now rewrite Hv in Hquiet. }
    apply bind_returns in Hrun as (b1 & σ2 & Hassign & Hrun).
    unfold lift in Hassign. injection Hassign as Hassign <-.
    assert (Hagain : (if redacts s σ key then ret (VString (redactedValue s))
                      else recur v') σ = (Returns v', σ)).
    { destruct (redacts s σ key) eqn:Hred; [exact Hv|].
      cbn [orb] in Hkey. apply andb_true_iff in Hkey as [Hset _].
      now apply (Hfix v). }
    unfold assign in Hassign. case_decide as Hp.
    + assert (Hnone : sets_prototype v' = false).
      { destruct (redacts s σ key) eqn:Hred; [now injection Hv as <-|].
        cbn [orb] in Hkey. apply andb_true_iff in Hkey as [_ Hno].
        rewrite bool_decide_eq_true_2 in Hno by assumption. cbn [andb] in Hno.
        apply negb_true_iff in Hno. now apply (Hprim v v' σ). }
      rewrite Hnone in Hassign. injection Hassign as <-.
      now apply IH.
    + rewrite Hproto in Hassign. cbn [readonly_under] in Hassign.
      injection Hassign as <-.
      destruct (IH {| proto := None; own := own b ++ [(key, v')] |} y eq_refl Hok Hrun)
        as (out & -> & Hout). cbn [own].
      exists ((key, v') :: out). rewrite <- app_assoc. split; [reflexivity|].
      intros b' Hb'. cbn [sanitize_properties].
      rewrite (bind_step _ _ _ _ _ (shouldRedact_stateless s key σ no_state)).
      rewrite (bind_step _ _ _ _ _ Hagain).
      unfold lift at 1. rewrite bind_run. unfold assign.
      rewrite decide_False by assumption. rewrite Hb'. cbn [readonly_under].
      rewrite Hout by reflexivity. cbn [own]. now rewrite <- app_assoc.
Qed.

(** A second walk leaves in place whatever the first one returned. *)
Lemma sanitizeRecursive_fixed :
  ∀ stack value currentDepth y,
    maxDepth - currentDepth < stack →
    settled s σ h (maxDepth - currentDepth) value = true →
    sanitizeRecursive s h stack value maxDepth currentDepth σ = (Returns y, σ) →
    sanitizeRecursive s h stack y maxDepth currentDepth σ = (Returns y, σ).
Proof.
  induction stack as [|stack IH]; intros value cd y Hstack Hok Hy; [lia|].
  cbn [sanitizeRecursive] in Hy |- *. case_decide as Hcap.
  { injection Hy as <-. reflexivity. }
  destruct (maxDepth - cd) as [|rem] eqn:Hrem; [lia|].
  set (recur := λ v, sanitizeRecursive s h stack v maxDepth (S cd)) in *.
  assert (Hquiet : ∀ v, quiet (recur v) σ)
    by (intros v; apply quiet_sanitizeRecursive).
  assert (IH' : ∀ v y', settled s σ h rem v = true →
                        recur v σ = (Returns y', σ) → recur y' σ = (Returns y', σ)).
  { intros v y' Hv. apply IH; [lia|]. now replace (maxDepth - S cd) with rem by lia. }
  assert (Hprim : ∀ v y' σ', sets_prototype v = false →
                             recur v σ = (Returns y', σ') → sets_prototype y' = false).
  { intros v y' σ' Hv Hrun.
    now destruct (sanitizeRecursive_primitive _ _ _ _ _ _ _ Hv Hrun). }
  assert (Hprops : ∀ props,
    forallb (λ '(key, v),
               redacts s σ key
               || settled s σ h rem v
                  && negb (bool_decide (key = PROTO) && sets_prototype v)) props
    = true →
    catch (sanitize_properties s recur props empty_literal) (ret CircularReference) σ
    = (Returns y, σ) →
    match y with
    | VObject o' => sanitize_object s recur o'
    | VRef a => sanitize_object s recur (h a)
    | _ => ret y
    end σ = (Returns y, σ)).
  { intros props Ho Hret. unfold catch in Hret.
    destruct (sanitize_properties s recur props empty_literal σ)
      as [[y'|e] σ1] eqn:Hrun.
    - injection Hret as -> ->.
      destruct (sanitize_properties_fixed recur rem Hquiet Hprim IH'
                  props empty_literal y eq_refl Ho Hrun) as (out & -> & Hout).
      change (own empty_literal ++ out) with out.
      cbn [sanitize_object]. unfold catch.
      now rewrite (Hout empty_literal eq_refl).
    - now injection Hret as <- _. }
  assert (Hobj : ∀ o,
    match o with
    | OError _ _ _ => bool_decide (1 ≤ rem)
    | ODate _ => true
    | OArray items => forallb (settled s σ h rem) items
    | ORecord props | OInherits _ props =>
        forallb (λ '(key, v),
                   redacts s σ key
                   || settled s σ h rem v
                      && negb (bool_decide (key = PROTO) && sets_prototype v)) props
    end = true →
    sanitize_object s recur o σ = (Returns y, σ) →
    match y with
    | VObject o' => sanitize_object s recur o'
    | VRef a => sanitize_object s recur (h a)
    | _ => ret y
    end σ = (Returns y, σ)).
  { intros [name message stk|[iso|]|items|props|p props] Ho Hret;
      cbn [sanitize_object] in Hret.
    - injection Hret as <-. apply bool_decide_eq_true in Ho.
      assert (Hleaf : ∀ v, leaf v → recur v σ = (Returns v, σ)).
      { intros v Hv. unfold recur. destruct stack as [|stack']; [lia|].
        apply sanitizeRecursive_leaf; [assumption|lia]. }
      unfold error_fields. cbn [sanitize_object]. unfold catch.
      cbn [sanitize_properties].
      rewrite (bind_step _ _ _ _ _ (shouldRedact_stateless s _ σ no_state)).
      rewrite name_kept, (bind_step _ _ _ _ _ (Hleaf (VString name) I)).
      unfold lift at 1. rewrite bind_run. unfold assign at 1.
      rewrite decide_False by discriminate.
      cbn [empty_literal proto readonly_under own app].
      rewrite (bind_step _ _ _ _ _ (shouldRedact_stateless s _ σ no_state)).
      rewrite message_kept, (bind_step _ _ _ _ _ (Hleaf (VString message) I)).
      unfold lift at 1. rewrite bind_run. unfold assign at 1.
      rewrite decide_False by discriminate. cbn [proto readonly_under own app].
      rewrite (bind_step _ _ _ _ _ (shouldRedact_stateless s _ σ no_state)).
      rewrite stack_kept.
      rewrite (bind_step _ _ _ _ _
                 (Hleaf (match stk with Some t => VString t | None => VUndefined end)
                        ltac:(destruct stk; exact I))).
      unfold lift at 1. rewrite bind_run. unfold assign at 1.
      rewrite decide_False by discriminate. cbn [proto readonly_under own app].
      reflexivity.
    - now injection Hret as <-.
    - discriminate.
    - apply bind_returns in Hret as (items' & σ1 & Hmap & Hret).
      injection Hret as <- ->. cbn [sanitize_object].
      rewrite (bind_step _ _ _ items' σ); [reflexivity|].
      apply (traverse_fixed recur items items' Hquiet Hmap).
      intros x y' Hx. apply IH'.
      rewrite forallb_forall in Ho. apply Ho. now apply list_elem_of_In.
    - now apply (Hprops props).
    - now apply (Hprops props). }
  cbn [settled] in Hok.
  destruct value as [| | | | | | | |o|a]; try (injection Hy as <-; reflexivity).
  - now apply (Hobj o).
  - now apply (Hobj (h a)).
Qed.

End Idempotence.
End Stateless.

(** An object whose only property refers to the object itself is copied
    once per level: down to the depth cap if the call stack reaches that
    far, and otherwise down to the last call that fits, whose [catch] takes
    the exhaustion of the stack for a circular reference. *)
Lemma sanitizeRecursive_self (a : nat) (key : jsstring) (maxDepth : nat) σ :
  h a = ORecord [(key, VRef a)] →
  key ≠ PROTO →
  shouldRedact s key σ = (Returns false, σ) →
  ∀ stack currentDepth,
    sanitizeRecursive s h (S stack) (VRef a) maxDepth currentDepth σ
    = (Returns (if decide (maxDepth - currentDepth ≤ stack)
                then nested key (maxDepth - currentDepth) MaxDepthReached
                else nested key stack CircularReference), σ).
Proof.
  intros Ha Hkey Hshown. induction stack as [|stack IH]; intros cd;
    cbn [sanitizeRecursive]; case_decide as Hcap.
  - rewrite decide_True by lia. now replace (maxDepth - cd) with 0 by lia.
  - rewrite decide_False by lia. rewrite Ha. cbn [sanitize_object].
    unfold catch. cbn [sanitize_properties].
    rewrite (bind_step _ _ _ _ _ Hshown). reflexivity.
  - rewrite decide_True by lia. now replace (maxDepth - cd) with 0 by lia.
  - rewrite Ha. cbn [sanitize_object]. unfold catch. cbn [sanitize_properties].
    rewrite (bind_step _ _ _ _ _ Hshown).
    rewrite (bind_step _ _ _ _ _ (IH (S cd))).
    unfold lift at 1. rewrite bind_run. unfold assign.
    rewrite decide_False by assumption. cbn [empty_literal proto readonly_under own app].
    cbn [sanitize_properties ret built proto own].
    destruct (decide (maxDepth - S cd ≤ stack)).
    + rewrite decide_True by lia.
      replace (maxDepth - cd) with (S (maxDepth - S cd)) by lia. reflexivity.
    + rewrite decide_False by lia. reflexivity.
Qed.

End Walk.

(** C2, on the code. For an object whose property refers to the object
    itself, [sanitize] ends, yet what stands for the cycle is not the
    circular-reference marker: the object is copied level by level down to
    the depth cap and [[Max Depth Reached]] put there. The marker
    [[Circular Reference]] comes only from the [catch], and for a cycle only
    when [maxDepth] is beyond what the call stack holds: then it stands at
    the bottom of as many copies as calls fit. *)
Theorem sanitize_cyclic_bounded (s : DataSanitizer) (h : store) (σ : regexps)
    (stack maxDepth : nat) (a : nat) (key : jsstring) :
  h a = ORecord [(key, VRef a)] →
  key ≠ PROTO →
  shouldRedact s key σ = (Returns false, σ) →
  0 < stack →
  sanitize s h stack (VRef a) maxDepth σ
  = (Returns (if decide (maxDepth < stack)
              then nested key maxDepth MaxDepthReached
              else nested key (stack - 1) CircularReference), σ).
Proof.
  intros Ha Hkey Hshown Hstack. rewrite sanitize_sanitizeRecursive.
  destruct stack as [|stack]; [lia|].
  rewrite (sanitizeRecursive_self s h a key maxDepth σ Ha Hkey Hshown).
  replace (S stack - 1) with stack by lia. rewrite Nat.sub_0_r.
  destruct (decide (maxDepth ≤ stack)); [now rewrite decide_True by lia|].
  now rewrite decide_False by lia.
Qed.

Lemma sanitize_cyclic_bounded_witness :
  sanitize default_sanitizer self_store 1000 (VRef 0) DEFAULT_maxDepth no_patterns
  = (Returns (nested (str "self") 10 MaxDepthReached), no_patterns).
Proof.
  apply (sanitize_cyclic_bounded default_sanitizer self_store no_patterns
           1000 DEFAULT_maxDepth 0 (str "self"));
    [reflexivity|discriminate|reflexivity|lia].
Defined.

(** C4 (as amended). When the call stack has room for [maxDepth + 1] nested
    calls, no custom pattern carries the flag [g] or [y], no pattern matches
    [name], [message] or [stack], every [Error] instance that the walk
    reaches lies at depth [maxDepth - 2] or above and no own property named
    [__proto__] that is copied holds an object, a function or [null], then
    sanitizing the result of [sanitize] again returns it unchanged, and the
    patterns are as before. *)
Theorem sanitize_idempotent (s : DataSanitizer) (h : store) (σ σ' : regexps)
    (stack maxDepth : nat) (x y : jsval) :
  maxDepth < stack →
  stateless s σ →
  redacts s σ (str "name") = false →
  redacts s σ (str "message") = false →
  redacts s σ (str "stack") = false →
  settled s σ h maxDepth x = true →
  sanitize s h stack x maxDepth σ = (Returns y, σ') →
  σ' = σ ∧ sanitize s h stack y maxDepth σ' = (Returns y, σ').
Proof.
  intros Hstack Hstate Hname Hmessage Hstk Hok. rewrite !sanitize_sanitizeRecursive.
  intros Hrun.
  assert (σ' = σ) as ->.
  { pose proof (quiet_sanitizeRecursive s h σ Hstate maxDepth stack x 0) as Hq.
    unfold quiet in Hq. now rewrite Hrun in Hq. }
  split; [reflexivity|].
  apply (sanitizeRecursive_fixed s h σ Hstate Hname Hmessage Hstk maxDepth stack x);
    [lia|now rewrite Nat.sub_0_r|exact Hrun].
Qed.

Lemma sanitize_idempotent_witness :
  ∃ y, sanitize default_sanitizer self_store 11 sample_state 10 no_patterns
       = (Returns y, no_patterns)
       ∧ sanitize default_sanitizer self_store 11 y 10 no_patterns
         = (Returns y, no_patterns).
Proof.
  eexists. split; [vm_compute; reflexivity|].
  apply (sanitize_idempotent default_sanitizer self_store no_patterns no_patterns
           11 10 sample_state);
    [lia|constructor|reflexivity|reflexivity|reflexivity|reflexivity
    |vm_compute; reflexivity].
Defined.

(** C4 as stated fails, in five ways. An [Error] inside nine arrays is
    turned into its three fields by the first pass, and the second pass
    finds those fields at the depth cap. With the custom pattern
    [/secret/g], whose [lastIndex] moves from key to key, the second pass
    redacts a key that the first one kept. An own property [__proto__]
    holding an object becomes the prototype of the first result and is gone
    from the second. When the stack ends before [maxDepth], the fields of an
    [Error] converted by the last call that fits are out of reach for the
    second pass. And with the custom pattern [/name/] the name of a
    converted [Error] is redacted by the second pass. *)
Lemma sanitize_twice_deep_error :
  (sanitize default_sanitizer empty_store 1000 deep_error DEFAULT_maxDepth
     no_patterns).1
  = Returns (wrapped 9 (error_fields (str "Error") (str "boom") None))
  ∧ (sanitize default_sanitizer empty_store 1000
       (wrapped 9 (error_fields (str "Error") (str "boom") None)) DEFAULT_maxDepth
       no_patterns).1
    = Returns (wrapped 9 (VObject (ORecord
        [ (str "name", MaxDepthReached); (str "message", MaxDepthReached);
          (str "stack", MaxDepthReached) ])))
  ∧ wrapped 9 (error_fields (str "Error") (str "boom") None)
    ≠ wrapped 9 (VObject (ORecord
        [ (str "name", MaxDepthReached); (str "message", MaxDepthReached);
          (str "stack", MaxDepthReached) ]))
  ∧ (sanitize custom_sanitizer empty_store 1000 three_secrets DEFAULT_maxDepth
       secret_g).1
    = Returns (VObject (ORecord
        [ (str "secret", VString (str "[REDACTED]")); (str "secretX", VNumber 5);
          (str "secretY", VString (str "[REDACTED]")) ]))
  ∧ (sanitize custom_sanitizer empty_store 1000
       (VObject (ORecord
          [ (str "secret", VString (str "[REDACTED]")); (str "secretX", VNumber 5);
            (str "secretY", VString (str "[REDACTED]")) ]))
       DEFAULT_maxDepth
       (sanitize custom_sanitizer empty_store 1000 three_secrets DEFAULT_maxDepth
          secret_g).2).1
    = Returns (VObject (ORecord
        [ (str "secret", VString (str "[REDACTED]"));
          (str "secretX", VString (str "[REDACTED]"));
          (str "secretY", VString (str "[REDACTED]")) ]))
  ∧ (sanitize default_sanitizer empty_store 1000 own_proto DEFAULT_maxDepth
       no_patterns).1
    = Returns (VObject (OInherits (VObject (ORecord [(str "a", VNumber 1)])) []))
  ∧ (sanitize default_sanitizer empty_store 1000
       (VObject (OInherits (VObject (ORecord [(str "a", VNumber 1)])) []))
       DEFAULT_maxDepth no_patterns).1
    = Returns (VObject (ORecord []))
  ∧ (sanitize default_sanitizer empty_store 3
       (wrapped 2 (VObject (OError (str "Error") (str "boom") None)))
       DEFAULT_maxDepth no_patterns).1
    = Returns (wrapped 2 (error_fields (str "Error") (str "boom") None))
  ∧ (sanitize default_sanitizer empty_store 3
       (wrapped 2 (error_fields (str "Error") (str "boom") None))
       DEFAULT_maxDepth no_patterns).1
    = Returns (wrapped 2 CircularReference)
  ∧ (sanitize custom_sanitizer empty_store 1000
       (VObject (OError (str "Error") (str "boom") None)) DEFAULT_maxDepth
       name_pattern).1
    = Returns (error_fields (str "Error") (str "boom") None)
  ∧ (sanitize custom_sanitizer empty_store 1000
       (error_fields (str "Error") (str "boom") None) DEFAULT_maxDepth
       name_pattern).1
    = Returns (VObject (ORecord
        [ (str "name", VString (str "[REDACTED]"));
          (str "message", VString (str "boom")); (str "stack", VUndefined) ])).
Proof.
  repeat split; try (vm_compute; reflexivity). vm_compute. discriminate.
Qed.
End SanitizerFacts.

(** ** Fingerprints *)

Section FingerprintFacts.
Import Fingerprint.























(** *** Global replacement *)



(** **** The UUID stage *)














(** **** The number stage *)











(** *** The hash *)

Lemma toInt32_mod (z : Z) : (toInt32 z mod 2 ^ 32 = z mod 2 ^ 32)%Z.
Proof.
  unfold toInt32.
  rewrite <- Zminus_mod_idemp_l, Z.mod_mod by lia.
  rewrite Zminus_mod_idemp_l. f_equal. lia.
Qed.

Lemma lxor_mod_low (a c : Z) :
  (0 ≤ c < 2 ^ 32)%Z →
  (Z.lxor a c mod 2 ^ 32 = Z.lxor (a mod 2 ^ 32) c)%Z.
Proof.
  intros Hc. apply Z.bits_inj'. intros n Hn.
  destruct (Z.lt_ge_cases n 32) as [Hlow|Hhigh].
  - rewrite Z.mod_pow2_bits_low, !Z.lxor_spec, Z.mod_pow2_bits_low by lia. reflexivity.
  - rewrite Z.mod_pow2_bits_high by lia.
    rewrite Z.lxor_spec, Z.mod_pow2_bits_high by lia.
    rewrite <- (Z.mod_small c (2 ^ 32)) by lia.
    now rewrite Z.mod_pow2_bits_high by lia.
Qed.

Lemma code_byte (c : ascii) : (0 ≤ code c < 256)%Z.
Proof.
  unfold code. pose proof (N_ascii_bounded c). lia.
Qed.

Lemma hash_unsigned (s : jsstring) : ∀ signed unsigned,
  (signed mod 2 ^ 32 = unsigned)%Z →
  (fold_left (λ hash c, Z.lxor (toInt32 (hash * 33)) (code c)) s signed mod 2 ^ 32
   = fold_left (λ hash c, Z.lxor ((hash * 33) mod 2 ^ 32) (code c)) s unsigned
     mod 2 ^ 32)%Z.
Proof.
  induction s as [|c s IH]; intros hs hu Hh; cbn [fold_left].
  - rewrite <- Hh. now rewrite Z.mod_mod by lia.
  - apply IH. pose proof (code_byte c).
    rewrite lxor_mod_low by lia. rewrite toInt32_mod.
    rewrite <- Hh, Z.mul_mod_idemp_l by lia. reflexivity.
Qed.

Lemma djb2_range (s : jsstring) : (0 ≤ djb2 s < 2 ^ 32)%Z.
Proof.
  unfold djb2. destruct s as [|c s] using rev_ind; [cbn; lia|].
  rewrite fold_left_app. cbn [fold_left]. pose proof (code_byte c).
  rewrite <- lxor_mod_low by lia. apply Z.mod_pos_bound. lia.
Qed.

Lemma hashString_djb2 (s : jsstring) : hashString s = hex8 (djb2 s).
Proof.
  unfold hashString, djb2. cbv zeta. f_equal.
  rewrite (hash_unsigned s 5381 5381) by reflexivity.
  apply Z.mod_small. apply djb2_range.
Qed.

Lemma hex_digit_spec (d : Z) :
  (0 ≤ d < 16)%Z →
  is_lower_hex (hex_digit d) = true
  ∧ (if is_digit (hex_digit d) then code (hex_digit d) - 48 else code (hex_digit d) - 87)%Z = d.
Proof.
  intros Hd.
  assert (Hcases : d ∈ [0; 1; 2; 3; 4; 5; 6; 7; 8; 9; 10; 11; 12; 13; 14; 15]%Z).
  { rewrite !elem_of_cons. lia. }
  rewrite !elem_of_cons, elem_of_nil in Hcases.
  repeat (destruct Hcases as [->|Hcases]; [vm_compute; split; reflexivity|]).
  destruct Hcases.
Qed.

Lemma hex8_value (n : Z) : (0 ≤ n < 2 ^ 32)%Z → hex_value (hex8 n) = n.
Proof.
  intros Hn. unfold hex8, hex_value. cbn [map fold_left].
  repeat match goal with |- context [hex_digit ?d] =>
    let H := fresh "H" in
    assert (H : (0 ≤ d < 16)%Z) by (apply Z.mod_pos_bound; lia);
    destruct (hex_digit_spec d H) as [_ ->]; clear H end.
  change (16 ^ 0)%Z with 1%Z. rewrite Z.div_1_r.
  change (16 ^ 1)%Z with 16%Z.
  change (16 ^ 2)%Z with (16 * 16)%Z. change (16 ^ 3)%Z with (16 * (16 * 16))%Z.
  change (16 ^ 4)%Z with (16 * (16 * (16 * 16)))%Z.
  change (16 ^ 5)%Z with (16 * (16 * (16 * (16 * 16))))%Z.
  change (16 ^ 6)%Z with (16 * (16 * (16 * (16 * (16 * 16)))))%Z.
  change (16 ^ 7)%Z with (16 * (16 * (16 * (16 * (16 * (16 * 16))))))%Z.
  rewrite <- !Z.div_div by lia.
  set (n1 := (n / 16)%Z). set (n2 := (n1 / 16)%Z). set (n3 := (n2 / 16)%Z).
  set (n4 := (n3 / 16)%Z). set (n5 := (n4 / 16)%Z). set (n6 := (n5 / 16)%Z).
  set (n7 := (n6 / 16)%Z).
  assert (E0 : (n = 16 * n1 + n mod 16)%Z) by (apply Z.div_mod; lia).
  assert (E1 : (n1 = 16 * n2 + n1 mod 16)%Z) by (apply Z.div_mod; lia).
  assert (E2 : (n2 = 16 * n3 + n2 mod 16)%Z) by (apply Z.div_mod; lia).
  assert (E3 : (n3 = 16 * n4 + n3 mod 16)%Z) by (apply Z.div_mod; lia).
  assert (E4 : (n4 = 16 * n5 + n4 mod 16)%Z) by (apply Z.div_mod; lia).
  assert (E5 : (n5 = 16 * n6 + n5 mod 16)%Z) by (apply Z.div_mod; lia).
  assert (E6 : (n6 = 16 * n7 + n6 mod 16)%Z) by (apply Z.div_mod; lia).
  assert (E7 : (n7 mod 16 = n7)%Z).
  { apply Z.mod_small. unfold n7, n6, n5, n4, n3, n2, n1.
    rewrite !Z.div_div by lia. split; [apply Z.div_pos; lia|].
    apply Z.div_lt_upper_bound; lia. }
  rewrite E7.
  generalize dependent (n mod 16)%Z. generalize dependent (n1 mod 16)%Z.
  generalize dependent (n2 mod 16)%Z. generalize dependent (n3 mod 16)%Z.
  generalize dependent (n4 mod 16)%Z. generalize dependent (n5 mod 16)%Z.
  generalize dependent (n6 mod 16)%Z.
  clearbody n7 n6 n5 n4 n3 n2 n1. intros. lia.
Qed.

Lemma hex8_format (n : Z) :
  length (hex8 n) = 8 ∧ forallb is_lower_hex (hex8 n) = true.
Proof.
  split; [reflexivity|]. unfold hex8. cbn [map forallb].
  repeat match goal with |- context [hex_digit ?d] =>
    let H := fresh "H" in
    assert (H : (0 ≤ d < 16)%Z) by (apply Z.mod_pos_bound; lia);
    destruct (hex_digit_spec d H) as [-> _]; clear H end.
  reflexivity.
Qed.












End FingerprintFacts.

(** * Further properties of the code *)

(** ** Event queue: restoring, bounding, composing *)

Section QueueMore.
Import Queue.

Lemma filter_all {A} (P : A → Prop) `{∀ x, Decision (P x)} (l : list A) :
  (∀ x, x ∈ l → P x) → filter P l = l.
Proof.
  induction l as [|x l IH]; intros Hall; [reflexivity|].
  rewrite filter_cons, decide_True by (apply Hall; left).
  f_equal. apply IH. intros y Hy. apply Hall. now right.
Qed.

(** What [keep_recent] keeps: nothing if the array has a [null] entry,
    and otherwise the events among its entries that are recent. *)
Lemma keep_recent_spec (now : Z) (parsed : list entry) :
  keep_recent now parsed
  = if existsb is_null parsed then None
    else Some (filter (λ event, (now - timestamp event < MAX_AGE_MS)%Z)
                 (omap event_of parsed)).
Proof.
  induction parsed as [|[| |event] parsed IH];
    cbn [keep_recent omap list_omap event_of existsb is_null orb]; try reflexivity.
  - exact IH.
  - rewrite IH. destruct (existsb is_null parsed); [reflexivity|].
    now rewrite filter_cons.
Qed.

Lemma existsb_is_null (parsed : list entry) :
  existsb is_null parsed = true ↔ Null ∈ parsed.
Proof.
  rewrite existsb_exists. split.
  - intros (x & Hin & Hx). destruct x; try discriminate. now apply list_elem_of_In.
  - intros Hin. exists Null. split; [now apply list_elem_of_In|reflexivity].
Qed.

Lemma new_queue (st : stored) (now : Z) (M : nat) :
  queue (new st now M)
  = match st with
    | Saved parsed => default [] (keep_recent now parsed)
    | _ => []
    end
  ∧ maxSize (new st now M) = M.
Proof.
  unfold new, restore. cbn [persisted maxSize]. destruct st as [| | |parsed];
    try (split; reflexivity).
  destruct (keep_recent now parsed) as [fresh|]; [|split; reflexivity].
  now case_decide.
Qed.

(** X1. Whatever the storage key holds, the queue that the constructor
    builds contains only events that were stored and are younger than seven
    days, whatever [maxSize] is. Of a stored array without a [null] entry it
    keeps exactly those, in their order; a [null] entry makes it drop
    everything, as unreadable or non-array data do. A queue constructed
    later over the same data holds a part of it, in the same order. *)
Theorem new_keeps_recent_stored (st : stored) (now : Z) (M : nat) :
  (∀ e, e ∈ queue (new st now M) →
        (now - timestamp e < MAX_AGE_MS)%Z
        ∧ ∃ parsed, st = Saved parsed ∧ Event e ∈ parsed)
  ∧ (∀ parsed, st = Saved parsed → Null ∉ parsed →
       queue (new st now M)
       = filter (λ event, (now - timestamp event < MAX_AGE_MS)%Z)
           (omap event_of parsed))
  ∧ (∀ parsed, st = Saved parsed → Null ∈ parsed → queue (new st now M) = [])
  ∧ (st = NoData ∨ st = Unparsable ∨ st = NotArray → queue (new st now M) = [])
  ∧ maxSize (new st now M) = M
  ∧ (∀ later, (now ≤ later)%Z →
       queue (new st later M) `sublist_of` queue (new st now M)).
Proof.
  assert (Hsaved : ∀ parsed t,
    queue (new (Saved parsed) t M)
    = if existsb is_null parsed then []
      else filter (λ event, (t - timestamp event < MAX_AGE_MS)%Z)
             (omap event_of parsed)).
  { intros parsed t. destruct (new_queue (Saved parsed) t M) as [-> _].
    rewrite keep_recent_spec. now destruct (existsb is_null parsed). }
  split; [|split; [|split; [|split; [|split]]]].
  - destruct st as [| | |parsed];
      try (cbn; intros e He; now apply not_elem_of_nil in He).
    intros e. rewrite Hsaved. destruct (existsb is_null parsed).
    { intros He. now apply not_elem_of_nil in He. }
    intros He. apply list_elem_of_filter in He as [Hrecent Hin].
    split; [exact Hrecent|]. exists parsed. split; [reflexivity|].
    apply list_elem_of_omap in Hin as (x & Hx & Hev).
    destruct x; try discriminate. now injection Hev as ->.
  - intros parsed -> Hnull. rewrite Hsaved.
    destruct (existsb is_null parsed) eqn:Hex; [|reflexivity].
    now apply existsb_is_null in Hex.
  - intros parsed -> Hnull. rewrite Hsaved.
    now rewrite (proj2 (existsb_is_null parsed) Hnull).
  - intros [->|[->| ->]]; reflexivity.
  - apply new_queue.
  - intros later Hlater. destruct st as [| | |parsed]; try reflexivity.
    rewrite !Hsaved. destruct (existsb is_null parsed); [reflexivity|].
    induction (omap event_of parsed) as [|x l IH]; [reflexivity|].
    rewrite !filter_cons.
    destruct (decide (later - timestamp x < MAX_AGE_MS)%Z) as [Hl|Hl].
    + rewrite decide_True by lia. now constructor.
    + case_decide; [now constructor|exact IH].
Qed.

(** X2. On a queue that holds at most [maxSize] entries, a sequence of
    [add] calls longer than [maxSize] leaves exactly the last [maxSize]
    added events, in insertion order, and after every [add] of the sequence
    the size is at most [maxSize]. *)
Theorem add_all_keeps_last (q : ErrorQueue) (events : list ErrorEvent) :
  size q ≤ maxSize q →
  maxSize q < length events →
  queue (add_all events q) = drop (length events - maxSize q) events
  ∧ ∀ k, size (add_all (take k events) q) ≤ maxSize q.
Proof.
  intros Hq Hlen. split.
  - destruct (add_all_within_bound events q Hq) as [-> _].
    rewrite length_app. unfold size in Hq.
    replace (length (queue q) + length events - maxSize q)
      with (length (queue q) + (length events - maxSize q)) by lia.
    rewrite <- drop_drop. now rewrite drop_app_length.
  - intros k. now apply add_all_within_bound.
Qed.

Lemma add_all_keeps_last_witness :
  queue (add_all [sample_event "a"; sample_event "b"; sample_event "c"]
           (new NoData 0 2))
  = [sample_event "b"; sample_event "c"]
  ∧ ∀ k, size (add_all (take k [sample_event "a"; sample_event "b";
                                 sample_event "c"]) (new NoData 0 2)) ≤ 2.
Proof.
  apply (add_all_keeps_last (new NoData 0 2)
           [sample_event "a"; sample_event "b"; sample_event "c"]);
    cbn; lia.
Defined.

(** X3. [add] on any queue, within its bound or not: the size grows by one
    while it is below the bound and stays as it is otherwise, and the event
    just added is the newest entry, unless the bound is 0 and the queue was
    empty, in which case the event is dropped at once. *)
Theorem add_size_and_newest (e : ErrorEvent) (q : ErrorQueue) :
  size (add e q) = (if decide (size q < maxSize q) then S (size q) else size q)
  ∧ (maxSize q = 0 ∧ queue q = [] → queue (add e q) = [])
  ∧ (¬ (maxSize q = 0 ∧ queue q = []) → last (queue (add e q)) = Some e)
  ∧ queue (add e q) `suffix_of` (queue q ++ [e]).
Proof.
  unfold size, add. rewrite persist_queue. cbn [queue maxSize].
  destruct (decide (maxSize q < length (queue q ++ [e]))) as [Hover|Hroom];
    rewrite length_app in *; cbn [length] in *.
  - assert (Hshift : shift (queue q ++ [e]) = drop 1 (queue q ++ [e])).
    { unfold shift. now destruct (queue q ++ [e]). }
    rewrite Hshift. split; [|split; [|split]].
    + rewrite length_drop, length_app. cbn [length].
      rewrite decide_False by lia. lia.
    + intros [_ ->]. reflexivity.
    + intros Hnot. destruct (queue q) as [|x l] eqn:Hq.
      * exfalso. apply Hnot. split; [cbn in Hover; lia|reflexivity].
      * cbn [app drop]. apply last_snoc.
    + apply suffix_drop.
  - split; [|split; [|split]].
    + rewrite decide_True by lia. lia.
    + intros [Hm ->]. cbn in Hroom. lia.
    + intros _. apply last_snoc.
    + reflexivity.
Qed.

(** X4. Removing in two steps is removing the ids of both lists at once, in
    either order, and removing ids that no entry carries changes nothing. *)
Theorem remove_composes (ids1 ids2 : list jsstring) (q : ErrorQueue) :
  queue (remove ids2 (remove ids1 q)) = queue (remove (ids1 ++ ids2) q)
  ∧ queue (remove ids2 (remove ids1 q)) = queue (remove ids1 (remove ids2 q))
  ∧ ((∀ e, e ∈ queue q → event_id e ∉ ids1) → queue (remove ids1 q) = queue q).
Proof.
  rewrite !remove_filter.
  assert (Hcomp : ∀ a b,
    filter (λ e, event_id e ∉ b) (filter (λ e, event_id e ∉ a) (queue q))
    = filter (λ e, event_id e ∉ a ++ b) (queue q)).
  { intros a b. rewrite list_filter_filter. apply list_filter_iff.
    intros e. rewrite elem_of_app. tauto. }
  split; [apply Hcomp|]. split.
  - rewrite !Hcomp. apply list_filter_iff. intros e. rewrite !elem_of_app. tauto.
  - intros Hnone. now apply filter_all.
Qed.

End QueueMore.

(** ** Breadcrumb buffer *)

Section BreadcrumbFacts.
Import Breadcrumbs.

Lemma add_maxBreadcrumbs now b m : maxBreadcrumbs (add now b m) = maxBreadcrumbs m.
Proof. unfold add. now case_decide. Qed.

Lemma run_call_maxBreadcrumbs m c : maxBreadcrumbs (run_call m c) = maxBreadcrumbs m.
Proof. destruct c; [apply add_maxBreadcrumbs|reflexivity|reflexivity]. Qed.

Lemma shift_drop {A} (l : list A) : Queue.shift l = drop 1 l.
Proof. now destruct l. Qed.

Lemma add_count_bound now b m :
  count m ≤ maxBreadcrumbs m → count (add now b m) ≤ maxBreadcrumbs m.
Proof.
  unfold count, add, pruneOldBreadcrumbs. intros Hm.
  cbn [set_breadcrumbs breadcrumbs maxBreadcrumbs retentionMs].
  set (kept := filter _ (breadcrumbs m ++ [b])).
  assert (Hkept : length kept ≤ S (length (breadcrumbs m))).
  { unfold kept. etransitivity; [apply length_filter|]. rewrite length_app. cbn. lia. }
  case_decide as Hc; cbn [breadcrumbs set_breadcrumbs maxBreadcrumbs] in Hc |- *; [|lia].
  rewrite shift_drop, length_drop. lia.
Qed.

Lemma run_call_count_bound m c :
  count m ≤ maxBreadcrumbs m → count (run_call m c) ≤ maxBreadcrumbs m.
Proof.
  intros Hm. destruct c as [now b|now|]; cbn [run_call].
  - now apply add_count_bound.
  - unfold count, pruneOldBreadcrumbs. cbn. etransitivity; [apply length_filter|exact Hm].
  - unfold count, clear. cbn. lia.
Qed.

(** X5. A buffer never holds more than [maxBreadcrumbs] entries: the bound
    holds after every sequence of additions, sweeps and clears on a new
    buffer (so a buffer of bound 0 stays empty). *)
Theorem breadcrumbs_bounded (calls : list call) (maxBreadcrumbs_ : nat)
    (retentionMs_ : Z) (interval : nat) :
  count (run calls (new maxBreadcrumbs_ retentionMs_ interval)) ≤ maxBreadcrumbs_.
Proof.
  enough (H : ∀ m, count m ≤ maxBreadcrumbs m →
                   count (run calls m) ≤ maxBreadcrumbs m).
  { apply (H (new maxBreadcrumbs_ retentionMs_ interval)). cbn. lia. }
  induction calls as [|c calls IH]; intros m Hm; [exact Hm|].
  cbn [run fold_left]. rewrite <- (run_call_maxBreadcrumbs m c).
  apply IH. rewrite run_call_maxBreadcrumbs. now apply run_call_count_bound.
Qed.

(** X6. After [add] at time [now], every entry of the buffer is younger
    than the retention time and is the new breadcrumb or an entry that was
    there before, in the old order with the new one last; a breadcrumb that
    is itself too old is not stored. When nothing is too old and the buffer
    was within its bound, the result is the old content followed by the new
    breadcrumb, without its oldest entry if the buffer was full. *)
Theorem add_keeps_recent_in_order (now : Z) (b : Breadcrumb) (m : BreadcrumbManager) :
  (∀ x, x ∈ getAll (add now b m) → (now - timestamp x < retentionMs m)%Z)
  ∧ getAll (add now b m) `sublist_of` (getAll m ++ [b])
  ∧ (¬ (now - timestamp b < retentionMs m)%Z → b ∉ getAll (add now b m))
  ∧ ((∀ x, x ∈ getAll m ++ [b] → (now - timestamp x < retentionMs m)%Z) →
     count m ≤ maxBreadcrumbs m →
     getAll (add now b m) = drop (S (count m) - maxBreadcrumbs m) (getAll m ++ [b])).
Proof.
  unfold getAll, count, add, pruneOldBreadcrumbs.
  cbn [set_breadcrumbs breadcrumbs maxBreadcrumbs retentionMs].
  set (kept := filter (λ x, (now - timestamp x < retentionMs m)%Z) (breadcrumbs m ++ [b])).
  assert (Hres : breadcrumbs
            (if decide (maxBreadcrumbs m < length kept)
             then set_breadcrumbs (Queue.shift kept)
                    (set_breadcrumbs kept (set_breadcrumbs (breadcrumbs m ++ [b]) m))
             else set_breadcrumbs kept (set_breadcrumbs (breadcrumbs m ++ [b]) m))
          = if decide (maxBreadcrumbs m < length kept) then drop 1 kept else kept).
  { case_decide; cbn; [apply shift_drop|reflexivity]. }
  rewrite Hres. clear Hres.
  assert (Hin : ∀ x, x ∈ (if decide (maxBreadcrumbs m < length kept)
                          then drop 1 kept else kept) → x ∈ kept).
  { intros x. case_decide; [|tauto]. apply subseteq_drop. }
  split; [|split; [|split]].
  - intros x Hx. apply Hin in Hx. unfold kept in Hx.
    now apply list_elem_of_filter in Hx as [Hx _].
  - transitivity kept; [case_decide; [apply sublist_drop|reflexivity]|].
    apply sublist_filter.
  - intros Hold Hb. apply Hin in Hb. unfold kept in Hb.
    now apply list_elem_of_filter in Hb as [Hb _].
  - intros Hall Hm. unfold kept. rewrite (filter_all _ _ Hall).
    rewrite length_app. cbn [length].
    clear Hin. case_decide.
    + replace (S (length (breadcrumbs m)) - maxBreadcrumbs m) with 1 by lia. reflexivity.
    + replace (S (length (breadcrumbs m)) - maxBreadcrumbs m) with 0 by lia. reflexivity.
Qed.

End BreadcrumbFacts.

(** ** Deduplication: windows, independence, pruning *)

Section DedupMore.
Import Dedup.

Lemma shouldCapture_params now fp m :
  windowMs (shouldCapture now fp m).2 = windowMs m
  ∧ maxCount (shouldCapture now fp m).2 = maxCount m.
Proof.
  unfold shouldCapture. destruct (seen m !! fp); [case_decide|]; now split.
Qed.

(** Calls inside the window of an entry that has counted [c] occurrences. *)
Lemma shouldCapture_at_inside (later : list Z) : ∀ m fp c t0 tl,
  seen m !! fp = Some {| count := c; firstSeen := t0; lastSeen := tl |} →
  (∀ t, t ∈ later → (t - t0 ≤ windowMs m)%Z) →
  (shouldCapture_at later fp m).1
  = map (λ i : nat, bool_decide (c + Z.of_nat i + 1 ≤ maxCount m)%Z)
        (seq 0 (length later))
  ∧ ∃ tl', getStats fp (shouldCapture_at later fp m).2
           = Some {| count := c + Z.of_nat (length later); firstSeen := t0;
                     lastSeen := tl' |}
           ∧ maxCount (shouldCapture_at later fp m).2 = maxCount m.
Proof.
  induction later as [|t later IH]; intros m fp c t0 tl Hm Hin.
  - cbn. split; [reflexivity|]. exists tl. unfold getStats. rewrite Hm.
    split; [|reflexivity]. do 2 f_equal. lia.
  - cbn [shouldCapture_at].
    rewrite (shouldCapture_inside t fp m _ Hm) by (apply Hin; left).
    cbn [count firstSeen].
    specialize (IH (set_seen m (<[fp := {| count := c + 1; firstSeen := t0; lastSeen := t |}]> (seen m)))
                  fp (c + 1)%Z t0 t (seen_set_seen _ _ _ _)).
    destruct IH as [IHa (tl' & IHs & IHm)].
    { intros t' Ht'. cbn. apply Hin. now right. }
    destruct (shouldCapture_at later fp _) as [bs m'] eqn:Hrun.
    cbn [fst snd length seq map] in *. split.
    + f_equal; [apply bool_decide_ext; lia|].
      rewrite IHa. rewrite <- seq_shift, map_map.
      apply map_ext. intros i. apply bool_decide_ext. cbn [maxCount set_seen]. lia.
    + exists tl'. rewrite IHs, IHm. split; [|reflexivity]. do 2 f_equal. lia.
Qed.

(** X7. Calls on a fingerprint not yet seen, all within the window of the
    first: the first is admitted whatever [maxCount] is, the [k]-th is
    admitted exactly when [k <= maxCount], every call is counted, and
    [getSuppressedCount] is the excess of the count over [maxCount]. *)
Theorem shouldCapture_window_law (m : DeduplicationManager) (fp : jsstring)
    (t0 : Z) (later : list Z) :
  seen m !! fp = None →
  (∀ t, t ∈ later → (t - t0 ≤ windowMs m)%Z) →
  (shouldCapture_at (t0 :: later) fp m).1
  = true :: map (λ i : nat, bool_decide (Z.of_nat i + 2 ≤ maxCount m)%Z)
                (seq 0 (length later))
  ∧ count <$> getStats fp (shouldCapture_at (t0 :: later) fp m).2
    = Some (1 + Z.of_nat (length later))%Z
  ∧ getSuppressedCount fp (shouldCapture_at (t0 :: later) fp m).2
    = Z.max 0 (1 + Z.of_nat (length later) - maxCount m).
Proof.
  intros Hfresh Hin. cbn [shouldCapture_at].
  rewrite (shouldCapture_first t0 fp m Hfresh).
  destruct (shouldCapture_at_inside later
              (set_seen m (<[fp := {| count := 1; firstSeen := t0; lastSeen := t0 |}]> (seen m)))
              fp 1%Z t0 t0 (seen_set_seen _ _ _ _)) as [Ha (tl' & Hs & Hm)].
  { intros t Ht. cbn. now apply Hin. }
  destruct (shouldCapture_at later fp _) as [bs m'] eqn:Hrun.
  cbn [fst snd] in *. split; [|split].
  - f_equal. rewrite Ha. apply map_ext. intros i. apply bool_decide_ext. cbn. lia.
  - now rewrite Hs.
  - unfold getSuppressedCount. rewrite Hs, Hm. reflexivity.
Qed.

Lemma shouldCapture_window_law_witness :
  (shouldCapture_at [0; 10; 20; 30]%Z (str "f") (new 1000 2)).1
  = [true; true; false; false]
  ∧ getSuppressedCount (str "f")
      (shouldCapture_at [0; 10; 20; 30]%Z (str "f") (new 1000 2)).2 = 2%Z.
Proof.
  destruct (shouldCapture_window_law (new 1000 2) (str "f") 0 [10; 20; 30]%Z)
    as (Ha & _ & Hs).
  - reflexivity.
  - intros t Ht. rewrite !elem_of_cons, elem_of_nil in Ht. cbn.
    destruct Ht as [->|[->|[->|[]]]]; lia.
  - split; [exact Ha|exact Hs].
Defined.

(** X8. Fingerprints are deduplicated independently: a call for one
    fingerprint leaves the entry of every other fingerprint as it is, and
    its answer depends on no entry but its own. *)
Theorem shouldCapture_independent (now : Z) (fp other : jsstring)
    (m m' : DeduplicationManager) :
  other ≠ fp →
  getStats other (shouldCapture now fp m).2 = getStats other m
  ∧ (getStats fp m = getStats fp m' → windowMs m = windowMs m' →
     maxCount m = maxCount m' →
     (shouldCapture now fp m).1 = (shouldCapture now fp m').1
     ∧ getStats fp (shouldCapture now fp m).2 = getStats fp (shouldCapture now fp m').2).
Proof.
  intros Hne. split.
  - unfold shouldCapture, getStats.
    destruct (seen m !! fp); [case_decide|]; cbn; now rewrite lookup_insert_ne.
  - unfold getStats, shouldCapture. intros Hs Hw Hc. rewrite <- Hs, <- Hw, <- Hc.
    destruct (seen m !! fp); [case_decide|]; cbn; now rewrite !lookup_insert_eq.
Qed.

Lemma shouldCapture_independent_witness :
  getStats (str "g") (shouldCapture 5 (str "f") (shouldCapture 1 (str "g") (new 1000 2)).2).2
  = getStats (str "g") (shouldCapture 1 (str "g") (new 1000 2)).2.
Proof.
  apply (shouldCapture_independent 5 (str "f") (str "g")
           (shouldCapture 1 (str "g") (new 1000 2)).2 (new 1000 2)).
  discriminate.
Defined.

Lemma getStats_prune now fp m :
  getStats fp (prune now m)
  = match getStats fp m with
    | Some e => if decide (now - lastSeen e > windowMs m)%Z then None else Some e
    | None => None
    end.
Proof.
  unfold getStats, prune. cbn [seen set_seen].
  destruct (seen m !! fp) as [e|] eqn:He.
  - case_decide as Hold.
    + apply map_lookup_filter_None. right. intros e' He' Hkeep. cbn in Hkeep.
      rewrite He in He'. injection He' as <-. lia.
    + apply map_lookup_filter_Some. split; [exact He|]. exact Hold.
  - apply map_lookup_filter_None. now left.
Qed.

(** X9. Pruning only frees memory: it removes exactly the entries last seen
    more than a window ago, and for an entry whose [firstSeen] is not after
    its [lastSeen] a later [shouldCapture] answers the same, and leaves the
    same entry, whether or not the sweep ran before it. *)
Theorem prune_transparent (now now' : Z) (fp : jsstring) (m : DeduplicationManager) :
  (now ≤ now')%Z →
  (∀ e, getStats fp m = Some e → (firstSeen e ≤ lastSeen e)%Z) →
  (∀ g e, getStats g (prune now m) = Some e ↔
          getStats g m = Some e ∧ (now - lastSeen e ≤ windowMs m)%Z)
  ∧ (shouldCapture now' fp (prune now m)).1 = (shouldCapture now' fp m).1
  ∧ getStats fp (shouldCapture now' fp (prune now m)).2
    = getStats fp (shouldCapture now' fp m).2.
Proof.
  intros Hnow Hord. split.
  - intros g e. rewrite getStats_prune. destruct (getStats g m) as [e'|].
    + case_decide; split.
      * discriminate.
      * intros [[= ->] ?]. lia.
      * intros [= ->]. split; [reflexivity|lia].
      * now intros [? _].
    + split; [discriminate|now intros [? _]].
  - pose proof (getStats_prune now fp m) as Hp. unfold getStats in Hp, Hord.
    unfold shouldCapture, getStats. rewrite Hp.
    change (windowMs (prune now m)) with (windowMs m).
    change (maxCount (prune now m)) with (maxCount m).
    destruct (seen m !! fp) as [e|] eqn:He.
    + specialize (Hord e eq_refl). case_decide as Hold.
      * rewrite decide_True by lia. cbn. now rewrite !lookup_insert_eq.
      * case_decide; cbn; now rewrite !lookup_insert_eq.
    + cbn. now rewrite !lookup_insert_eq.
Qed.

Lemma prune_transparent_witness :
  (shouldCapture 5000 (str "f") (prune 4000 (shouldCapture 1 (str "f") (new 1000 2)).2)).1
  = (shouldCapture 5000 (str "f") (shouldCapture 1 (str "f") (new 1000 2)).2).1.
Proof.
  apply (prune_transparent 4000 5000 (str "f") (shouldCapture 1 (str "f") (new 1000 2)).2).
  - lia.
  - intros e He. vm_compute in He. injection He as <-. cbn. lia.
Defined.

End DedupMore.

(** ** Transport: pauses, result shape, exhausted budget *)

Section TransportMore.
Import Transport.

Lemma calculateBackoffDelay_cap t attempt r :
  (calculateBackoffDelay t attempt r ≤ maxDelayMs t)%Z.
Proof. unfold calculateBackoffDelay. lia. Qed.

Lemma retryDelay_cap t attempt r header :
  (retryDelay t attempt r header ≤ maxDelayMs t)%Z.
Proof.
  unfold retryDelay. pose proof (calculateBackoffDelay_cap t attempt r).
  destruct header as [[|c h]|]; try assumption.
  destruct (parseInt10 (c :: h)); [lia|assumption].
Qed.

Section Loop.
Variable t : Transport.
Variable events : list ErrorEvent.
Variable net : nat → fetched.
Variable random : nat → Q.

Lemma send_from_pauses remaining : ∀ attempt lastError lastStatus,
  attempt + remaining = maxAttempts t →
  length (sleeps (send_from t events net random remaining attempt lastError lastStatus))
  = fetches (send_from t events net random remaining attempt lastError lastStatus) - 1
  ∧ Forall (λ d, (d ≤ maxDelayMs t)%Z)
      (sleeps (send_from t events net random remaining attempt lastError lastStatus)).
Proof.
  induction remaining as [|n IH]; intros attempt le ls Hsum; [now split|].
  assert (Hnext : ∀ d le' ls',
    (d ≤ maxDelayMs t)%Z →
    length (sleeps (later (if decide (attempt < maxAttempts t - 1) then Some d else None)
                      (send_from t events net random n (S attempt) le' ls')))
    = fetches (later (if decide (attempt < maxAttempts t - 1) then Some d else None)
                 (send_from t events net random n (S attempt) le' ls')) - 1
    ∧ Forall (λ d, (d ≤ maxDelayMs t)%Z)
        (sleeps (later (if decide (attempt < maxAttempts t - 1) then Some d else None)
                   (send_from t events net random n (S attempt) le' ls')))).
  { intros d le' ls' Hd. destruct (IH (S attempt) le' ls') as [Hlen Hall]; [lia|].
    cbn [later sleeps fetches]. case_decide as Hlast.
    - destruct n as [|n]; [lia|].
      pose proof (fetches_pos t events net random n (S attempt) le' ls').
      cbn [length]. split; [lia|]. now constructor.
    - destruct n as [|n]; [|lia]. cbn. now split. }
  cbn [send_from].
  destruct (net attempt) as [r|msg];
    [destruct (ok r); [destruct (json r)|destruct (isRetryableError (status r))]|];
    cbn [negb]; try (now split);
    apply Hnext; first [apply calculateBackoffDelay_cap|apply retryDelay_cap].
Qed.

Lemma send_from_shape remaining : ∀ attempt lastError lastStatus,
  let s := response (send_from t events net random remaining attempt lastError lastStatus) in
  (success s = true →
     ∃ k r ids, attempt ≤ k < attempt + remaining ∧ net k = Responded r
                ∧ ok r = true ∧ json r = Json ids
                ∧ eventIds s = Some (default (map event_id events) ids)
                ∧ error s = None)
  ∧ (success s = false → eventIds s = None ∧ is_Some (error s)).
Proof.
  induction remaining as [|n IH]; intros attempt le ls; cbn zeta.
  - cbn. split; [discriminate|]. intros _. split; eauto.
  - assert (Hnext : ∀ d le' ls',
      let s := response (later d (send_from t events net random n (S attempt) le' ls')) in
      (success s = true →
         ∃ k r ids, attempt ≤ k < attempt + S n ∧ net k = Responded r
                    ∧ ok r = true ∧ json r = Json ids
                    ∧ eventIds s = Some (default (map event_id events) ids)
                    ∧ error s = None)
      ∧ (success s = false → eventIds s = None ∧ is_Some (error s))).
    { intros d le' ls'. cbn zeta. cbn [later response].
      destruct (IH (S attempt) le' ls') as [Hs Hf]. split; [|exact Hf].
      intros Hok. destruct (Hs Hok) as (k & r & ids & Hk & Hrest).
      exists k, r, ids. split; [lia|exact Hrest]. }
    cbn [send_from].
    destruct (net attempt) as [r|msg] eqn:Hnet;
      [destruct (ok r) eqn:Hok;
        [destruct (json r) as [m|ids] eqn:Hjson|destruct (isRetryableError (status r))]|];
      cbn [negb]; try apply Hnext.
    + cbn. split; [|discriminate]. intros _.
      exists attempt, r, ids. repeat split; try assumption; try lia.
    + cbn. split; [discriminate|]. intros _. split; eauto.
Qed.

(** When every attempt of the budget is retried, the failure reported is
    that of the last attempt. *)
Lemma send_from_exhausted remaining : ∀ attempt lastError lastStatus,
  (∀ j, attempt ≤ j < attempt + remaining → retried (net j) = true) →
  fetches (send_from t events net random remaining attempt lastError lastStatus) = remaining
  ∧ response (send_from t events net random remaining attempt lastError lastStatus)
    = {| success := false; eventIds := None;
         error := Some
           match remaining with
           | 0 => match lastStatus with
                  | Some status => http_error status lastError
                  | None => lastError
                  end
           | S n =>
               match net (attempt + n) with
               | Responded r =>
                   if ok r then match json r with BadJson m => m | Json _ => [] end
                   else http_error (status r) (text r)
               | Rejected m => m
               end
           end |}.
Proof.
  induction remaining as [|n IH]; intros attempt le ls Hret; [now split|].
  destruct (send_from_retried t events net random n attempt le ls) as (d & le1 & ls1 & Hstep & _).
  { apply Hret. lia. }
  pose proof (Hret attempt ltac:(lia)) as Hhere.
  cbn [send_from] in Hstep |- *. unfold retried in Hhere.
  destruct (IH (S attempt)) with (lastError := le1) (lastStatus := ls1) as [Hf Hr].
  { intros j Hj. apply Hret. lia. }
  assert (Hle : ∀ le' ls' pause,
     (match n with
      | 0 => match ls' with Some status => http_error status le' | None => le' end
      | S n' => match net (S attempt + n') with
                | Responded r =>
                    if ok r then match json r with BadJson m => m | Json _ => [] end
                    else http_error (status r) (text r)
                | Rejected m => m
                end
      end) =
     (match net (attempt + n) with
      | Responded r =>
          if ok r then match json r with BadJson m => m | Json _ => [] end
          else http_error (status r) (text r)
      | Rejected m => m
      end) →
     fetches (later pause (send_from t events net random n (S attempt) le' ls')) = S n
     ∧ response (later pause (send_from t events net random n (S attempt) le' ls'))
       = {| success := false; eventIds := None;
            error := Some match net (attempt + n) with
                          | Responded r =>
                              if ok r then match json r with BadJson m => m | Json _ => [] end
                              else http_error (status r) (text r)
                          | Rejected m => m
                          end |}).
  { intros le' ls' pause Heq.
    destruct (IH (S attempt) le' ls') as [Hf' Hr'].
    { intros j Hj. apply Hret. lia. }
    cbn [later fetches response]. rewrite Hf', Hr', Heq. now split. }
  destruct n as [|n'].
  - rewrite Nat.add_0_r in *.
    destruct (net attempt) as [r|msg];
      [destruct (ok r); [destruct (json r); [|discriminate]|rewrite Hhere; cbn [negb]]|];
      apply Hle; reflexivity.
  - replace (attempt + S n') with (S attempt + n') in * by lia.
    destruct (net attempt) as [r|msg];
      [destruct (ok r); [destruct (json r); [|discriminate]|rewrite Hhere; cbn [negb]]|];
      apply Hle; reflexivity.
Qed.

End Loop.

(** X10. [send] pauses exactly once between two consecutive calls of
    [fetch] and never after the last one, no pause is longer than the cap,
    and [fetch] is called at most [maxAttempts] times. *)
Theorem send_pauses_between_attempts (t : Transport) (events : list ErrorEvent)
    (net : nat → fetched) (random : nat → Q) :
  length (sleeps (send t events net random)) = fetches (send t events net random) - 1
  ∧ Forall (λ d, (d ≤ maxDelayMs t)%Z) (sleeps (send t events net random))
  ∧ fetches (send t events net random) ≤ maxAttempts t.
Proof.
  unfold send. destruct (endpoint t); [cbn; repeat split; [constructor|lia]|].
  destruct events; [cbn; repeat split; [constructor|lia]|].
  destruct (send_from_pauses t (e :: events) net random (maxAttempts t) 0 [] None eq_refl)
    as [Hlen Hall].
  repeat split; try assumption. apply fetches_le_remaining.
Qed.

(** X11. The answer of [send] is of one of two shapes: a success with the
    event ids and no error, or a failure with an error and no ids. It is a
    success only for an empty batch or when some attempt within the budget
    was answered 2xx with a readable body, and the ids are then those of
    that body or, if it names none, those of the batch. *)
Theorem send_result_shape (t : Transport) (events : list ErrorEvent)
    (net : nat → fetched) (random : nat → Q) :
  (success (response (send t events net random)) = true →
     error (response (send t events net random)) = None
     ∧ ((events = [] ∧ eventIds (response (send t events net random)) = Some [])
        ∨ ∃ k r ids, k < maxAttempts t ∧ net k = Responded r ∧ ok r = true
                     ∧ json r = Json ids
                     ∧ eventIds (response (send t events net random))
                       = Some (default (map event_id events) ids)))
  ∧ (success (response (send t events net random)) = false →
     eventIds (response (send t events net random)) = None
     ∧ is_Some (error (response (send t events net random)))).
Proof.
  unfold send. destruct (endpoint t).
  { cbn. split; [discriminate|]. intros _. split; eauto. }
  destruct events as [|e events].
  { cbn. split; [|discriminate]. intros _. split; [reflexivity|]. now left. }
  pose proof (send_from_shape t (e :: events) net random (maxAttempts t) 0 [] None) as H.
  cbn zeta in H. destruct H as [Hs Hf]. split; [|exact Hf].
  intros Hok. destruct (Hs Hok) as (k & r & ids & Hk & Hnet & Hokr & Hjson & Hids & Herr).
  split; [exact Herr|]. right. exists k, r, ids. repeat split; try assumption. lia.
Qed.

(** X12. When every attempt of the budget is retried, [send] gives up after
    exactly [maxAttempts] calls of [fetch] and reports the failure of the
    last attempt: its status and body, or the message of the rejection. *)
Theorem send_exhausted (t : Transport) (events : list ErrorEvent)
    (net : nat → fetched) (random : nat → Q) (last_attempt : nat) :
  endpoint t ≠ [] → events ≠ [] →
  maxAttempts t = S last_attempt →
  (∀ j, j < maxAttempts t → retried (net j) = true) →
  fetches (send t events net random) = maxAttempts t
  ∧ length (sleeps (send t events net random)) = last_attempt
  ∧ response (send t events net random)
    = {| success := false; eventIds := None;
         error := Some match net last_attempt with
                       | Responded r =>
                           if ok r
                           then match json r with BadJson m => m | Json _ => [] end
                           else http_error (status r) (text r)
                       | Rejected m => m
                       end |}.
Proof.
  intros Hend Hev Hmax Hret.
  rewrite (send_unfold t events net random Hend Hev).
  destruct (send_from_pauses t events net random (maxAttempts t) 0 [] None eq_refl)
    as [Hlen _].
  destruct (send_from_exhausted t events net random (maxAttempts t) 0 [] None) as [Hf Hr].
  { intros j Hj. apply Hret. lia. }
  rewrite Hlen, Hf, Hr, Hmax. cbn [Nat.add]. split; [reflexivity|]. split; [lia|reflexivity].
Qed.

Lemma send_exhausted_witness :
  fetches (send sample_transport [Queue.sample_event "a"]
             (λ _, Rejected (str "Failed to fetch")) half) = 3
  ∧ length (sleeps (send sample_transport [Queue.sample_event "a"]
                      (λ _, Rejected (str "Failed to fetch")) half)) = 2
  ∧ response (send sample_transport [Queue.sample_event "a"]
                (λ _, Rejected (str "Failed to fetch")) half)
    = {| success := false; eventIds := None; error := Some (str "Failed to fetch") |}.
Proof.
  apply (send_exhausted sample_transport [Queue.sample_event "a"]
           (λ _, Rejected (str "Failed to fetch")) half 2).
  - discriminate.
  - discriminate.
  - reflexivity.
  - intros j _. reflexivity.
Defined.

End TransportMore.

(** ** Capture: sampling, the debounce timer, shutdown *)

Section CaptureFacts.
Import Tracker Capture.

Lemma shouldSample_never c random :
  (sampleRate c <= 0)%Q → shouldSample c random = false.
Proof.
  intros Hle. unfold shouldSample.
  destruct (Qle_bool 1 (sampleRate c)) eqn:H1.
  - apply Qle_bool_iff in H1. lra.
  - apply Qle_bool_iff in Hle. now rewrite Hle.
Qed.

Lemma shouldSample_always c random :
  (1 <= sampleRate c)%Q → shouldSample c random = true.
Proof. intros Hle. unfold shouldSample. apply Qle_bool_iff in Hle. now rewrite Hle. Qed.

Lemma perform_dropped c t k :
  (sampleRate c <= 0)%Q → perform c t k = ([], t).
Proof.
  intros Hle.
  destruct k as [id now rnd e|id now rnd [e|s]|id now rnd m l]; cbn [perform];
    unfold captureException, captureError, captureMessage;
    rewrite ?(shouldSample_never c rnd Hle); cbn [negb];
    repeat match goal with |- context [if ?b then _ else _] => destruct b end;
    reflexivity.
Qed.

(** X13. With [sampleRate] at or below 0 no capture call does anything:
    each returns the empty id and the tracker, its queue and its timers are
    as before, whatever [Math.random()] returns. *)
Theorem capture_rate_zero (c : Selection) (calls : list call) (t : ErrorTracker) :
  (sampleRate c <= 0)%Q →
  run c calls t = t
  ∧ ∀ k t', (perform c t' k).1 = [] ∧ (perform c t' k).2 = t'.
Proof.
  intros Hle. split.
  - induction calls as [|k calls IH]; [reflexivity|].
    cbn [run fold_left]. unfold run_call at 2. rewrite perform_dropped by assumption.
    exact IH.
  - intros k t'. now rewrite perform_dropped.
Qed.

Lemma capture_rate_zero_witness :
  run {| sampleRate := 0; ignoreErrors := None |}
    [CaptureError (str "id-1") 5 (1 # 2) (sample_error "boom")] sample_tracker
  = sample_tracker.
Proof.
  apply (capture_rate_zero {| sampleRate := 0; ignoreErrors := None |}
           [CaptureError (str "id-1") 5 (1 # 2) (sample_error "boom")] sample_tracker).
  cbn. lra.
Defined.

Lemma config_debouncedSend t : config (debouncedSend t) = config t.
Proof. reflexivity. Qed.

Lemma perform_kept c t k :
  (1 <= sampleRate c)%Q →
  isInitialized t = true → enabled (config t) = true →
  shouldIgnoreError c (error_message (event_of k)) = false →
  (perform c t k).1 = event_id (event_of k)
  ∧ queue (perform c t k).2 = Queue.add (event_of k) (queue t)
  ∧ config (perform c t k).2 = config t
  ∧ isInitialized (perform c t k).2 = true.
Proof.
  intros Hrate Hinit Hen Hign.
  destruct k as [id now rnd e|id now rnd [e|s]|id now rnd m l]; cbn [perform];
    unfold captureException, captureError, captureMessage;
    cbn [event_of error_message event_id Fingerprint.message Fingerprint.name] in *;
    rewrite Hinit, Hen, Hign, (shouldSample_always c rnd Hrate); cbn [negb orb fst snd];
    repeat match goal with |- context [if ?b then _ else _] => destruct b end;
    repeat split; assumption.
Qed.

(** X14. With [sampleRate] at or above 1, on an initialized and enabled
    tracker, every capture call whose message no ignore pattern matches
    returns its event id and enqueues its event: the queue afterwards is the
    queue before with the events added one by one, whatever [Math.random()]
    returns. *)
Theorem capture_rate_one (c : Selection) (calls : list call) (t : ErrorTracker) :
  (1 <= sampleRate c)%Q →
  isInitialized t = true → enabled (config t) = true →
  (∀ k, k ∈ calls → shouldIgnoreError c (error_message (event_of k)) = false) →
  queue (run c calls t) = Queue.add_all (map event_of calls) (queue t)
  ∧ ∀ k t', isInitialized t' = true → enabled (config t') = true → k ∈ calls →
            (perform c t' k).1 = event_id (event_of k).
Proof.
  intros Hrate Hinit Hen Hign. split.
  - revert t Hinit Hen. induction calls as [|k calls IH]; intros t Hinit Hen; [reflexivity|].
    cbn [run fold_left map Queue.add_all].
    destruct (perform_kept c t k Hrate Hinit Hen) as (_ & Hq & Hc & Hi).
    { apply Hign. now left. }
    unfold run, Queue.add_all in IH. unfold run_call at 2. rewrite IH.
    + now rewrite Hq.
    + intros k' Hk'. apply Hign. now right.
    + exact Hi.
    + now rewrite Hc.
  - intros k t' Hinit' Hen' Hk.
    now destruct (perform_kept c t' k Hrate Hinit' Hen' (Hign k Hk)) as (Hid & _).
Qed.

Lemma capture_rate_one_witness :
  queue (run sample_selection
           [CaptureError (str "id-1") 5 (9 # 10) (sample_error "boom");
            CaptureMessage (str "id-2") 6 (9 # 10) (str "note") LevelInfo]
           sample_tracker)
  = Queue.add_all
      (map event_of [CaptureError (str "id-1") 5 (9 # 10) (sample_error "boom");
                     CaptureMessage (str "id-2") 6 (9 # 10) (str "note") LevelInfo])
      (queue sample_tracker).
Proof.
  apply (capture_rate_one sample_selection
           [CaptureError (str "id-1") 5 (9 # 10) (sample_error "boom");
            CaptureMessage (str "id-2") 6 (9 # 10) (str "note") LevelInfo]
           sample_tracker).
  - cbn. lra.
  - reflexivity.
  - reflexivity.
  - intros k _. reflexivity.
Defined.

Lemma size_union_le (X Y : gset nat) : size (X ∪ Y) ≤ size X + size Y.
Proof.
  rewrite size_union_alt. apply Nat.add_le_mono_l, subseteq_size.
  intros x. set_unfold. tauto.
Qed.

Lemma size_handle (h : option nat) : size (handle h) ≤ 1.
Proof. destruct h; cbn [handle]; [rewrite size_singleton|rewrite size_empty]; lia. Qed.

Lemma timers_held_init cfg now st : timers_held (init cfg now (boot st)).
Proof.
  unfold timers_held, heldTimers, init. cbn.
  destruct (sendOnErrorOnly cfg); cbn; repeat split; try (intros h [= <-]; lia);
    try discriminate; set_solver.
Qed.

Lemma timers_held_debouncedSend t : timers_held t → timers_held (debouncedSend t).
Proof.
  intros (Hlive & Hflush & Hsweep & Hdeb).
  unfold timers_held, heldTimers, debouncedSend in *. cbn [liveTimers flushIntervalId
    sendDebounceTimer breadcrumbSweep nextHandle handle] in *.
  split; [|split; [|split]].
  - rewrite Hlive.
    destruct (sendDebounceTimer t) as [d|] eqn:Hd; cbn [handle].
    + destruct (Hdeb d eq_refl) as [Hf Hs].
      destruct (flushIntervalId t) as [f|], (breadcrumbSweep t) as [b|]; cbn [handle];
        apply set_eq; intros x; set_unfold; intuition congruence.
    + apply set_eq; intros x; set_unfold; tauto.
  - intros h Hh. specialize (Hflush h Hh). lia.
  - intros h Hh. specialize (Hsweep h Hh). lia.
  - intros h [= <-]. split; intros Heq.
    + specialize (Hflush _ Heq). lia.
    + specialize (Hsweep _ Heq). lia.
Qed.

Lemma timers_held_set_queue q t : timers_held t → timers_held (set_queue q t).
Proof. exact id. Qed.

Lemma timers_held_perform c t k : timers_held t → timers_held (perform c t k).2.
Proof.
  intros Hheld.
  destruct k as [id now rnd e|id now rnd [e|s]|id now rnd m l]; cbn [perform];
    unfold captureException, captureError, captureMessage;
    repeat match goal with |- context [if ?b then _ else _] => destruct b end;
    cbn [snd]; try assumption;
    try apply timers_held_debouncedSend; apply timers_held_set_queue; assumption.
Qed.

Lemma timers_held_run c calls : ∀ t, timers_held t → timers_held (run c calls t).
Proof.
  induction calls as [|k calls IH]; intros t Hheld; [assumption|].
  cbn [run fold_left]. apply IH. now apply timers_held_perform.
Qed.

Lemma perform_fixed c t k :
  isInitialized (perform c t k).2 = isInitialized t
  ∧ config (perform c t k).2 = config t
  ∧ cleanupWindowHandlers (perform c t k).2 = cleanupWindowHandlers t
  ∧ windowListeners (perform c t k).2 = windowListeners t
  ∧ shutdownsAwaiting (perform c t k).2 = shutdownsAwaiting t
  ∧ flushIntervalId (perform c t k).2 = flushIntervalId t
  ∧ breadcrumbSweep (perform c t k).2 = breadcrumbSweep t
  ∧ consoleIntercepted (perform c t k).2 = consoleIntercepted t.
Proof.
  destruct k as [id now rnd e|id now rnd [e|s]|id now rnd m l]; cbn [perform];
    unfold captureException, captureError, captureMessage;
    repeat match goal with |- context [if ?b then _ else _] => destruct b end;
    cbn [snd]; repeat split.
Qed.

Lemma run_fixed c calls : ∀ t,
  isInitialized (run c calls t) = isInitialized t
  ∧ config (run c calls t) = config t
  ∧ cleanupWindowHandlers (run c calls t) = cleanupWindowHandlers t
  ∧ windowListeners (run c calls t) = windowListeners t
  ∧ shutdownsAwaiting (run c calls t) = shutdownsAwaiting t
  ∧ flushIntervalId (run c calls t) = flushIntervalId t
  ∧ breadcrumbSweep (run c calls t) = breadcrumbSweep t
  ∧ consoleIntercepted (run c calls t) = consoleIntercepted t.
Proof.
  induction calls as [|k calls IH]; intros t; [now repeat split|].
  cbn [run fold_left]. fold (run c calls (run_call c t k)).
  destruct (IH (run_call c t k)) as (-> & -> & -> & -> & -> & -> & -> & ->).
  apply (perform_fixed c t k).
Qed.

(** X15. On a tracker initialized once, however many errors, exceptions and
    messages are captured, no timer is live that the tracker does not hold a
    handle of: each capture that arms the debounce timer first clears the
    pending one, so at most three timers are live (the flush interval, the
    breadcrumb sweep and one debounce timer), and two in [sendOnErrorOnly]
    mode. *)
Theorem capture_one_debounce_timer (cfg : Config) (c : Selection) (now : Z)
    (st : Queue.stored) (calls : list call) :
  liveTimers (run c calls (init cfg now (boot st)))
  = heldTimers (run c calls (init cfg now (boot st)))
  ∧ size (liveTimers (run c calls (init cfg now (boot st))))
    ≤ (if sendOnErrorOnly cfg then 2 else 3).
Proof.
  pose proof (timers_held_run c calls _ (timers_held_init cfg now st)) as (Hlive & _).
  split; [exact Hlive|]. rewrite Hlive. unfold heldTimers.
  destruct (run_fixed c calls (init cfg now (boot st)))
    as (_ & _ & _ & _ & _ & Hflush & _ & _).
  rewrite Hflush.
  pose proof (size_handle (sendDebounceTimer (run c calls (init cfg now (boot st))))).
  pose proof (size_handle (breadcrumbSweep (run c calls (init cfg now (boot st))))).
  pose proof (size_handle (flushIntervalId (init cfg now (boot st)))) as Hf.
  etrans; [apply size_union_le|]. etrans; [apply Nat.add_le_mono_r, size_union_le|].
  cbn [init flushIntervalId isInitialized boot] in Hf |- *.
  destruct (sendOnErrorOnly cfg); cbn [handle] in Hf |- *.
  - rewrite size_empty. lia.
  - lia.
Qed.

Lemma finish_fixed response t :
  liveTimers (sendQueuedEvents_finish response t) = liveTimers t
  ∧ windowListeners (sendQueuedEvents_finish response t) = windowListeners t
  ∧ consoleIntercepted (sendQueuedEvents_finish response t) = consoleIntercepted t.
Proof.
  unfold sendQueuedEvents_finish.
  destruct (Transport.success response); [destruct (Transport.eventIds response)|];
    now repeat split.
Qed.

Lemma perform_uninitialized c t k :
  isInitialized t = false → perform c t k = ([], t).
Proof.
  intros Hinit.
  destruct k as [id now rnd e|id now rnd [e|s]|id now rnd m l]; cbn [perform];
    unfold captureException, captureError, captureMessage; now rewrite Hinit.
Qed.

Lemma run_uninitialized c calls t :
  isInitialized t = false → run c calls t = t.
Proof.
  intros Hinit. induction calls as [|k calls IH]; [reflexivity|].
  cbn [run fold_left]. unfold run_call at 2. now rewrite perform_uninitialized.
Qed.

Lemma shutdown_start_once (cfg : Config) (c : Selection) (now : Z)
    (st : Queue.stored) (calls : list call) :
  isInitialized (shutdown_start (run c calls (init cfg now (boot st)))) = true
  ∧ config (shutdown_start (run c calls (init cfg now (boot st)))) = cfg
  ∧ queue (shutdown_start (run c calls (init cfg now (boot st))))
    = queue (run c calls (init cfg now (boot st)))
  ∧ nextHandle (shutdown_start (run c calls (init cfg now (boot st))))
    = nextHandle (run c calls (init cfg now (boot st)))
  ∧ sendDebounceTimer (shutdown_start (run c calls (init cfg now (boot st)))) = None
  ∧ liveTimers (shutdown_start (run c calls (init cfg now (boot st)))) = ∅
  ∧ windowListeners (shutdown_start (run c calls (init cfg now (boot st)))) = ∅
  ∧ consoleIntercepted (shutdown_start (run c calls (init cfg now (boot st)))) = false
  ∧ shutdownsAwaiting (shutdown_start (run c calls (init cfg now (boot st))))
    = [sendQueuedEvents_start (run c calls (init cfg now (boot st)))].
Proof.
  set (t := run c calls (init cfg now (boot st))).
  pose proof (timers_held_run c calls _ (timers_held_init cfg now st)) as (Hlive & _).
  fold t in Hlive.
  destruct (run_fixed c calls (init cfg now (boot st)))
    as (Hinit & Hcfg & Hclean & Hwin & Hawait & _).
  fold t in Hinit, Hcfg, Hclean, Hwin, Hawait.
  cbn [init boot isInitialized config cleanupWindowHandlers windowListeners
       shutdownsAwaiting nextHandle] in Hinit, Hcfg, Hclean, Hwin, Hawait.
  unfold shutdown_start. rewrite Hinit.
  cbn [negb isInitialized config queue nextHandle sendDebounceTimer liveTimers
       windowListeners consoleIntercepted shutdownsAwaiting].
  rewrite Hlive, Hclean, Hwin, Hawait. unfold heldTimers.
  repeat split; try assumption.
  destruct (flushIntervalId t), (sendDebounceTimer t), (breadcrumbSweep t);
    cbn [handle]; apply set_eq; intros x; set_unfold; tauto.
Qed.

(** X16. [shutdown] of a tracker initialized once, after any captures: by
    the time it waits for its final flush every timer is cleared, the window
    handlers are removed and the console is restored, while the queue is
    untouched and handed to the flush; once the flush has settled the
    tracker is uninitialized, still without timer or handler, and further
    captures return the empty id and change nothing. *)
Theorem shutdown_releases (cfg : Config) (c : Selection) (now : Z)
    (st : Queue.stored) (calls calls' : list call)
    (net : nat → Transport.fetched) (random : nat → Q) :
  liveTimers (shutdown_start (run c calls (init cfg now (boot st)))) = ∅
  ∧ windowListeners (shutdown_start (run c calls (init cfg now (boot st)))) = ∅
  ∧ consoleIntercepted (shutdown_start (run c calls (init cfg now (boot st)))) = false
  ∧ queue (shutdown_start (run c calls (init cfg now (boot st))))
    = queue (run c calls (init cfg now (boot st)))
  ∧ shutdownsAwaiting (shutdown_start (run c calls (init cfg now (boot st))))
    = [sendQueuedEvents_start (run c calls (init cfg now (boot st)))]
  ∧ isInitialized (shutdown_resume net random
       (shutdown_start (run c calls (init cfg now (boot st))))) = false
  ∧ liveTimers (shutdown_resume net random
       (shutdown_start (run c calls (init cfg now (boot st))))) = ∅
  ∧ windowListeners (shutdown_resume net random
       (shutdown_start (run c calls (init cfg now (boot st))))) = ∅
  ∧ run c calls' (shutdown_resume net random
       (shutdown_start (run c calls (init cfg now (boot st)))))
    = shutdown_resume net random
        (shutdown_start (run c calls (init cfg now (boot st)))).
Proof.
  destruct (shutdown_start_once cfg c now st calls)
    as (_ & _ & Hqueue & _ & _ & Hlive & Hwin & Hconsole & Hawait).
  set (t := run c calls (init cfg now (boot st))) in *.
  assert (Hres : isInitialized (shutdown_resume net random (shutdown_start t)) = false
                 ∧ liveTimers (shutdown_resume net random (shutdown_start t)) = ∅
                 ∧ windowListeners (shutdown_resume net random (shutdown_start t)) = ∅).
  { unfold shutdown_resume. rewrite Hawait.
    destruct (sendQueuedEvents_start t) as [|via batch]; cbn [isInitialized liveTimers
      windowListeners]; [now repeat split|].
    destruct (finish_fixed
                (Transport.response (Transport.send via batch net random))
                (shutdown_start t)) as (-> & -> & _).
    now repeat split. }
  destruct Hres as (Hoff & Hres_live & Hres_win).
  repeat split; try assumption. now apply run_uninitialized.
Qed.

(** X29. [shutdown] does not stop captures while it waits for its final
    flush: an error captured in that interval (in [sendOnErrorOnly] mode,
    sampled in and not ignored) is accepted, and the debounce timer it arms
    is not cleared. When the shutdown has completed the tracker is
    uninitialized and exactly that one timer is still live. *)
Theorem capture_during_shutdown (cfg : Config) (c : Selection) (now : Z)
    (st : Queue.stored) (calls : list call)
    (eventId : jsstring) (at_ : Z) (rnd : Q) (error : Fingerprint.JsError)
    (net : nat → Transport.fetched) (random : nat → Q) :
  sendOnErrorOnly cfg = true → enabled cfg = true →
  (1 <= sampleRate c)%Q →
  shouldIgnoreError c (Fingerprint.message error) = false →
  (captureError c eventId at_ rnd error
     (shutdown_start (run c calls (init cfg now (boot st))))).1 = eventId
  ∧ isInitialized
      (shutdown_resume net random
         (captureError c eventId at_ rnd error
            (shutdown_start (run c calls (init cfg now (boot st))))).2) = false
  ∧ liveTimers
      (shutdown_resume net random
         (captureError c eventId at_ rnd error
            (shutdown_start (run c calls (init cfg now (boot st))))).2)
    = {[ nextHandle (run c calls (init cfg now (boot st))) ]}.
Proof.
  intros Hmode Hen Hrate Hign.
  destruct (shutdown_start_once cfg c now st calls)
    as (Hinit & Hcfg & _ & Hnext & Hdeb & Hlive & _ & _ & Hawait).
  set (t := run c calls (init cfg now (boot st))) in *.
  unfold captureError. rewrite Hinit, Hcfg, Hen, Hign.
  rewrite (shouldSample_always c rnd Hrate), Hmode. cbn [negb orb fst snd].
  split; [reflexivity|].
  assert (Hafter : liveTimers (debouncedSend (enqueue
              {| event_id := eventId; timestamp := at_;
                 error_message := Fingerprint.message error;
                 error_type := Fingerprint.name error |} (shutdown_start t)))
            = {[ nextHandle t ]}).
  { cbn [debouncedSend enqueue set_queue liveTimers sendDebounceTimer nextHandle].
    rewrite Hdeb, Hlive, Hnext. apply set_eq. intros x. set_unfold. tauto. }
  unfold shutdown_resume.
  cbn [debouncedSend enqueue set_queue shutdownsAwaiting]. rewrite Hawait.
  destruct (sendQueuedEvents_start t) as [|via batch];
    cbn [isInitialized liveTimers]; (split; [reflexivity|]).
  - exact Hafter.
  - match goal with |- liveTimers (sendQueuedEvents_finish ?r ?u) = _ =>
      destruct (finish_fixed r u) as (-> & _) end.
    exact Hafter.
Qed.

Lemma capture_during_shutdown_witness :
  liveTimers
    (shutdown_resume (Transport.net_accepts None) Transport.half
       (captureError sample_selection (str "id-9") 7 (1 # 2) (sample_error "late")
          (shutdown_start (run sample_selection [] (init sample_config 0 (boot Queue.NoData))))).2)
  = {[ nextHandle (run sample_selection [] (init sample_config 0 (boot Queue.NoData))) ]}.
Proof.
  apply (capture_during_shutdown sample_config sample_selection 0 Queue.NoData []
           (str "id-9") 7 (1 # 2) (sample_error "late")
           (Transport.net_accepts None) Transport.half).
  - reflexivity.
  - reflexivity.
  - cbn. lra.
  - reflexivity.
Defined.

End CaptureFacts.

(** ** Storage: reading back, clearing *)

Section StorageFacts.
Import Storage.

(** X17. What [getItem] gives after [setItem] on the same key. When
    [localStorage] behaves the same for the write and the read (it works for
    both, or fails for both, or the wrapper found it unavailable), the value
    written is read back, except that an empty string kept in the memory
    store reads as null. When [localStorage] rejects the write but answers
    the read, the value written is not seen: the read gives what
    [localStorage] held before. Other keys read as before in every case. *)
Theorem getItem_setItem (s : SafeStorage) (key value other : jsstring)
    (write_throws read_throws : bool) :
  (isAvailable s && negb write_throws = isAvailable s && negb read_throws →
   getItem read_throws key (setItem write_throws key value s)
   = if isAvailable s && negb read_throws then Some value
     else match value with [] => None | _ => Some value end)
  ∧ (isAvailable s = true → write_throws = true → read_throws = false →
     getItem read_throws key (setItem write_throws key value s)
     = localStorage s !! key)
  ∧ (other ≠ key →
     getItem read_throws other (setItem write_throws key value s)
     = getItem read_throws other s).
Proof.
  unfold getItem, setItem. repeat split.
  - intros Hsame. destruct (isAvailable s && negb write_throws) eqn:Hmode;
      cbn [isAvailable localStorage memoryStore]; rewrite <- Hsame, lookup_insert_eq;
      [reflexivity|now destruct value].
  - intros Hav -> ->. rewrite Hav. reflexivity.
  - intros Hne.
    destruct (isAvailable s && negb write_throws);
      cbn [isAvailable localStorage memoryStore];
      destruct (isAvailable s && negb read_throws);
      try rewrite lookup_insert_ne by congruence; reflexivity.
Qed.

Lemma startsWith_spec (k p : jsstring) : startsWith k p = true ↔ p `prefix_of` k.
Proof. unfold startsWith. apply bool_decide_eq_true. Qed.

(** X18. [clear] removes from [localStorage] exactly the keys that start
    with [sentinel_] and leaves every other key with its value; it then
    keeps the memory store as it is. When [localStorage] is unavailable or
    throws, [clear] empties the memory store and leaves [localStorage]
    untouched. *)
Theorem clear_only_sentinel_keys (s : SafeStorage) (throws : bool) (key : jsstring) :
  (isAvailable s && negb throws = true →
   localStorage (clear throws s) !! key
   = (if startsWith key (str "sentinel_") then None else localStorage s !! key)
   ∧ memoryStore (clear throws s) = memoryStore s)
  ∧ (isAvailable s && negb throws = false →
     localStorage (clear throws s) = localStorage s
     ∧ memoryStore (clear throws s) = ∅)
  ∧ (startsWith key (str "sentinel_") = false →
     localStorage (clear throws s) !! key = localStorage s !! key).
Proof.
  assert (Hkeep : startsWith key (str "sentinel_") = false →
    filter (λ kv, startsWith kv.1 (str "sentinel_") = false) (localStorage s) !! key
    = localStorage s !! key).
  { intros Hs. destruct (localStorage s !! key) as [v|] eqn:Hl.
    - apply map_lookup_filter_Some. now split.
    - apply map_lookup_filter_None. now left. }
  unfold clear. split; [|split].
  - intros ->. cbn [localStorage memoryStore]. split; [|reflexivity].
    destruct (startsWith key (str "sentinel_")) eqn:Hs; [|now apply Hkeep].
    apply map_lookup_filter_None. right. intros v _. cbn [fst]. congruence.
  - intros ->. now split.
  - intros Hs. destruct (isAvailable s && negb throws); cbn [localStorage];
      [now apply Hkeep|reflexivity].
Qed.

End StorageFacts.

(** ** Sessions: resuming, counting, saving *)

Section SessionFacts.
Import Session.
Open Scope Z_scope.

(** X19. A session saved by one manager and found by a manager constructed
    at time [now]: it is resumed (same id, start and counters, [lastActiveAt]
    set to [now], [isNew] false) exactly when less than 30 minutes have
    passed since its last activity, and otherwise a new session is started
    with a new id, one page view and no error; the session decided on is
    saved at once. *)
Theorem session_resume_rule (m : SessionManager) (s : SessionData)
    (uuid : jsstring) (now : Z) :
  session m = Some s →
  session (new uuid now (persisted (saveSession m)))
  = Some (if decide (now - lastActiveAt (fields s) < 30 * 60 * 1000)
          then {| fields := {| sessionId := sessionId (fields s);
                               startedAt := startedAt (fields s);
                               lastActiveAt := now;
                               pageViews := pageViews (fields s);
                               errorCount := errorCount (fields s) |};
                  isNew := false |}
          else {| fields := {| sessionId := uuid; startedAt := now;
                               lastActiveAt := now; pageViews := 1;
                               errorCount := 0 |};
                  isNew := true |})
  ∧ ∀ s', session (new uuid now (persisted (saveSession m))) = Some s' →
          persisted (new uuid now (persisted (saveSession m))) = Saved (fields s').
Proof.
  intros Hs. unfold saveSession. rewrite Hs. cbn [persisted].
  unfold new, initSession, saveSession, resumed_or_started, loadSession.
  cbn [session set_session persisted].
  change SESSION_TIMEOUT_MS with (30 * 60 * 1000).
  split.
  - now destruct (decide (now - lastActiveAt (fields s) < 30 * 60 * 1000)).
  - intros s' [= <-]. reflexivity.
Qed.

Lemma session_resume_rule_witness :
  session (new (str "s-2") 1000
             (persisted (saveSession (new (str "s-1") 0 NoData))))
  = Some {| fields := {| sessionId := str "s-1"; startedAt := 0;
                         lastActiveAt := 1000; pageViews := 1; errorCount := 0 |};
            isNew := false |}.
Proof.
  apply (session_resume_rule (new (str "s-1") 0 NoData)
           {| fields := {| sessionId := str "s-1"; startedAt := 0;
                           lastActiveAt := 0; pageViews := 1; errorCount := 0 |};
              isNew := true |} (str "s-2") 1000).
  reflexivity.
Defined.

Lemma tally_cons test c calls :
  tally test (c :: calls) = (if test c then 1 else 0) + tally test calls.
Proof.
  unfold tally. rewrite filter_cons.
  destruct (test c); [rewrite decide_True by reflexivity|rewrite decide_False by discriminate];
    cbn [length]; lia.
Qed.

Lemma run_call_counts m c s :
  session m = Some s →
  ∃ s', session (run_call m c) = Some s'
        ∧ sessionId (fields s') = sessionId (fields s)
        ∧ startedAt (fields s') = startedAt (fields s)
        ∧ isNew s' = isNew s
        ∧ pageViews (fields s') = pageViews (fields s) + (if is_pageView c then 1 else 0)
        ∧ errorCount (fields s') = errorCount (fields s) + (if is_error c then 1 else 0).
Proof.
  intros Hs.
  destruct c as [h now|h now|h now|]; cbn [run_call is_pageView is_error];
    unfold recordPageView, recordError, touch, updateActivity, saveTimerFires,
      debouncedSave, saveSession;
    rewrite ?Hs; cbn [session set_session];
    repeat match goal with |- context [if ?b then _ else _] => destruct b end;
    rewrite ?Hs; cbn [session set_session];
    eexists; (split; [first [reflexivity|eassumption]|]);
    cbn [fields sessionId startedAt isNew pageViews errorCount]; repeat split; lia.
Qed.

(** X20. Between construction and [endSession] the session keeps its id,
    its start and its [isNew] flag, and its counters count exactly the calls
    made: [pageViews] grows by the number of [recordPageView] calls and
    [errorCount] by the number of [recordError] calls, whether or not the
    save was throttled or debounced. *)
Theorem session_counts_calls (calls : list call) (m : SessionManager) (s : SessionData) :
  session m = Some s →
  ∃ s', session (run calls m) = Some s'
        ∧ sessionId (fields s') = sessionId (fields s)
        ∧ startedAt (fields s') = startedAt (fields s)
        ∧ isNew s' = isNew s
        ∧ pageViews (fields s') = pageViews (fields s) + tally is_pageView calls
        ∧ errorCount (fields s') = errorCount (fields s) + tally is_error calls.
Proof.
  revert m s. induction calls as [|c calls IH]; intros m s Hs.
  - exists s. unfold tally. cbn. repeat split; try assumption; lia.
  - destruct (run_call_counts m c s Hs) as (s1 & Hs1 & Hid1 & Hst1 & Hnew1 & Hpv1 & Hec1).
    destruct (IH (run_call m c) s1 Hs1) as (s' & Hs' & Hid & Hst & Hnew & Hpv & Hec).
    exists s'. cbn [run fold_left]. fold (run calls (run_call m c)).
    rewrite !tally_cons. repeat split; try assumption; try congruence; lia.
Qed.

Lemma session_counts_calls_witness :
  ∃ s', session (run [RecordError 1 10; RecordPageView 2 20; RecordError 3 30]
                   (new (str "s-1") 0 NoData)) = Some s'
        ∧ sessionId (fields s') = str "s-1"
        ∧ startedAt (fields s') = 0
        ∧ isNew s' = true
        ∧ pageViews (fields s') = 2
        ∧ errorCount (fields s') = 2.
Proof.
  apply (session_counts_calls [RecordError 1 10; RecordPageView 2 20; RecordError 3 30]
           (new (str "s-1") 0 NoData)
           {| fields := {| sessionId := str "s-1"; startedAt := 0;
                           lastActiveAt := 0; pageViews := 1; errorCount := 0 |};
              isNew := true |}).
  reflexivity.
Defined.

Lemma saved_or_pending_new uuid now st : saved_or_pending (new uuid now st).
Proof.
  unfold saved_or_pending, new, initSession, saveSession. cbn [session set_session].
  eexists _, _. split; [reflexivity|]. split; [reflexivity|].
  cbn [persisted]. repeat split; lia.
Qed.

Lemma saved_or_pending_run_call m c : saved_or_pending m → saved_or_pending (run_call m c).
Proof.
  intros (s & p & Hs & Hp & Hid & Hst & Hpv & Hec & Hsaved).
  unfold saved_or_pending.
  destruct c as [h now|h now|h now|]; cbn [run_call];
    unfold recordPageView, recordError, touch, updateActivity, saveTimerFires,
      debouncedSave, saveSession;
    rewrite ?Hs; cbn [session set_session];
    repeat match goal with |- context [if ?b then _ else _] => destruct b eqn:? end;
    rewrite ?Hs; cbn [session set_session savePending persisted];
    eexists _, _; (split; [first [reflexivity|eassumption]|]);
    (split; [first [reflexivity|eassumption]|]);
    cbn [fields sessionId startedAt isNew pageViews errorCount];
    repeat split; try lia; try congruence; try discriminate; try assumption;
    intros _; now apply Hsaved.
Qed.

Lemma saved_or_pending_run calls : ∀ m, saved_or_pending m → saved_or_pending (run calls m).
Proof.
  induction calls as [|c calls IH]; intros m Hm; [assumption|].
  cbn [run fold_left]. apply IH. now apply saved_or_pending_run_call.
Qed.

(** X21. At every moment after construction, what the manager last handed
    to [storage.setItem] for the session key is the current session (same
    id and start) with counters that are not ahead of the ones in memory;
    whenever no save is pending it is exactly the current session, and
    [destroy] clears the pending save and hands over exactly the current
    session. Whether a later read returns that value is a matter of
    [SafeStorage]. *)
Theorem session_saved_or_pending (uuid : jsstring) (now : Z) (st : stored)
    (calls : list call) :
  ∃ s p, session (run calls (new uuid now st)) = Some s
         ∧ persisted (run calls (new uuid now st)) = Saved p
         ∧ sessionId p = sessionId (fields s)
         ∧ startedAt p = startedAt (fields s)
         ∧ pageViews p ≤ pageViews (fields s)
         ∧ errorCount p ≤ errorCount (fields s)
         ∧ (savePending (run calls (new uuid now st)) = false → p = fields s)
         ∧ persisted (destroy (run calls (new uuid now st))) = Saved (fields s)
         ∧ savePending (destroy (run calls (new uuid now st))) = false.
Proof.
  destruct (saved_or_pending_run calls _ (saved_or_pending_new uuid now st))
    as (s & p & Hs & Hp & Hrest).
  exists s, p. split; [exact Hs|]. split; [exact Hp|].
  destruct Hrest as (Hid & Hst & Hpv & Hec & Hsaved).
  repeat split; try assumption.
  - unfold destroy, saveSession. cbn [session]. now rewrite Hs.
  - unfold destroy, saveSession. cbn [session]. now rewrite Hs.
Qed.

End SessionFacts.

(** ** Sanitizer: what comes out *)

Section RedactionFacts.
Import Sanitizer Redaction.

(** *** The built-in patterns *)

Lemma matches_here_word (w s : jsstring) :
  Forall (λ c, lower c = c) w →
  matches_here (map Ch w) s = bool_decide (take (length w) (map lower s) = w).
Proof.
  intros Hw. revert s. induction Hw as [|c w Hc _ IH]; intros s; cbn [map matches_here length].
  - rewrite take_0. now rewrite bool_decide_eq_true_2.
  - destruct s as [|x s]; cbn [map take].
    + now rewrite bool_decide_eq_false_2.
    + rewrite IH, Hc. apply eq_true_iff_eq.
      rewrite andb_true_iff, !bool_decide_eq_true. split.
      * intros [-> ->]. reflexivity.
      * intros [= -> ->]. now split.
Qed.

Lemma test_word (w key : jsstring) :
  Forall (λ c, lower c = c) w →
  test (map Ch w) key = Fingerprint.includes w (map lower key).
Proof.
  intros Hw. induction key as [|x key IH]; cbn [test Fingerprint.includes map].
  - now rewrite matches_here_word.
  - now rewrite matches_here_word, IH.
Qed.

Lemma separator_choice (x : ascii) :
  bool_decide (x ∈ str "_-")
  = bool_decide (lower x = lower "_") || bool_decide (lower x = lower "-").
Proof. destruct x as [[] [] [] [] [] [] [] []]; vm_compute; reflexivity. Qed.

Lemma matches_here_separator (a b : jsstring) (s : jsstring) :
  matches_here (map Ch a ++ OptOf (str "_-") :: map Ch b) s
  = matches_here (map Ch (a ++ "_"%char :: b)) s
    || matches_here (map Ch (a ++ "-"%char :: b)) s
    || matches_here (map Ch (a ++ b)) s.
Proof.
  revert s. induction a as [|c a IH]; intros s.
  - cbn [app map matches_here]. destruct s as [|x s].
    + reflexivity.
    + rewrite separator_choice.
      destruct (bool_decide (lower x = lower "_")), (bool_decide (lower x = lower "-")),
        (matches_here (map Ch b) s), (matches_here (map Ch b) (x :: s)); reflexivity.
  - cbn [app map matches_here]. destruct s as [|x s]; [reflexivity|].
    rewrite IH. destruct (bool_decide (lower x = lower c)); cbn [andb]; reflexivity.
Qed.

Lemma test_separator (a b key : jsstring) :
  test (map Ch a ++ OptOf (str "_-") :: map Ch b) key
  = test (map Ch (a ++ "_"%char :: b)) key
    || test (map Ch (a ++ "-"%char :: b)) key
    || test (map Ch (a ++ b)) key.
Proof.
  induction key as [|x key IH]; cbn [test]; rewrite matches_here_separator.
  - now rewrite !orb_false_r.
  - rewrite IH.
    repeat match goal with |- context [matches_here ?p ?s] =>
      destruct (matches_here p s) end;
    repeat match goal with |- context [test ?p ?s] => destruct (test p s) end;
    reflexivity.
Qed.

Lemma includes_spec (sub s : jsstring) :
  Fingerprint.includes sub s = true ↔ ∃ before after, s = before ++ sub ++ after.
Proof.
  induction s as [|x s IH]; cbn [Fingerprint.includes].
  - rewrite orb_false_r, bool_decide_eq_true, take_nil. split.
    + intros <-. now exists [], [].
    + intros (before & after & Heq). symmetry in Heq.
      apply app_eq_nil in Heq as [_ Heq]. now apply app_eq_nil in Heq as [-> _].
  - rewrite orb_true_iff, bool_decide_eq_true, IH. split.
    + intros [Htake|(before & after & ->)].
      * exists [], (drop (length sub) (x :: s)). cbn [app].
        rewrite <- Htake at 1. now rewrite take_drop.
      * now exists (x :: before), after.
    + intros ([|y before] & after & Heq).
      * left. cbn [app] in Heq. rewrite Heq. now rewrite take_app_length.
      * right. injection Heq as -> ->. now exists before, after.
Qed.

Lemma includes_app_r (a b s : jsstring) :
  Fingerprint.includes (a ++ b) s = true → Fingerprint.includes b s = true.
Proof.
  rewrite !includes_spec. intros (before & after & ->).
  exists (before ++ a), after. now rewrite <- !app_assoc.
Qed.

Lemma includes_app_l (a b s : jsstring) :
  Fingerprint.includes (a ++ b) s = true → Fingerprint.includes a s = true.
Proof.
  rewrite !includes_spec. intros (before & after & ->).
  exists before, (b ++ after). now rewrite <- !app_assoc.
Qed.

Lemma lowercase_word (w : jsstring) :
  forallb (λ c, bool_decide (lower c = c)) w = true →
  Forall (λ c, lower c = c) w.
Proof.
  intros H. apply Forall_forall. intros c Hc. rewrite forallb_forall in H.
  apply (bool_decide_eq_true_1 (lower c = c)), H. now apply list_elem_of_In.
Qed.

Lemma default_patterns_words (key : jsstring) :
  existsb (λ pattern, pattern key) DEFAULT_REDACT_PATTERNS = mentions_sensitive_word key.
Proof.
  unfold DEFAULT_REDACT_PATTERNS, mentions_sensitive_word, SENSITIVE_WORDS, word.
  cbn [map existsb app].
  change (map Ch (str "access") ++ [OptOf (str "_-")] ++ map Ch (str "token"))
    with (map Ch (str "access") ++ OptOf (str "_-") :: map Ch (str "token")).
  change (map Ch (str "refresh") ++ [OptOf (str "_-")] ++ map Ch (str "token"))
    with (map Ch (str "refresh") ++ OptOf (str "_-") :: map Ch (str "token")).
  change (map Ch (str "api") ++ [OptOf (str "_-")] ++ map Ch (str "key"))
    with (map Ch (str "api") ++ OptOf (str "_-") :: map Ch (str "key")).
  rewrite !test_separator.
  change (str "access" ++ "_"%char :: str "token") with (str "access_" ++ str "token").
  change (str "access" ++ "-"%char :: str "token") with (str "access-" ++ str "token").
  change (str "refresh" ++ "_"%char :: str "token") with (str "refresh_" ++ str "token").
  change (str "refresh" ++ "-"%char :: str "token") with (str "refresh-" ++ str "token").
  change (str "api" ++ "_"%char :: str "key") with (str "api_key").
  change (str "api" ++ "-"%char :: str "key") with (str "api-key").
  change (str "api" ++ str "key") with (str "apikey").
  change (str "authorization") with (str "auth" ++ str "orization").
  rewrite !test_word by (apply lowercase_word; vm_compute; reflexivity).
  set (k := map lower key).
  pose proof (includes_app_r (str "access_") (str "token") k).
  pose proof (includes_app_r (str "access-") (str "token") k).
  pose proof (includes_app_r (str "access") (str "token") k).
  pose proof (includes_app_r (str "refresh_") (str "token") k).
  pose proof (includes_app_r (str "refresh-") (str "token") k).
  pose proof (includes_app_r (str "refresh") (str "token") k).
  pose proof (includes_app_l (str "auth") (str "orization") k).
  repeat match goal with |- context [Fingerprint.includes ?w k] =>
    let b := fresh "b" in
    set (b := Fingerprint.includes w k) in *; clearbody b end.
  repeat match goal with b : bool |- _ => destruct b end;
    cbn [orb] in *; try reflexivity;
    repeat match goal with H : true = true → _ |- _ => specialize (H eq_refl) end;
    congruence.
Qed.

(** X24. Which keys are redacted. The built-in patterns match exactly the
    keys that contain, case ignored, one of the words password, token,
    secret, auth, bearer, apikey, api_key and api-key: those for access
    tokens, refresh tokens and authorization add nothing to those for token
    and auth. With [autoRedact] on such a key is redacted whatever the
    custom patterns are, and they are not even tried. When no custom pattern
    carries [g] or [y], a key is redacted exactly when it is such a key and
    [autoRedact] is on, or a custom pattern matches it. *)
Theorem shouldRedact_words (s : DataSanitizer) (key : jsstring) (σ : regexps) :
  existsb (λ test, test key) DEFAULT_REDACT_PATTERNS = mentions_sensitive_word key
  ∧ (autoRedact s = true → mentions_sensitive_word key = true →
     shouldRedact s key σ = (Returns true, σ))
  ∧ (stateless s σ →
     shouldRedact s key σ
     = (Returns (autoRedact s && mentions_sensitive_word key
                 || existsb (λ a, bool_decide (is_Some (exec (σ a) 0 key)))
                      (customPatterns s)), σ)).
Proof.
  split; [apply default_patterns_words|]. split.
  - intros Hauto Hword. apply shouldRedact_builtin; [assumption|].
    now rewrite default_patterns_words.
  - intros Hstate. rewrite shouldRedact_stateless by assumption.
    unfold redacts. now rewrite default_patterns_words.
Qed.

(** *** The result of a walk *)

Lemma redacted_props_snoc (s : DataSanitizer) (props : list (jsstring * jsval))
    (key : jsstring) (v : jsval) :
  redacted_props s props →
  key ≠ PROTO →
  (autoRedact s = true → mentions_sensitive_word key = true →
   v = VString (redactedValue s)) →
  redacted s v →
  redacted_props s (props ++ [(key, v)]).
Proof.
  intros Hprops Hkey Hword Hv. induction Hprops as [|k w props Hk Hw Hr _ IH]; cbn [app].
  - constructor; [assumption..|constructor].
  - now constructor.
Qed.

Lemma redacted_items_Forall (s : DataSanitizer) (items : list jsval) :
  Forall (redacted s) items → redacted_items s items.
Proof. induction 1; now constructor. Qed.

Lemma redacted_error_fields (s : DataSanitizer) name message stack :
  redacted s (error_fields name message stack).
Proof.
  unfold error_fields. constructor.
  constructor; [discriminate|intros _ [=]|constructor|].
  constructor; [discriminate|intros _ [=]|constructor|].
  constructor; [discriminate|intros _ [=]|destruct stack; constructor|constructor].
Qed.

Section Walk.
Variable s : DataSanitizer.
Variable h : store.

Lemma traverse_ends_well (recur : jsval → action jsval) (room rem : nat) :
  (∀ v σ, ends_well s room rem (recur v σ).1) →
  ∀ items σ,
    match (traverse recur items σ).1 with
    | Returns items' => Forall (redacted s) items'
    | Throws StackExhausted => room ≤ rem
    | Throws InvalidTime => True
    | Throws NotWritable => False
    end.
Proof.
  intros Hrec. induction items as [|v items IH]; intros σ; [constructor|].
  cbn [traverse]. rewrite bind_run. specialize (Hrec v σ).
  destruct (recur v σ) as [[v'|e] σ1]; cbn [fst] in Hrec |- *; [|exact Hrec].
  rewrite bind_run. specialize (IH σ1).
  destruct (traverse recur items σ1) as [[items'|e] σ2]; cbn [fst] in IH |- *;
    [|exact IH].
  now constructor.
Qed.

Lemma sanitize_properties_redacted (recur : jsval → action jsval) :
  (∀ v σ out, (recur v σ).1 = Returns out → redacted s out) →
  ∀ props b σ out,
    redacted_props s (own b) →
    (∀ p, proto b = Some p → redacted s p) →
    (sanitize_properties s recur props b σ).1 = Returns out →
    redacted s out.
Proof.
  intros Hrec. induction props as [|[key v] props IH]; intros b σ out Hown Hproto Hrun.
  - cbn in Hrun. injection Hrun as <-. unfold built.
    destruct (proto b) as [p|] eqn:Hp; constructor; auto.
  - cbn [sanitize_properties] in Hrun. rewrite bind_run in Hrun.
    destruct (shouldRedact s key σ) as [[redact|e] σ1] eqn:Hkey; [|discriminate].
    rewrite bind_run in Hrun.
    assert (Hv : ∀ v' σ2,
      (if redact then ret (VString (redactedValue s)) else recur v) σ1
      = (Returns v', σ2) →
      redacted s v'
      ∧ (autoRedact s = true → mentions_sensitive_word key = true →
         v' = VString (redactedValue s))).
    { intros v' σ2 Hval. split.
      - destruct redact; [injection Hval as <- _; constructor|].
        apply (Hrec v σ1). now rewrite Hval.
      - intros Hauto Hword.
        rewrite shouldRedact_builtin in Hkey
          by (assumption || now rewrite default_patterns_words).
        injection Hkey as <- _. now injection Hval as <- _. }
    destruct ((if redact then ret (VString (redactedValue s)) else recur v) σ1)
      as [[v'|e] σ2]; [|discriminate].
    destruct (Hv v' σ2 eq_refl) as [Hred Hword].
    rewrite bind_run in Hrun. unfold lift in Hrun. unfold assign in Hrun.
    case_decide as Hp.
    + destruct (sets_prototype v').
      * apply (IH {| proto := Some v'; own := own b |} σ2 out Hown); [|exact Hrun].
        now intros p [= <-].
      * exact (IH b σ2 out Hown Hproto Hrun).
    + destruct (readonly_under (proto b) key); [discriminate|].
      exact (IH {| proto := proto b; own := own b ++ [(key, v')] |} σ2 out
               (redacted_props_snoc s _ key v' Hown Hp Hword Hred) Hproto Hrun).
Qed.

Lemma sanitizeRecursive_ends_well (maxDepth : nat) :
  ∀ stack value currentDepth σ,
    ends_well s stack (maxDepth - currentDepth)
      (sanitizeRecursive s h stack value maxDepth currentDepth σ).1.
Proof.
  induction stack as [|stack IH]; intros value cd σ; [cbn; lia|].
  cbn [sanitizeRecursive]. case_decide as Hcap; [constructor|].
  set (recur := λ v, sanitizeRecursive s h stack v maxDepth (S cd)).
  assert (Hrec : ∀ v σ', ends_well s (S stack) (maxDepth - cd) (recur v σ').1).
  { intros v σ'. specialize (IH v (S cd) σ'). fold (recur v) in IH.
    destruct ((recur v σ').1) as [out|[| |]]; cbn in IH |- *; [assumption|lia|..];
      assumption. }
  assert (Hobj : ∀ o, ends_well s (S stack) (maxDepth - cd) (sanitize_object s recur o σ).1).
  { intros [name message stk|[iso|]|items|props|p props]; cbn [sanitize_object].
    - apply redacted_error_fields.
    - constructor.
    - exact I.
    - rewrite bind_run.
      pose proof (traverse_ends_well recur (S stack) (maxDepth - cd) Hrec items σ) as Ht.
      destruct (traverse recur items σ) as [[items'|e] σ1]; cbn [fst] in Ht |- *;
        [|exact Ht].
      constructor. now apply redacted_items_Forall.
    - unfold catch.
      destruct (sanitize_properties s recur props empty_literal σ) as [[out|e] σ1] eqn:Hrun;
        [|constructor].
      cbn [fst ends_well].
      apply (sanitize_properties_redacted recur) with (props := props)
        (b := empty_literal) (σ := σ); [|constructor|discriminate|now rewrite Hrun].
      intros v σ' out' Hout. specialize (Hrec v σ'). now rewrite Hout in Hrec.
    - unfold catch.
      destruct (sanitize_properties s recur props empty_literal σ) as [[out|e] σ1] eqn:Hrun;
        [|constructor].
      cbn [fst ends_well].
      apply (sanitize_properties_redacted recur) with (props := props)
        (b := empty_literal) (σ := σ); [|constructor|discriminate|now rewrite Hrun].
      intros v σ' out' Hout. specialize (Hrec v σ'). now rewrite Hout in Hrec. }
  destruct value; try apply Hobj; constructor.
Qed.

(** The own keys of the literal that the loop returns. *)
Lemma sanitize_properties_keys (recur : jsval → action jsval) :
  ∀ props b σ out,
    (sanitize_properties s recur props b σ).1 = Returns out →
    ∃ props',
      (out = VObject (ORecord props') ∨ ∃ p, out = VObject (OInherits p props'))
      ∧ map fst props'
        = map fst (own b) ++ filter (λ key, key ≠ PROTO) (map fst props).
Proof.
  induction props as [|[key v] props IH]; intros b σ out Hrun.
  - cbn in Hrun. injection Hrun as <-. exists (own b). rewrite app_nil_r.
    split; [|reflexivity]. unfold built. destruct (proto b); eauto.
  - cbn [sanitize_properties] in Hrun. rewrite bind_run in Hrun.
    destruct (shouldRedact s key σ) as [[redact|e] σ1]; [|discriminate].
    rewrite bind_run in Hrun.
    destruct ((if redact then ret (VString (redactedValue s)) else recur v) σ1)
      as [[v'|e] σ2]; [|discriminate].
    rewrite bind_run in Hrun. unfold lift in Hrun. unfold assign in Hrun.
    cbn [map fst]. rewrite filter_cons. case_decide as Hp.
    + rewrite decide_False by (intros Hne; now apply Hne).
      destruct (IH _ _ _ Hrun) as (props' & Hout & Hkeys).
      exists props'. split; [exact Hout|]. rewrite Hkeys.
      now destruct (sets_prototype v').
    + rewrite decide_True by assumption.
      destruct (readonly_under (proto b) key); [discriminate|].
      destruct (IH _ _ _ Hrun) as (props' & Hout & Hkeys).
      exists props'. split; [exact Hout|]. rewrite Hkeys. cbn [own].
      rewrite map_app. cbn [map fst]. now rewrite <- app_assoc.
Qed.

End Walk.

(** X22. Whatever [sanitize] returns is data without references, [Error]
    or [Date] objects and without an own property [__proto__], functions
    being handed back as they are, in which, when [autoRedact] is on, every
    key that mentions a sensitive word holds the redacted value, at every
    level and whatever the custom patterns are. The only exceptions that get
    out of [sanitize] are the one of an invalid [Date] outside any plain
    object and, when [maxDepth] is at least the room on the call stack, the
    exhaustion of that stack. *)
Theorem sanitize_output_redacted (s : DataSanitizer) (h : store) (σ : regexps)
    (stack : nat) (data : jsval) (maxDepth : nat) :
  match (sanitize s h stack data maxDepth σ).1 with
  | Returns out => redacted s out
  | Throws StackExhausted => stack ≤ maxDepth
  | Throws InvalidTime => True
  | Throws NotWritable => False
  end.
Proof.
  rewrite sanitize_sanitizeRecursive.
  pose proof (sanitizeRecursive_ends_well s h maxDepth stack data 0 σ) as H.
  now rewrite Nat.sub_0_r in H.
Qed.

(** X23. [sanitize] on a plain object never throws, as long as the call
    itself fits on the stack: with a depth cap of at least 1 it returns
    either an object whose own keys are those of the input in the same
    order, [__proto__] left out, or the text [[Circular Reference]] when
    something in the loop threw; with a cap of 0 it returns
    [[Max Depth Reached]]. *)
Theorem sanitize_record_returns (s : DataSanitizer) (h : store) (σ : regexps)
    (stack : nat) (props : list (jsstring * jsval)) (maxDepth : nat) :
  0 < stack →
  (maxDepth = 0 ∧
   (sanitize s h stack (VObject (ORecord props)) maxDepth σ).1
   = Returns MaxDepthReached)
  ∨ (0 < maxDepth ∧
     ((sanitize s h stack (VObject (ORecord props)) maxDepth σ).1
      = Returns CircularReference
      ∨ ∃ props',
          ((sanitize s h stack (VObject (ORecord props)) maxDepth σ).1
           = Returns (VObject (ORecord props'))
           ∨ ∃ p, (sanitize s h stack (VObject (ORecord props)) maxDepth σ).1
                  = Returns (VObject (OInherits p props')))
          ∧ map fst props' = filter (λ key, key ≠ PROTO) (map fst props))).
Proof.
  intros Hstack. rewrite sanitize_sanitizeRecursive.
  destruct stack as [|stack]; [lia|]. cbn [sanitizeRecursive].
  case_decide as Hcap.
  { left. split; [lia|reflexivity]. }
  right. split; [lia|]. cbn [sanitize_object]. unfold catch.
  set (recur := λ v, sanitizeRecursive s h stack v maxDepth 1).
  destruct (sanitize_properties s recur props empty_literal σ) as [[out|e] σ1] eqn:Hrun;
    [|now left].
  right.
  destruct (sanitize_properties_keys s recur props empty_literal σ out
              ltac:(now rewrite Hrun)) as (props' & Hout & Hkeys).
  exists props'. split; [|exact Hkeys].
  destruct Hout as [->|[p ->]]; [now left|right; now exists p].
Qed.

Lemma sanitize_record_returns_witness :
  ∃ props', (sanitize default_sanitizer self_store 11 sample_state 10 no_patterns).1
            = Returns (VObject (ORecord props'))
            ∧ map fst props'
              = [str "user"; str "lastError"; str "loop"; str "onChange"; str "items"].
Proof.
  destruct (sanitize_record_returns default_sanitizer self_store no_patterns 11
              [ (str "user", VObject (ORecord
                   [ (str "id", VNumber 7);
                     (str "password", VString (str "hunter2"));
                     (str "since", VObject (ODate (Some (str "2024-01-01T00:00:00.000Z")))) ]));
                (str "lastError", VObject (OError (str "TypeError") (str "x is undefined") None));
                (str "loop", VRef 0);
                (str "onChange", VFunction 0 [str "length"; str "name"]);
                (str "items", VObject (OArray [VNumber 1; VNull; VBool true])) ] 10
              ltac:(lia)) as [[H0 _]|[_ [Hc|(props' & [Hrec|[p Hp]] & Hkeys)]]].
  - discriminate.
  - exfalso. vm_compute in Hc. discriminate.
  - exists props'. split; [exact Hrec|exact Hkeys].
  - exfalso. vm_compute in Hp. discriminate.
Defined.

End RedactionFacts.

(** ** Fingerprint: library frames, the hash *)

Section FingerprintMore.
Import Fingerprint.

Lemma first_frame_passed_over (lines : list jsstring) :
  forallb passed_over lines = true → first_frame lines = None.
Proof.
  induction lines as [|line lines IH]; [reflexivity|].
  cbn [forallb first_frame]. rewrite andb_true_iff. intros [Hline Hrest].
  unfold passed_over in Hline.
  destruct (includes (str "at ") line); cbn [negb orb] in Hline |- *; [|now apply IH].
  rewrite Hline. now apply IH.
Qed.

Lemma fingerprint_parts_no_own_frame (error : JsError) (config : option FingerprintConfig) :
  no_own_frame (stack error) = true →
  fingerprint_parts error config
  = (if enabled config useType
     then [match name error with [] => str "Error" | n => n end] else [])
    ++ (if enabled config useMessage then [normalizeMessage (message error)] else []).
Proof.
  intros Hstack. unfold fingerprint_parts.
  assert (Hnone : (if enabled config useStackFrame
                   then match stack error with
                        | Some (c :: st) =>
                            match extractFirstMeaningfulFrame (c :: st) with
                            | Some (f :: frame) => [f :: frame]
                            | _ => []
                            end
                        | _ => []
                        end
                   else []) = []).
  { destruct (enabled config useStackFrame); [|reflexivity].
    destruct (stack error) as [[|c st]|]; try reflexivity.
    unfold extractFirstMeaningfulFrame.
    now rewrite (first_frame_passed_over _ Hstack). }
  rewrite Hnone. now rewrite app_nil_r.
Qed.

(** X25. A stack in which every line either has no [at ] or mentions
    [node_modules], [<anonymous>], [webpack] or [turbopack] contributes
    nothing: without a custom function, two errors with the same name and
    the same message whose stacks are of that kind (or missing) get the same
    fingerprint, whatever the stacks are. *)
Theorem generateFingerprint_library_frames (e1 e2 : JsError) (ev1 ev2 : ErrorEvent)
    (config : option FingerprintConfig) :
  config ≫= customFingerprint = None →
  name e1 = name e2 → message e1 = message e2 →
  no_own_frame (stack e1) = true → no_own_frame (stack e2) = true →
  generateFingerprint e1 ev1 config = generateFingerprint e2 ev2 config
  ∧ extractFirstMeaningfulFrame (default [] (stack e1)) = None.
Proof.
  intros Hcustom Hname Hmessage H1 H2. split.
  - unfold generateFingerprint. rewrite Hcustom.
    rewrite !fingerprint_parts_no_own_frame by assumption.
    now rewrite Hname, Hmessage.
  - destruct (stack e1) as [st|]; cbn [default no_own_frame] in *.
    + now apply first_frame_passed_over.
    + reflexivity.
Qed.

Lemma generateFingerprint_library_frames_witness :
  generateFingerprint
    {| name := str "TypeError"; message := str "x is undefined";
       stack := Some library_stack |}
    (Queue.sample_event "a") None
  = generateFingerprint
      {| name := str "TypeError"; message := str "x is undefined"; stack := None |}
      (Queue.sample_event "b") None.
Proof.
  apply (generateFingerprint_library_frames
           {| name := str "TypeError"; message := str "x is undefined";
              stack := Some library_stack |}
           {| name := str "TypeError"; message := str "x is undefined"; stack := None |}
           (Queue.sample_event "a") (Queue.sample_event "b") None);
    reflexivity.
Defined.

(** X26. [hashString] returns exactly eight characters out of [0-9a-f],
    and the number they spell in base 16 is the djb2 hash with xor computed
    on unsigned 32-bit numbers: the signed 32-bit arithmetic of the loop
    and the final [>>> 0] lose nothing of it. A fingerprint made without a
    custom function has that format. *)
Theorem hashString_format (s : jsstring) :
  length (hashString s) = 8
  ∧ forallb is_lower_hex (hashString s) = true
  ∧ hex_value (hashString s) = djb2 s
  ∧ (0 ≤ djb2 s < 2 ^ 32)%Z
  ∧ ∀ error event config,
      config ≫= customFingerprint = None →
      length (generateFingerprint error event config) = 8
      ∧ forallb is_lower_hex (generateFingerprint error event config) = true.
Proof.
  rewrite hashString_djb2. pose proof (djb2_range s) as Hrange.
  destruct (hex8_format (djb2 s)) as [Hlen Hhex].
  repeat split; try assumption; try lia.
  - now apply hex8_value.
  - unfold generateFingerprint. rewrite H. rewrite hashString_djb2. apply hex8_format.
  - unfold generateFingerprint. rewrite H. rewrite hashString_djb2. apply hex8_format.
Qed.

End FingerprintMore.

(** ** Configuration: what a simple configuration becomes *)

Section ConfigFacts.
Import Config.

(** X27. What [mergeConfig] makes of the result of [fromSimpleConfig]:
    the keys [enabled] and [sampleRate] are always present in that result,
    so the defaults ([enabled: true], [sampleRate: 1]) are never used for
    them. The tracker is enabled only when [enabled: true] was given, and
    without a sample rate (given, or set by the development, production or
    full preset) every event is dropped by sampling. A preset overrides the
    [debug], [environment] and [sampleRate] given beside it. A
    configuration object that lacks a key gets its default. *)
Theorem simple_config_merged (simple : SimpleConfig) (random : Q)
    (user : PartialErrorTrackerConfig) :
  read (enabled (mergeConfig (fromSimpleConfig simple))) = simple_enabled simple
  ∧ is_enabled (mergeConfig (fromSimpleConfig simple))
    = bool_decide (simple_enabled simple = Some true)
  ∧ read (sampleRate (mergeConfig (fromSimpleConfig simple)))
    = match preset simple with
      | Some preset_development | Some preset_production | Some preset_full => Some 1%Q
      | _ => simple_sampleRate simple
      end
  ∧ (preset simple = None ∨ preset simple = Some preset_minimal →
     simple_sampleRate simple = None →
     shouldSample (mergeConfig (fromSimpleConfig simple)) random = false)
  ∧ read (debug (mergeConfig (fromSimpleConfig simple)))
    = match preset simple with
      | Some preset_development | Some preset_full => Some true
      | Some preset_production => Some false
      | _ => simple_debug simple
      end
  ∧ read (environment (mergeConfig (fromSimpleConfig simple)))
    = match preset simple with
      | Some preset_development => Some development
      | Some preset_production => Some production
      | _ => simple_environment simple
      end
  ∧ read (endpoint (mergeConfig (fromSimpleConfig simple))) = Some (url simple)
  ∧ (enabled user = Absent → is_enabled (mergeConfig user) = true)
  ∧ (sampleRate user = Absent → shouldSample (mergeConfig user) random = true).
Proof.
  unfold is_enabled, shouldSample, mergeConfig, fromSimpleConfig, spread_config.
  cbn [enabled sampleRate debug environment endpoint defaultConfig].
  repeat split.
  - destruct (preset simple) as [[]|]; reflexivity.
  - destruct (preset simple) as [[]|]; cbn [presets empty_object enabled spread read];
      destruct (simple_enabled simple) as [[]|]; reflexivity.
  - destruct (preset simple) as [[]|]; reflexivity.
  - intros [->| ->] Hrate; cbn [presets empty_object sampleRate spread read];
      now rewrite Hrate.
  - destruct (preset simple) as [[]|]; reflexivity.
  - destruct (preset simple) as [[]|]; reflexivity.
  - destruct (preset simple) as [[]|]; reflexivity.
  - intros ->. reflexivity.
  - intros ->. reflexivity.
Qed.

End ConfigFacts.

(** ** Event ids *)

Section HelpersFacts.
Import Helpers.







End HelpersFacts.

